(** * Paillier cryptosystem over JavaScript BigInt: a shallow embedding

    The development follows the two layers of the library:

    - [Bcu]: the arithmetic, random-sampling and primality helpers of
      bigint-crypto-utils, as bundled in [test/browser/tests.js];
    - [PublicKey], [PrivateKey] and the key-generation functions of the
      Paillier scheme itself.

    JavaScript [bigint] values are modelled by [Z]: [/] is [Z.quot], [%] is
    [Z.rem], [>>] is [Z.shiftr], [&] is [Z.land] and [|] is [Z.lor].  A
    function that can return the number [NaN] returns a [value]; a function
    that can throw returns an [outcome]; a function that reads random
    bytes is a [rand] computation over the tape of the bytes to come.

    A [while] loop is a [Fixpoint] on an unrolling bound.  The bound of a
    deterministic loop is computed from its arguments and is shown never
    to be reached; the bound of a loop that draws random numbers is the
    length of the tape, since every round reads from it.

    [generateRandomKeys] and [generateRandomKeysSync] are [keysFromPrimes]
    and [keysFromPrimesSimple] applied to primes that they draw with
    [bcu.prime], which runs in workers: the properties are stated on the
    two functions that take the primes. *)

From Stdlib Require Import ZArith String List Lia Bool Permutation.
From Stdlib Require Import Zmod.ZmodInv.
Import ListNotations.
Local Open Scope Z_scope.

(** ** Completions *)

(** The three exception classes that occur: the ones the library throws
    itself and the ones the engine raises on BigInt arithmetic. *)
Inductive error : Type :=
| RangeError (msg : string)
| TypeError (msg : string)
| Error (msg : string).

(** How a call ends.  [Unfinished] is not a JavaScript completion: it says
    that the finite part of the run given to the model (the unrolling bound
    of a [while] loop, or the finite random tape) ended before the call
    returned. *)
Inductive outcome (A : Type) : Type :=
| Ret (a : A)
| Throw (e : error)
| Unfinished.

Arguments Ret {A} a.
Arguments Throw {A} e.
Arguments Unfinished {A}.

Definition bind {A B : Type} (c : outcome A) (k : A -> outcome B) : outcome B :=
  match c with
  | Ret a => k a
  | Throw e => Throw e
  | Unfinished => Unfinished
  end.

Declare Scope js_scope.
Delimit Scope js_scope with js.
Notation "x <- c ;; k" := (bind c (fun x => k))
  (at level 61, c at next level, right associativity) : js_scope.
Notation "' pat <- c ;; k" := (bind c (fun x => let 'pat := x in k))
  (at level 61, pat pattern, c at next level, right associativity) : js_scope.
Local Open Scope js_scope.

(** ** Values *)

(** The values that flow through the arithmetic: a bigint, or the number
    [NaN] that the helpers return to signal failure. *)
Inductive value : Type :=
| BigInt (z : Z)
| NaN.

Definition value_eqb (x y : value) : bool :=
  match x, y with
  | BigInt a, BigInt b => a =? b
  | _, _ => false                      (* NaN equals nothing, itself included *)
  end.

Definition mixed_types : error :=
  TypeError "Cannot mix BigInt and other types, use explicit conversions".
Definition division_by_zero : error := RangeError "Division by zero".
Definition not_an_integer : error :=
  RangeError "The number NaN cannot be converted to a BigInt because it is not an integer".

(** [BigInt(x)] *)
Definition to_BigInt (x : value) : outcome Z :=
  match x with
  | BigInt z => Ret z
  | NaN => Throw not_an_integer
  end.

(** [x * y], [x - y], [x / y] and [x % y]: two bigints give a bigint, two
    numbers give a number ([NaN] here), a mix is a [TypeError]. *)
Definition js_mul (x y : value) : outcome value :=
  match x, y with
  | BigInt a, BigInt b => Ret (BigInt (a * b))
  | NaN, NaN => Ret NaN
  | _, _ => Throw mixed_types
  end.

Definition js_sub (x y : value) : outcome value :=
  match x, y with
  | BigInt a, BigInt b => Ret (BigInt (a - b))
  | NaN, NaN => Ret NaN
  | _, _ => Throw mixed_types
  end.

Definition js_div (x y : value) : outcome value :=
  match x, y with
  | BigInt a, BigInt b =>
      if b =? 0 then Throw division_by_zero else Ret (BigInt (Z.quot a b))
  | NaN, NaN => Ret NaN
  | _, _ => Throw mixed_types
  end.

Definition js_rem (x y : value) : outcome value :=
  match x, y with
  | BigInt a, BigInt b =>
      if b =? 0 then Throw division_by_zero else Ret (BigInt (Z.rem a b))
  | NaN, NaN => Ret NaN
  | _, _ => Throw mixed_types
  end.

(** ** bigint-crypto-utils *)

Module Bcu.

(** [abs(a)] *)
Definition abs (a : Z) : Z := if a >=? 0 then a else - a.

(** [toZn(a, n)] *)
Definition toZn (a : value) (n : Z) : outcome value :=
  if n <=? 0 then Ret NaN
  else
    a <- to_BigInt a ;;
    let a := Z.rem a n in
    Ret (BigInt (if a <? 0 then a + n else a)).

(** The object [{b, x, y}] that [eGcd] returns. *)
Record egcdReturn : Type := { eg_b : Z; eg_x : Z; eg_y : Z }.

(** The [while (a !== _ZERO)] loop of [eGcd]. *)
Fixpoint eGcd_loop (fuel : nat) (a b x y u v : Z) : outcome egcdReturn :=
  match fuel with
  | O => Unfinished
  | S fuel' =>
      if negb (a =? 0) then
        let q := Z.quot b a in
        let r := Z.rem b a in
        let m := x - u * q in
        let n := y - v * q in
        eGcd_loop fuel' r a u v m n
      else Ret {| eg_b := b; eg_x := x; eg_y := y |}
  end.

(** Unrolling bound of the loop of [eGcd a b]: after the first round [a]
    is below [b], and from then on every round halves [b]; [eGcd_spec]
    shows that the bound is never reached. *)
Definition eGcd_fuel (a b : Z) : nat := Z.to_nat (Z.log2 a + Z.log2 b) + 3.

(** [eGcd(a, b)]; [None] is the [NaN] it returns for non-positive input. *)
Definition eGcd (a b : value) : outcome (option egcdReturn) :=
  a <- to_BigInt a ;;
  b <- to_BigInt b ;;
  if (a <=? 0) || (b <=? 0) then Ret None
  else
    r <- eGcd_loop (eGcd_fuel a b) a b 0 1 1 0 ;;
    Ret (Some r).

(** The first loop of [gcd]: [while (!((a | b) & _ONE))]. *)
Fixpoint gcd_shift_loop (fuel : nat) (a b shift : Z) : outcome (Z * Z * Z) :=
  match fuel with
  | O => Unfinished
  | S fuel' =>
      if Z.land (Z.lor a b) 1 =? 0 then
        gcd_shift_loop fuel' (Z.shiftr a 1) (Z.shiftr b 1) (shift + 1)
      else Ret (a, b, shift)
  end.

(** [while (!(a & _ONE)) a >>= _ONE], used for [a] and, inside the main
    loop, for [b]. *)
Fixpoint gcd_odd_loop (fuel : nat) (a : Z) : outcome Z :=
  match fuel with
  | O => Unfinished
  | S fuel' =>
      if Z.land a 1 =? 0 then gcd_odd_loop fuel' (Z.shiftr a 1) else Ret a
  end.

(** The [do ... while (b)] loop of [gcd]; [inner] bounds the nested loop. *)
Fixpoint gcd_main_loop (fuel inner : nat) (a b : Z) : outcome Z :=
  match fuel with
  | O => Unfinished
  | S fuel' =>
      b <- gcd_odd_loop inner b ;;
      let '(a, b) := if a >? b then (b, a) else (a, b) in
      let b := b - a in
      if negb (b =? 0) then gcd_main_loop fuel' inner a b else Ret a
  end.

(** Unrolling bound of the loops of [gcd a b]: a round of the first two
    loops removes a bit of [a], and a round of the main loop removes a bit
    of [a] or of [b], the first round apart; [gcd_spec] shows that the
    bound is never reached. *)
Definition gcd_fuel (a b : Z) : nat := Z.to_nat (Z.log2 a + Z.log2 b) + 2.

(** [gcd(a, b)] *)
Definition gcd (a b : Z) : outcome Z :=
  let a := abs a in
  let b := abs b in
  if a =? 0 then Ret b
  else if b =? 0 then Ret a
  else
    let fuel := gcd_fuel a b in
    '(a, b, shift) <- gcd_shift_loop fuel a b 0 ;;
    a <- gcd_odd_loop fuel a ;;
    a <- gcd_main_loop fuel fuel a b ;;
    Ret (Z.shiftl a shift).

(** [lcm(a, b)] *)
Definition lcm (a b : Z) : outcome Z :=
  if (a =? 0) && (b =? 0) then Ret 0
  else
    d <- gcd a b ;;
    if d =? 0 then Throw division_by_zero else Ret (Z.quot (abs (a * b)) d).

(** [modInv(a, n)] *)
Definition modInv (a : value) (n : Z) : outcome value :=
  if value_eqb a (BigInt 0) || (n <=? 0) then Ret NaN
  else
    a' <- toZn a n ;;
    egcd <- eGcd a' (BigInt n) ;;
    match egcd with
    | None => Ret NaN                  (* [NaN.b] is [undefined] *)
    | Some e => if negb (eg_b e =? 1) then Ret NaN else toZn (BigInt (eg_x e)) n
    end.

(** The [while (b > 0)] loop of [modPow]. *)
Fixpoint modPow_loop (fuel : nat) (result x : value) (b n : Z) : outcome value :=
  match fuel with
  | O => Unfinished
  | S fuel' =>
      if b >? 0 then
        let leastSignificantBit := Z.rem b 2 in
        let b := Z.quot b 2 in
        result <- (if leastSignificantBit =? 1
                   then (result <- js_mul result x ;; js_rem result (BigInt n))
                   else Ret result) ;;
        x <- js_mul x x ;;
        x <- js_rem x (BigInt n) ;;
        modPow_loop fuel' result x b n
      else Ret result
  end.

(** Unrolling bound of the loop: one round per bit of [b]
    ([modPow_finishes] shows that it is never reached). *)
Definition modPow_fuel (b : Z) : nat := S (S (Z.to_nat (Z.log2 b))).

(** [modPow(a, b, n)] on the path [b >= 0]. *)
Definition modPow_nonneg (a : value) (b n : Z) : outcome value :=
  if n =? 0 then Ret NaN
  else
    a <- toZn a n ;;
    modPow_loop (modPow_fuel b) (BigInt 1) a b n.

(** [modPow(a, b, n)].  For [b < 0] the function calls itself once, with
    the exponent [abs(b) > 0]: that call runs [modPow_nonneg]. *)
Definition modPow (a b : value) (n : Z) : outcome value :=
  if n =? 0 then Ret NaN
  else
    a <- toZn a n ;;
    b <- to_BigInt b ;;
    if b <? 0 then
      r <- modPow_nonneg a (abs b) n ;;
      modInv r n
    else modPow_loop (modPow_fuel b) (BigInt 1) a b n.

(** The [do { bits++ } while ((a >>= _ONE) > _ONE)] loop of [bitLength]. *)
Fixpoint bitLength_loop (fuel : nat) (a bits : Z) : outcome Z :=
  match fuel with
  | O => Unfinished
  | S fuel' =>
      let bits := bits + 1 in
      let a := Z.shiftr a 1 in
      if a >? 1 then bitLength_loop fuel' a bits else Ret bits
  end.

(** [bitLength(a)]; the loop runs once per bit of [a] after the first
    ([bitLength_spec]). *)
Definition bitLength (a : Z) : outcome Z :=
  if a =? 1 then Ret 1
  else bitLength_loop (S (Z.to_nat (Z.log2 a))) a 1.

(** *** Random sampling

    The platform generator is an input of the model: a tape of the bytes
    that [crypto.getRandomValues] will deliver, in order.  A computation
    that asks for more bytes than the tape holds is [Unfinished]. *)
Definition tape : Type := list Byte.byte.
Definition rand (A : Type) : Type := tape -> outcome (A * tape).

(** Return without reading the tape. *)
Definition rret {A : Type} (a : A) : rand A := fun t => Ret (a, t).

(** Sequence: the second computation reads what the first has left. *)
Definition rbind {A B : Type} (c : rand A) (k : A -> rand B) : rand B :=
  fun t =>
    match c t with
    | Ret (a, t') => k a t'
    | Throw e => Throw e
    | Unfinished => Unfinished
    end.

(** A computation that draws nothing. *)
Definition lift {A : Type} (c : outcome A) : rand A :=
  fun t => a <- c ;; Ret (a, t).

(** [throw e] *)
Definition rthrow {A : Type} (e : error) : rand A := fun _ => Throw e.

Notation "x <~ c ;; k" := (rbind c (fun x => k))
  (at level 61, c at next level, right associativity) : js_scope.
Notation "' pat <~ c ;; k" := (rbind c (fun x => let 'pat := x in k))
  (at level 61, pat pattern, c at next level, right associativity) : js_scope.

Definition byte_to_Z (b : Byte.byte) : Z := Z.of_N (Byte.to_N b).

(** [buf = new Uint8Array(byteLength); self.crypto.getRandomValues(buf)] *)
Definition getRandomValues (byteLength : Z) : rand (list Z) :=
  fun t =>
    let k := Z.to_nat byteLength in
    if (length t <? k)%nat then Unfinished
    else Ret (map byte_to_Z (firstn k t), skipn k t).

(** [buf[0] = f(buf[0])] *)
Definition set_first (f : Z -> Z) (buf : list Z) : list Z :=
  match buf with
  | [] => []
  | x :: rest => f x :: rest
  end.

(** [randBytesSync(byteLength, forceLength)] *)
Definition randBytesSync (byteLength : Z) (forceLength : bool) : rand (list Z) :=
  if byteLength <? 1 then rthrow (RangeError "byteLength MUST be > 0")
  else
    buf <~ getRandomValues byteLength ;;
    rret (if forceLength then set_first (fun x => Z.lor x 128) buf else buf).

(** [randBits(bitLength, forceLength)]; [Math.ceil(bitLength / 8)] on a
    whole number of bits is [(bitLength + 7) / 8]. *)
Definition randBits (bitLength : Z) (forceLength : bool) : rand (list Z) :=
  if bitLength <? 1 then rthrow (RangeError "bitLength MUST be > 0")
  else
    let byteLength := (bitLength + 7) / 8 in
    rndBytes <~ randBytesSync byteLength false ;;
    let rndBytes :=
      set_first (fun x => Z.land x (2 ^ (Z.rem bitLength 8) - 1)) rndBytes in
    rret (if forceLength then
            let mask := if negb (Z.rem bitLength 8 =? 0)
                        then 2 ^ (Z.rem bitLength 8 - 1) else 128 in
            set_first (fun x => Z.lor x mask) rndBytes
          else rndBytes).

(** [fromBuffer(buf)] *)
Definition fromBuffer (buf : list Z) : Z :=
  fold_left (fun ret bi => Z.shiftl ret 8 + bi) buf 0.

(** The rejection loop of [randBetween]:
    [do { rnd = fromBuffer(randBits(bitLen)) } while (rnd > interval)]. *)
Fixpoint randBetween_loop (fuel : nat) (bitLen interval : Z) : rand Z :=
  match fuel with
  | O => fun _ => Unfinished
  | S fuel' =>
      buf <~ randBits bitLen false ;;
      let rnd := fromBuffer buf in
      if rnd >? interval then randBetween_loop fuel' bitLen interval
      else rret rnd
  end.

(** [randBetween(max, min)].  Every round of the loop reads at least one
    byte, so the length of the tape bounds the rounds. *)
Definition randBetween (max min : Z) : rand Z :=
  if max <=? min then rthrow (Error "max must be > min")
  else
    let interval := max - min in
    bitLen <~ lift (bitLength interval) ;;
    rnd <~ (fun t => randBetween_loop (S (length t)) bitLen interval t) ;;
    rret (rnd + min).

(** *** Primality test *)

Definition firstPrimes : list Z :=
  [3; 5; 7; 11; 13; 17; 19; 23; 29; 31; 37; 41; 43; 47; 53; 59; 61; 67; 71;
   73; 79; 83; 89; 97; 101; 103; 107; 109; 113; 127; 131; 137; 139; 149; 151;
   157; 163; 167; 173; 179; 181; 191; 193; 197; 199; 211; 223; 227; 229; 233;
   239; 241; 251; 257; 263; 269; 271; 277; 281; 283; 293; 307; 311; 313; 317;
   331; 337; 347; 349; 353; 359; 367; 373; 379; 383; 389; 397; 401; 409; 419;
   421; 431; 433; 439; 443; 449; 457; 461; 463; 467; 479; 487; 491; 499; 503;
   509; 521; 523; 541; 547; 557; 563; 569; 571; 577; 587; 593; 599; 601; 607;
   613; 617; 619; 631; 641; 643; 647; 653; 659; 661; 673; 677; 683; 691; 701;
   709; 719; 727; 733; 739; 743; 751; 757; 761; 769; 773; 787; 797; 809; 811;
   821; 823; 827; 829; 839; 853; 857; 859; 863; 877; 881; 883; 887; 907; 911;
   919; 929; 937; 941; 947; 953; 967; 971; 977; 983; 991; 997; 1009; 1013;
   1019; 1021; 1031; 1033; 1039; 1049; 1051; 1061; 1063; 1069; 1087; 1091;
   1093; 1097; 1103; 1109; 1117; 1123; 1129; 1151; 1153; 1163; 1171; 1181;
   1187; 1193; 1201; 1213; 1217; 1223; 1229; 1231; 1237; 1249; 1259; 1277;
   1279; 1283; 1289; 1291; 1297; 1301; 1303; 1307; 1319; 1321; 1327; 1361;
   1367; 1373; 1381; 1399; 1409; 1423; 1427; 1429; 1433; 1439; 1447; 1451;
   1453; 1459; 1471; 1481; 1483; 1487; 1489; 1493; 1499; 1511; 1523; 1531;
   1543; 1549; 1553; 1559; 1567; 1571; 1579; 1583; 1597].

(** The trial-division loop
    [for (i = 0; i < firstPrimes.length && firstPrimes[i] <= w; i++)];
    [None] when the loop ends without a [return]. *)
Fixpoint trial_division (primes : list Z) (w : Z) : option bool :=
  match primes with
  | [] => None
  | p :: rest =>
      if p <=? w then
        if w =? p then Some true
        else if Z.rem w p =? 0 then Some false
        else trial_division rest w
      else None
  end.

(** The prefilter of [_isProbablyPrime]: everything before the
    Miller-Rabin rounds.  [Some true] and [Some false] are the two
    [return]s; [None] is control reaching the Miller-Rabin part. *)
Definition prefilter (w : Z) : option bool :=
  if w =? 2 then Some true
  else if (Z.land w 1 =? 0) || (w =? 1) then Some false
  else trial_division firstPrimes w.

(** [while (d % _TWO === _ZERO) { d /= _TWO; ++a }] *)
Fixpoint mr_factor_loop (fuel : nat) (a d : Z) : outcome (Z * Z) :=
  match fuel with
  | O => Unfinished
  | S fuel' =>
      if Z.rem d 2 =? 0 then mr_factor_loop fuel' (a + 1) (Z.quot d 2)
      else Ret (a, d)
  end.

(** [for (let j = 1; j < a; j++)] and the [return false] after it.  The
    result is [true] for [continue loop] and [false] for [return false]. *)
Fixpoint mr_square_loop (fuel : nat) (j a : Z) (z : value) (w : Z) : outcome bool :=
  match fuel with
  | O => Unfinished
  | S fuel' =>
      if j <? a then
        z <- modPow z (BigInt 2) w ;;
        if value_eqb z (BigInt (w - 1)) then Ret true
        else if value_eqb z (BigInt 1) then Ret false
        else mr_square_loop fuel' (j + 1) a z w
      else Ret false
  end.

(** [loop: do { ... } while (--iterations)] *)
Fixpoint mr_loop (fuel : nat) (iterations w a m : Z) : rand bool :=
  match fuel with
  | O => fun _ => Unfinished
  | S fuel' =>
      b <~ randBetween (w - 1) 2 ;;
      z <~ lift (modPow (BigInt b) (BigInt m) w) ;;
      again <~ lift (if value_eqb z (BigInt 1) || value_eqb z (BigInt (w - 1))
                     then Ret true
                     else mr_square_loop (S (Z.to_nat a)) 1 a z w) ;;
      if again then
        let iterations := iterations - 1 in
        if negb (iterations =? 0) then mr_loop fuel' iterations w a m
        else rret true
      else rret false
  end.

(** The Miller-Rabin part of [_isProbablyPrime]. *)
Definition millerRabin (w iterations : Z) : rand bool :=
  '(a, _) <~ lift (mr_factor_loop (S (S (Z.to_nat (Z.log2 (Z.abs (w - 1)))))) 0 (w - 1)) ;;
  let m := Z.quot (w - 1) (2 ^ a) in
  fun t => mr_loop (S (length t)) iterations w a m t.

(** [_isProbablyPrime(w, iterations)] *)
Definition _isProbablyPrime (w iterations : Z) : rand bool :=
  match prefilter w with
  | Some r => rret r
  | None => millerRabin w iterations
  end.

End Bcu.

Import Bcu.

(** ** The Paillier scheme *)

Module PublicKey.

(** The fields of an instance of [class PublicKey]. *)
Record t : Type := { n : Z; _n2 : Z; g : value }.

(** [constructor (n, g)] *)
Definition new (n : Z) (g : value) : t :=
  {| n := n; _n2 := n ^ 2; g := g |}.

(** The default draw of [encrypt]:
    [do { r = bcu.randBetween(this.n) } while (bcu.gcd(r, this.n) !== 1n)]. *)
Fixpoint encrypt_draw (fuel : nat) (this : t) : rand Z :=
  match fuel with
  | O => fun _ => Unfinished
  | S fuel' =>
      r <~ randBetween (n this) 1 ;;
      d <~ lift (gcd r (n this)) ;;
      if negb (d =? 1) then encrypt_draw fuel' this else rret r
  end.

(** [encrypt (m, r = null)]; [None] is the omitted [r].  Every round of the
    default draw reads from the tape, whose length bounds the rounds. *)
Definition encrypt (this : t) (m : Z) (r : option Z) : rand value :=
  r <~ match r with
       | None => fun t => encrypt_draw (S (length t)) this t
       | Some r => rret r
       end ;;
  lift (gm <- modPow (g this) (BigInt m) (_n2 this) ;;
        rn <- modPow (BigInt r) (BigInt (n this)) (_n2 this) ;;
        c <- js_mul gm rn ;;
        js_rem c (BigInt (_n2 this))).

(** [addition (...ciphertexts)]:
    [ciphertexts.reduce((sum, next) => sum * next % (this._n2), 1n)]. *)
Definition addition (this : t) (ciphertexts : list Z) : outcome value :=
  fold_left
    (fun sum next =>
       sum <- sum ;;
       prod <- js_mul sum (BigInt next) ;;
       js_rem prod (BigInt (_n2 this)))
    ciphertexts (Ret (BigInt 1)).

(** [multiply (c, k)] *)
Definition multiply (this : t) (c k : Z) : outcome value :=
  modPow (BigInt c) (BigInt k) (_n2 this).

(** [get bitLength ()] *)
Definition bitLength (this : t) : outcome Z := Bcu.bitLength (n this).

(** The body shared by the six [encryptOtherN*] methods:
    [(bcu.modPow(this.g, m, ng) * bcu.modPow(r, this.n, nr)) % nout],
    where each of [ng], [nr] and [nout] is [this._n2] or the argument
    [n2]. *)
Definition encrypt_moduli (this : t) (m r ng nr nout : Z) : outcome value :=
  gm <- modPow (g this) (BigInt m) ng ;;
  rn <- modPow (BigInt r) (BigInt (n this)) nr ;;
  c <- js_mul gm rn ;;
  js_rem c (BigInt nout).

(** [encryptOtherNA (m, r, n2)]: the product is reduced modulo [n2]. *)
Definition encryptOtherNA (this : t) (m r n2 : Z) : outcome value :=
  encrypt_moduli this m r (_n2 this) (_n2 this) n2.

(** [encryptOtherNB (m, r, n2)]: the power of [g] is taken modulo [n2]. *)
Definition encryptOtherNB (this : t) (m r n2 : Z) : outcome value :=
  encrypt_moduli this m r n2 (_n2 this) (_n2 this).

(** [encryptOtherNC (m, r, n2)]: the power of [r] is taken modulo [n2]. *)
Definition encryptOtherNC (this : t) (m r n2 : Z) : outcome value :=
  encrypt_moduli this m r (_n2 this) n2 (_n2 this).

(** [encryptOtherNF (m, r, n2)]: the power of [r] and the product use
    [n2]. *)
Definition encryptOtherNF (this : t) (m r n2 : Z) : outcome value :=
  encrypt_moduli this m r (_n2 this) n2 n2.

(** [encryptOtherND (m, r, n2)]: both powers are taken modulo [n2]. *)
Definition encryptOtherND (this : t) (m r n2 : Z) : outcome value :=
  encrypt_moduli this m r n2 n2 (_n2 this).

(** [encryptOtherNE (m, r, n2)]: the same body as [encryptOtherND]. *)
Definition encryptOtherNE (this : t) (m r n2 : Z) : outcome value :=
  encrypt_moduli this m r n2 n2 (_n2 this).

End PublicKey.

(** [L (a, n)] *)
Definition L (a : value) (n : Z) : outcome value :=
  d <- js_sub a (BigInt 1) ;;
  js_div d (BigInt n).

Module PrivateKey.

(** The fields of an instance of [class PrivateKey]; [None] in [_p] or
    [_q] is [null]. *)
Record t : Type := {
  lambda : Z;
  mu : value;
  _p : option Z;
  _q : option Z;
  publicKey : PublicKey.t
}.

(** [p || null]: an omitted prime and the falsy [0n] are stored as [null]. *)
Definition or_null (p : option Z) : option Z :=
  match p with
  | Some 0 => None
  | _ => p
  end.

(** [constructor (lambda, mu, publicKey, p = null, q = null)] *)
Definition new (lambda : Z) (mu : value) (publicKey : PublicKey.t)
    (p q : option Z) : t :=
  {| lambda := lambda; mu := mu; _p := or_null p; _q := or_null q;
     publicKey := publicKey |}.

(** [get bitLength ()] *)
Definition bitLength (this : t) : outcome Z :=
  Bcu.bitLength (PublicKey.n (publicKey this)).

(** [get n ()] *)
Definition n (this : t) : Z := PublicKey.n (publicKey this).

(** [decrypt (c)] *)
Definition decrypt (this : t) (c : Z) : outcome value :=
  x <- modPow (BigInt c) (BigInt (lambda this)) (PublicKey._n2 (publicKey this)) ;;
  l <- L x (PublicKey.n (publicKey this)) ;;
  lm <- js_mul l (mu this) ;;
  js_rem lm (BigInt (PublicKey.n (publicKey this))).

Definition not_simple_variant : error :=
  RangeError "Cannot recover the random factor if publicKey.g != publicKey.n + 1. You should generate yout keys using the simple variant, e.g. generateRandomKeys(3072, true) )".

(** [this._p - 1n]: with [null] on the left the operands are a number and
    a bigint. *)
Definition prime_minus_1 (p : option Z) : outcome Z :=
  match p with
  | Some p => Ret (p - 1)
  | None => Throw mixed_types
  end.

(** [getRandomFactor (c)] *)
Definition getRandomFactor (this : t) (c : Z) : outcome value :=
  if negb (value_eqb (PublicKey.g (publicKey this)) (BigInt (n this + 1)))
  then Throw not_simple_variant
  else
    m <- decrypt this c ;;
    p1 <- prime_minus_1 (_p this) ;;
    q1 <- prime_minus_1 (_q this) ;;
    let phi := p1 * q1 in
    nInvModPhi <- modInv (BigInt (n this)) phi ;;
    mn <- js_mul m (BigInt (n this)) ;;
    f <- js_sub (BigInt 1) mn ;;
    cf <- js_mul (BigInt c) f ;;
    c1 <- js_rem cf (BigInt (PublicKey._n2 (publicKey this))) ;;
    modPow c1 nInvModPhi (n this).

End PrivateKey.

(** [multiplyOtherN2 (c, k, n2)] *)
Definition multiplyOtherN2 (c k n2 : Z) : outcome value :=
  modPow (BigInt c) (BigInt k) n2.

(** The loop of [generateDualG]:
    [do { r = bcu.randBetween(n1) }
     while (bcu.gcd(r, n1) !== 1n && bcu.gcd(r, n2) !== 1n)]. *)
Fixpoint generateDualG_loop (fuel : nat) (n1 n2 : Z) : rand Z :=
  match fuel with
  | O => fun _ => Unfinished
  | S fuel' =>
      r <~ randBetween n1 1 ;;
      d1 <~ lift (gcd r n1) ;;
      again <~ (if negb (d1 =? 1)
                then (d2 <~ lift (gcd r n2) ;; rret (negb (d2 =? 1)))
                else rret false) ;;
      if again then generateDualG_loop fuel' n1 n2 else rret r
  end.

(** [generateDualG (n1, n2)] *)
Definition generateDualG (n1 n2 : Z) : rand Z :=
  fun t => generateDualG_loop (S (length t)) n1 n2 t.

(** The object [{ publicKey, privateKey }]. *)
Record KeyPair : Type := {
  publicKey : PublicKey.t;
  privateKey : PrivateKey.t
}.

(** [getGenerator (n, n2)] *)
Definition getGenerator (n n2 : Z) : rand value :=
  alpha <~ randBetween n 1 ;;
  beta <~ randBetween n 1 ;;
  lift (bn <- modPow (BigInt beta) (BigInt n) n2 ;;
        t <- js_mul (BigInt (alpha * n + 1)) bn ;;
        js_rem t (BigInt n2)).

(** [keysFromPrimesSimple (p, q)] *)
Definition keysFromPrimesSimple (p q : Z) : outcome KeyPair :=
  let n := p * q in
  let g := n + 1 in
  let lambda := (p - 1) * (q - 1) in
  mu <- modInv (BigInt lambda) n ;;
  let publicKey := PublicKey.new n (BigInt g) in
  let privateKey := PrivateKey.new lambda mu publicKey (Some p) (Some q) in
  Ret {| publicKey := publicKey; privateKey := privateKey |}.

(** [keysFromPrimes (p, q, g)]; [g || getGenerator(n, n2)] draws a generator
    when [g] is omitted ([None]) or is the falsy [0n]. *)
Definition keysFromPrimes (p q : Z) (g : option Z) : rand KeyPair :=
  let n := p * q in
  let n2 := n ^ 2 in
  g <~ match g with
       | Some 0 | None => getGenerator n n2
       | Some g => rret (BigInt g)
       end ;;
  lift (lambda <- lcm (p - 1) (q - 1) ;;
        x <- modPow g (BigInt lambda) n2 ;;
        l <- L x n ;;
        mu <- modInv l n ;;
        let publicKey := PublicKey.new n g in
        let privateKey := PrivateKey.new lambda mu publicKey (Some p) (Some q) in
        Ret {| publicKey := publicKey; privateKey := privateKey |}).

(** ** The key pairs and ciphertexts that the properties are about *)

(** A simple-variant key pair: what [keysFromPrimesSimple] returns on two
    distinct primes when the inverse [mu] exists. *)
Definition simple_keypair (p q : Z) (kp : KeyPair) : Prop :=
  Z.prime p /\ Z.prime q /\ p <> q /\
  keysFromPrimesSimple p q = Ret kp /\
  PrivateKey.mu (privateKey kp) <> NaN.

(** A general-variant key pair: what [keysFromPrimes] returns on two
    distinct primes when the generator, given or drawn, is a unit modulo
    [n] and the inverse [mu] exists. *)
Definition general_keypair (p q : Z) (kp : KeyPair) : Prop :=
  Z.prime p /\ Z.prime q /\ p <> q /\
  (exists g tape tape', keysFromPrimes p q g tape = Ret (kp, tape')) /\
  (exists gz, PublicKey.g (publicKey kp) = BigInt gz /\ Z.gcd gz (p * q) = 1) /\
  PrivateKey.mu (privateKey kp) <> NaN.

Definition valid_keypair (kp : KeyPair) : Prop :=
  exists p q, simple_keypair p q kp \/ general_keypair p q kp.

(** [c] is an encryption of [m]: [encrypt] returned it, with a given [r]
    coprime to [n] or with the default draw. *)
Definition is_encryption (pk : PublicKey.t) (m c : Z) : Prop :=
  exists r tape tape',
    PublicKey.encrypt pk m r tape = Ret (BigInt c, tape') /\
    (forall r0, r = Some r0 -> Z.gcd r0 (PublicKey.n pk) = 1).

(** What the correctness of decryption needs from a private key, with
    [gz] and [muz] the bigints in [g] and [mu]. *)
Record key_ok (sk : PrivateKey.t) (gz muz : Z) : Prop := {
  ok_n2 : PublicKey._n2 (PrivateKey.publicKey sk) = PrivateKey.n sk ^ 2;
  ok_g : PublicKey.g (PrivateKey.publicKey sk) = BigInt gz;
  ok_mu : PrivateKey.mu sk = BigInt muz;
  ok_n : 1 < PrivateKey.n sk;
  ok_lambda : 0 <= PrivateKey.lambda sk;
  ok_units : forall x, Z.gcd x (PrivateKey.n sk) = 1 ->
             x ^ PrivateKey.lambda sk mod PrivateKey.n sk = 1;
  ok_g_unit : Z.gcd gz (PrivateKey.n sk) = 1;
  ok_mu_range : 0 <= muz < PrivateKey.n sk;
  ok_mu_inv :
    ((gz ^ PrivateKey.lambda sk mod PrivateKey.n sk ^ 2 - 1) / PrivateKey.n sk
     * muz) mod PrivateKey.n sk = 1
}.

(** [L(g^lambda mod n^2)], the number that [mu] inverts, for the private
    key [sk] and the bigint [gz] in [g]. *)
Definition Lg (sk : PrivateKey.t) (gz : Z) : Z :=
  (gz ^ PrivateKey.lambda sk mod PrivateKey.n sk ^ 2 - 1) / PrivateKey.n sk.

(** [c] is in the class of the plaintext [M]: raising [c] to [lambda]
    gives [1 + n (M Lg)] modulo [n^2]. *)
Definition class (sk : PrivateKey.t) (gz c M : Z) : Prop :=
  c ^ PrivateKey.lambda sk mod PrivateKey.n sk ^ 2 =
  (1 + PrivateKey.n sk * (M * Lg sk gz)) mod PrivateKey.n sk ^ 2.

(** The key pair of the small scenario: [p = 11], [q = 13], simple
    variant. *)
Definition kp_11_13 : KeyPair :=
  let pk := PublicKey.new 143 (BigInt 144) in
  {| publicKey := pk;
     privateKey := PrivateKey.new 120 (BigInt 87) pk (Some 11) (Some 13) |}.

(** The key pair of the second small scenario: [p = 17], [q = 19], simple
    variant. *)
Definition kp_17_19 : KeyPair :=
  let pk := PublicKey.new 323 (BigInt 324) in
  {| publicKey := pk;
     privateKey := PrivateKey.new 288 (BigInt 203) pk (Some 17) (Some 19) |}.

(** A general-variant key pair for [p = 11], [q = 13], with the generator
    [2]: [lambda = lcm(10, 12)]. *)
Definition kp_11_13_g2 : KeyPair :=
  let pk := PublicKey.new 143 (BigInt 2) in
  {| publicKey := pk;
     privateKey := PrivateKey.new 60 (BigInt 25) pk (Some 11) (Some 13) |}.

(** The private key of [kp_11_13], stored without its primes. *)
Definition sk_without_primes : PrivateKey.t :=
  PrivateKey.new 120 (BigInt 87) (PublicKey.new 143 (BigInt 144)) None None.

(** A private key for [p = 11], [q = 13] whose generator [145] is not
    [n + 1]. *)
Definition sk_generator_145 : PrivateKey.t :=
  PrivateKey.new 60 (BigInt 31) (PublicKey.new 143 (BigInt 145))
    (Some 11) (Some 13).

(** The error of the kind "invalid state": the error that
    [getRandomFactor] throws for a key that it cannot use. *)
Definition InvalidState (e : error) : Prop :=
  e = PrivateKey.not_simple_variant.

(** The bytes of a buffer are not negative. *)
Definition nonneg_bytes (buf : list Z) : Prop := Forall (fun x => 0 <= x) buf.

(** The list is strictly increasing, from above [lo]. *)
Fixpoint increasing (lo : Z) (ps : list Z) : bool :=
  match ps with
  | [] => true
  | x :: rest => (lo <? x) && increasing x rest
  end.

(** Trial division, to decide [Z.prime] on concrete numbers. *)
Definition prime_check (p : Z) : bool :=
  (1 <? p) &&
  forallb (fun d => negb (p mod Z.of_nat d =? 0)) (seq 2 (Z.to_nat p - 2)).

(** * Properties *)

(** ** Runs of the code on small inputs *)

Example gcd_12_18 : gcd 12 18 = Ret 6.
Proof. reflexivity. Qed.

Example gcd_minus_4_6 : gcd (-4) 6 = Ret 2.
Proof. reflexivity. Qed.

Example lcm_10_12 : lcm 10 12 = Ret 60.
Proof. reflexivity. Qed.

Example eGcd_120_143 :
  eGcd (BigInt 120) (BigInt 143) = Ret (Some {| eg_b := 1; eg_x := -56; eg_y := 47 |}).
Proof. reflexivity. Qed.

Example modInv_120_143 : modInv (BigInt 120) 143 = Ret (BigInt 87).
Proof. reflexivity. Qed.

Example modInv_no_inverse : modInv (BigInt 12) 21 = Ret NaN.
Proof. reflexivity. Qed.

Example modPow_144_7 : modPow (BigInt 144) (BigInt 7) 20449 = Ret (BigInt 1002).
Proof. reflexivity. Qed.

Example modPow_negative_exponent : modPow (BigInt 3) (BigInt (-1)) 7 = Ret (BigInt 5).
Proof. reflexivity. Qed.

Example modPow_negative_modulus :
  modPow (BigInt 3) (BigInt 2) (-7) = Throw mixed_types.
Proof. reflexivity. Qed.

Example bitLength_14 : bitLength 14 = Ret 4.
Proof. reflexivity. Qed.

Example randBetween_15 : randBetween 15 1 [Byte.xf4] = Ret (5, []).
Proof. reflexivity. Qed.

Example randBetween_rejects : randBetween 15 1 [Byte.x0f; Byte.x0e] = Ret (15, []).
Proof. reflexivity. Qed.

Example isProbablyPrime_1601 :
  _isProbablyPrime 1601 16 (repeat Byte.x05 32) = Ret (true, []).
Proof. vm_compute. reflexivity. Qed.

Example isProbablyPrime_1601_1607 :
  exists rest, _isProbablyPrime (1601 * 1607) 16 (repeat Byte.x05 32) = Ret (false, rest).
Proof. eexists. vm_compute. reflexivity. Qed.

Example keysFromPrimesSimple_11_13 : keysFromPrimesSimple 11 13 = Ret kp_11_13.
Proof. reflexivity. Qed.

Example keysFromPrimesSimple_17_19 : keysFromPrimesSimple 17 19 = Ret kp_17_19.
Proof. reflexivity. Qed.

Example keysFromPrimesSimple_3_7 :
  exists kp, keysFromPrimesSimple 3 7 = Ret kp /\ PrivateKey.mu (privateKey kp) = NaN.
Proof. eexists. split; reflexivity. Qed.

Example keysFromPrimes_11_13 :
  exists kp, keysFromPrimes 11 13 (Some 144) [] = Ret (kp, []) /\
             PrivateKey.lambda (privateKey kp) = 60 /\
             PrivateKey.mu (privateKey kp) = BigInt 31.
Proof. eexists. repeat split; reflexivity. Qed.

(** ** Completions *)

Lemma bind_Ret {A B : Type} (c : outcome A) (k : A -> outcome B) (b : B) :
  bind c k = Ret b -> exists a, c = Ret a /\ k a = Ret b.
Proof. destruct c as [a| |]; simpl; intros H; try discriminate; eauto. Qed.

Lemma rbind_Ret {A B : Type} (c : rand A) (k : A -> rand B) t b t' :
  rbind c k t = Ret (b, t') ->
  exists a t1, c t = Ret (a, t1) /\ k a t1 = Ret (b, t').
Proof.
  unfold rbind. destruct (c t) as [[a t1]| |]; intros H; try discriminate; eauto.
Qed.

Lemma lift_Ret {A : Type} (c : outcome A) t a t' :
  lift c t = Ret (a, t') -> c = Ret a /\ t' = t.
Proof.
  unfold lift. destruct c; simpl; intros H; inversion H; auto.
Qed.

(** ** Arithmetic helpers of bigint-crypto-utils *)

Lemma abs_spec a : abs a = Z.abs a.
Proof. unfold abs. destruct (Z.geb_spec a 0); lia. Qed.

Lemma rem_to_mod a n : 0 < n ->
  (if Z.rem a n <? 0 then Z.rem a n + n else Z.rem a n) = a mod n.
Proof.
  intros Hn.
  pose proof (Z.quot_rem' a n) as E.
  pose proof (Z.rem_bound_abs a n ltac:(lia)) as B.
  destruct (Z.ltb_spec (Z.rem a n) 0) as [Hneg|Hpos].
  - apply (Z.mod_unique_pos _ _ (Z.quot a n - 1)); lia.
  - apply (Z.mod_unique_pos _ _ (Z.quot a n)); lia.
Qed.

Lemma toZn_spec a n : 0 < n -> toZn (BigInt a) n = Ret (BigInt (a mod n)).
Proof.
  intros Hn. unfold toZn. destruct (Z.leb_spec n 0); [lia|].
  simpl. now rewrite rem_to_mod.
Qed.

Lemma toZn_nonpos a n : n <= 0 -> toZn a n = Ret NaN.
Proof. intros Hn. unfold toZn. destruct (Z.leb_spec n 0); [reflexivity|lia]. Qed.

(** *** [modPow] *)

Lemma half_log2 b : 0 < b -> 0 < b / 2 -> Z.log2 (b / 2) + 1 <= Z.log2 b.
Proof.
  intros Hb Hh.
  pose proof (Z.log2_double (b / 2) Hh) as D.
  pose proof (Z.log2_le_mono (2 * (b / 2)) b) as M.
  pose proof (Z.mul_div_le b 2). lia.
Qed.

Lemma modPow_loop_spec fuel : forall b result x n,
  0 < n -> 0 <= b -> 0 <= result -> 0 <= x ->
  (0 < b -> Z.log2 b + 1 < Z.of_nat fuel) -> (0 < fuel)%nat ->
  modPow_loop fuel (BigInt result) (BigInt x) b n =
  Ret (BigInt (if b =? 0 then result else (result * x ^ b) mod n)).
Proof.
  induction fuel as [|fuel IH]; intros b result x n Hn Hb Hr Hx Hfuel Hf.
  - lia.
  - cbn [modPow_loop].
    destruct (Z.gtb_spec b 0) as [Hpos|Hzero].
    2:{ replace b with 0 by lia. reflexivity. }
    rewrite Z.rem_mod_nonneg, Z.quot_div_nonneg by lia.
    pose proof (Z.div_mod b 2 ltac:(lia)) as Eb.
    pose proof (Z.mod_pos_bound b 2 ltac:(lia)) as Bb.
    assert (Hn0 : (n =? 0) = false) by (apply Z.eqb_neq; lia).
    assert (Hb0 : (b =? 0) = false) by (apply Z.eqb_neq; lia).
    assert (Hstep : forall r, 0 <= r ->
              modPow_loop fuel (BigInt r) (BigInt (Z.rem (x * x) n)) (b / 2) n =
              Ret (BigInt (if b / 2 =? 0 then r
                           else (r * (x * x) ^ (b / 2)) mod n))).
    { intros r Hr'. rewrite Z.rem_mod_nonneg by nia.
      assert (H1 : 0 <= b / 2) by (apply Z.div_pos; lia).
      assert (H2 : 0 <= (x * x) mod n) by (apply Z.mod_pos_bound; lia).
      assert (H3 : 0 < b / 2 -> Z.log2 (b / 2) + 1 < Z.of_nat fuel).
      { intros Hh. pose proof (half_log2 b Hpos Hh). lia. }
      assert (H4 : (0 < fuel)%nat).
      { pose proof (Z.log2_nonneg b). lia. }
      rewrite (IH (b / 2) r ((x * x) mod n) n Hn H1 Hr' H2 H3 H4).
      destruct (Z.eqb_spec (b / 2) 0); [reflexivity|].
      do 2 f_equal.
      rewrite <- Z.mul_mod_idemp_r, Z.mod_pow_l, Z.mul_mod_idemp_r by lia.
      reflexivity. }
    rewrite Hb0.
    assert (Hpow : x ^ b = (x * x) ^ (b / 2) * x ^ (b mod 2)).
    { rewrite Eb at 1. rewrite Z.pow_add_r, Z.pow_mul_r by (try apply Z.div_pos; lia).
      now rewrite Z.pow_2_r. }
    destruct (Z.eqb_spec (b mod 2) 1) as [Hodd|Heven]; cbn [bind js_mul js_rem];
      rewrite ?Hn0; cbn [bind].
    + rewrite Hstep by (apply Z.rem_nonneg; nia).
      rewrite Z.rem_mod_nonneg by nia.
      rewrite Hpow, Hodd, Z.pow_1_r.
      destruct (Z.eqb_spec (b / 2) 0) as [E|E].
      * now rewrite E, Z.pow_0_r, Z.mul_1_l.
      * do 2 f_equal. rewrite Z.mul_mod_idemp_l by lia. f_equal. ring.
    + rewrite Hstep by lia.
      assert (b mod 2 = 0) as E0 by lia.
      assert (b / 2 <> 0) by lia.
      destruct (Z.eqb_spec (b / 2) 0); [lia|].
      rewrite Hpow, E0, Z.pow_0_r, Z.mul_1_r. reflexivity.
Qed.

Lemma modPow_fuel_enough b : Z.log2 b + 1 < Z.of_nat (modPow_fuel b).
Proof. unfold modPow_fuel. pose proof (Z.log2_nonneg b). lia. Qed.

Lemma modPow_fuel_pos b : (0 < modPow_fuel b)%nat.
Proof. unfold modPow_fuel. lia. Qed.

Lemma modPow_nonneg_spec a b n : 0 < n -> 0 <= b ->
  modPow_nonneg (BigInt a) b n =
  Ret (BigInt (if b =? 0 then 1 else a ^ b mod n)).
Proof.
  intros Hn Hb. unfold modPow_nonneg.
  destruct (Z.eqb_spec n 0); [lia|].
  rewrite toZn_spec by assumption. cbn [bind].
  rewrite modPow_loop_spec; try lia.
  - destruct (Z.eqb_spec b 0); [reflexivity|].
    now rewrite Z.mul_1_l, Z.mod_pow_l.
  - apply Z.mod_pos_bound; lia.
  - intros _. apply modPow_fuel_enough.
  - apply modPow_fuel_pos.
Qed.

(** For a positive modulus and an exponent [b >= 0], [modPow] ends
    normally; the result is [a^b mod n] unless [b = 0], where it is [1]
    whatever [n] is. *)
Lemma modPow_spec a b n : 0 < n -> 0 <= b ->
  modPow (BigInt a) (BigInt b) n =
  Ret (BigInt (if b =? 0 then 1 else a ^ b mod n)).
Proof.
  intros Hn Hb. unfold modPow.
  destruct (Z.eqb_spec n 0); [lia|].
  rewrite toZn_spec by assumption. cbn [bind to_BigInt].
  destruct (Z.ltb_spec b 0); [lia|].
  rewrite modPow_loop_spec; try lia.
  - destruct (Z.eqb_spec b 0); [reflexivity|].
    now rewrite Z.mul_1_l, Z.mod_pow_l.
  - apply Z.mod_pos_bound; lia.
  - intros _. apply modPow_fuel_enough.
  - apply modPow_fuel_pos.
Qed.

Lemma modPow_pow a b n : 1 < n -> 0 <= b ->
  modPow (BigInt a) (BigInt b) n = Ret (BigInt (a ^ b mod n)).
Proof.
  intros Hn Hb. rewrite modPow_spec by lia.
  destruct (Z.eqb_spec b 0) as [->|]; [|reflexivity].
  now rewrite Z.pow_0_r, Z.mod_1_l.
Qed.

(** For a negative exponent, [modPow] is [modInv] of the power with the
    exponent negated. *)
Lemma modPow_neg a b n : 0 < n -> b < 0 ->
  modPow (BigInt a) (BigInt b) n = modInv (BigInt (a ^ (- b) mod n)) n.
Proof.
  intros Hn Hb. unfold modPow.
  destruct (Z.eqb_spec n 0); [lia|].
  rewrite toZn_spec by assumption. cbn [bind to_BigInt].
  destruct (Z.ltb_spec b 0); [|lia].
  rewrite abs_spec, modPow_nonneg_spec by lia.
  destruct (Z.eqb_spec (Z.abs b) 0); [lia|].
  cbn [bind]. rewrite Z.mod_pow_l. now replace (Z.abs b) with (- b) by lia.
Qed.

Lemma modPow_zero_modulus a b : modPow a b 0 = Ret NaN.
Proof. reflexivity. Qed.

(** *** [eGcd] and [modInv] *)

Lemma log2_half_lt r b : 0 < r -> 2 * r <= b -> Z.log2 r + 1 <= Z.log2 b.
Proof.
  intros Hr Hb.
  pose proof (Z.log2_double r Hr).
  pose proof (Z.log2_le_mono (2 * r) b Hb). lia.
Qed.

Lemma eGcd_loop_spec a0 b0 fuel : forall a b x y u v,
  0 <= a -> 0 < b ->
  a = u * a0 + v * b0 -> b = x * a0 + y * b0 ->
  (0 < a ->
   Z.log2 a + Z.log2 b + (if b <? a then 1 else 0) + 1 < Z.of_nat fuel) ->
  (0 < fuel)%nat ->
  exists e, eGcd_loop fuel a b x y u v = Ret e /\
            eg_b e = Z.gcd a b /\ eg_b e = eg_x e * a0 + eg_y e * b0.
Proof.
  induction fuel as [|fuel IH]; intros a b x y u v Ha Hb Ea Eb Hfuel Hf; [lia|].
  cbn [eGcd_loop].
  destruct (Z.eqb_spec a 0) as [->|Hnz]; cbn [negb].
  - eexists. split; [reflexivity|]. cbn [eg_b eg_x eg_y].
    rewrite Z.gcd_0_l. split; [lia|assumption].
  - assert (Hpos : 0 < a) by lia. specialize (Hfuel Hpos).
    rewrite Z.rem_mod_nonneg, Z.quot_div_nonneg by lia.
    pose proof (Z.mod_pos_bound b a Hpos) as Br.
    pose proof (Z.div_mod b a Hnz) as Ediv.
    pose proof (Z.log2_nonneg a). pose proof (Z.log2_nonneg b).
    assert (Hnext : 0 < b mod a ->
              Z.log2 (b mod a) + Z.log2 a + (if a <? b mod a then 1 else 0) + 1
              < Z.of_nat fuel).
    { intros Hr.
      destruct (Z.ltb_spec a (b mod a)); [lia|].
      destruct (Z.ltb_spec b a) as [Hlt|Hge].
      - rewrite Z.mod_small by lia. lia.
      - assert (1 <= b / a) by (apply Z.div_le_lower_bound; lia).
        assert (2 * (b mod a) <= b) by nia.
        pose proof (log2_half_lt (b mod a) b Hr). lia. }
    destruct (IH (b mod a) a u v (x - u * (b / a)) (y - v * (b / a)))
      as (e & He & Hg & Hl); try lia; try assumption.
    { destruct (b <? a); lia. }
    exists e. split; [assumption|]. split; [|assumption].
    rewrite Hg. apply Z.gcd_mod. assumption.
Qed.

Lemma eGcd_spec a b : 0 < a -> 0 < b ->
  exists e, eGcd (BigInt a) (BigInt b) = Ret (Some e) /\
            eg_b e = Z.gcd a b /\ eg_b e = eg_x e * a + eg_y e * b.
Proof.
  intros Ha Hb. unfold eGcd. cbn [to_BigInt bind].
  destruct (Z.leb_spec a 0); [lia|]. destruct (Z.leb_spec b 0); [lia|].
  cbn [orb].
  destruct (eGcd_loop_spec a b (eGcd_fuel a b) a b 0 1 1 0) as (e & He & Hg & Hl);
    try lia.
  - intros _. unfold eGcd_fuel.
    pose proof (Z.log2_nonneg a). pose proof (Z.log2_nonneg b).
    destruct (b <? a); lia.
  - unfold eGcd_fuel. lia.
  - exists e. rewrite He. auto.
Qed.

Lemma eGcd_nonpos a b : a <= 0 \/ b <= 0 -> eGcd (BigInt a) (BigInt b) = Ret None.
Proof.
  intros H. unfold eGcd. cbn [to_BigInt bind].
  destruct (Z.leb_spec a 0); destruct (Z.leb_spec b 0); cbn [orb]; try reflexivity; lia.
Qed.

(** [modInv] returns the inverse in [[0, n)] when there is one. *)
Lemma modInv_coprime a n : 0 < n -> a mod n <> 0 -> Z.gcd a n = 1 ->
  exists x, modInv (BigInt a) n = Ret (BigInt x) /\
            0 <= x < n /\ (a * x) mod n = 1.
Proof.
  intros Hn Ha Hg. unfold modInv. cbn [value_eqb].
  destruct (Z.eqb_spec a 0) as [->|Hnz]; [now rewrite Z.mod_0_l in Ha by lia|].
  destruct (Z.leb_spec n 0); [lia|]. cbn [orb].
  rewrite toZn_spec by assumption. cbn [bind].
  pose proof (Z.mod_pos_bound a n Hn) as Ba.
  destruct (eGcd_spec (a mod n) n) as (e & He & Hb & Hl); try lia.
  rewrite He. cbn [bind].
  assert (Hb1 : eg_b e = 1) by (rewrite Hb, Z.gcd_mod, Z.gcd_comm by lia; assumption).
  rewrite Hb1. cbn [Z.eqb negb Pos.eqb].
  rewrite toZn_spec by assumption.
  exists (eg_x e mod n). split; [reflexivity|]. split; [apply Z.mod_pos_bound; lia|].
  rewrite Z.mul_mod_idemp_r by lia.
  rewrite <- Z.mul_mod_idemp_l by lia.
  replace (a mod n * eg_x e) with (1 + (- eg_y e) * n) by lia.
  rewrite Z.mod_add by lia. apply Z.mod_1_l. lia.
Qed.

(** [modInv] returns [NaN] in every other case. *)
Lemma modInv_none a n : n <= 0 \/ a mod n = 0 \/ Z.gcd a n <> 1 ->
  modInv (BigInt a) n = Ret NaN.
Proof.
  intros H. unfold modInv. cbn [value_eqb].
  destruct (Z.eqb_spec a 0) as [->|Hnz]; [reflexivity|].
  destruct (Z.leb_spec n 0) as [|Hn]; [reflexivity|]. cbn [orb].
  rewrite toZn_spec by assumption. cbn [bind].
  pose proof (Z.mod_pos_bound a n Hn) as Ba.
  destruct (Z.eq_dec (a mod n) 0) as [E0|E0].
  - rewrite E0, eGcd_nonpos by lia. reflexivity.
  - destruct (eGcd_spec (a mod n) n) as (e & He & Hb & Hl); try lia.
    rewrite He. cbn [bind].
    rewrite Z.gcd_mod, Z.gcd_comm in Hb by lia.
    destruct (Z.eqb_spec (eg_b e) 1); [lia|]. reflexivity.
Qed.

(** *** [gcd] *)

Lemma land_1 a : Z.land a 1 = a mod 2.
Proof. change 1 with (Z.ones 1) at 1. now rewrite Z.land_ones by lia. Qed.

Lemma mod2_cases a : a mod 2 = 0 \/ a mod 2 = 1.
Proof. pose proof (Z.mod_pos_bound a 2). lia. Qed.

Lemma lor_land_1 a b :
  Z.land (Z.lor a b) 1 = 0 <-> a mod 2 = 0 /\ b mod 2 = 0.
Proof.
  rewrite Z.land_lor_distr_l, !land_1.
  destruct (mod2_cases a) as [-> | ->], (mod2_cases b) as [-> | ->];
    cbn; split; intros; try lia; intuition discriminate.
Qed.

Lemma shiftr_1 a : Z.shiftr a 1 = a / 2.
Proof. now rewrite Z.shiftr_div_pow2 by lia. Qed.

Lemma odd_divisor c d : c mod 2 = 1 -> (d | c) -> Z.gcd d 2 = 1.
Proof.
  intros Hc Hd.
  pose proof (Z.gcd_nonneg d 2) as Hn.
  pose proof (Z.gcd_divide_l d 2) as Hl.
  pose proof (Z.gcd_divide_r d 2) as Hr.
  assert (Z.gcd d 2 <= 2) by (apply Z.divide_pos_le; [lia|assumption]).
  assert (Z.gcd d 2 <> 0) by (intros E; rewrite E in Hr; destruct Hr; lia).
  assert (Z.gcd d 2 <> 2).
  { intros E. rewrite E in Hl.
    assert (H2 : (2 | c)) by (eapply Z.divide_trans; eassumption).
    apply Z.mod_divide in H2; lia. }
  lia.
Qed.

Lemma gcd_odd_double c k : c mod 2 = 1 -> Z.gcd c (2 * k) = Z.gcd c k.
Proof.
  intros Hc.
  apply Z.divide_antisym_nonneg; try apply Z.gcd_nonneg.
  - apply Z.gcd_greatest; [apply Z.gcd_divide_l|].
    apply (Z.gauss _ 2).
    + apply Z.gcd_divide_r.
    + apply (odd_divisor c); [assumption|apply Z.gcd_divide_l].
  - apply Z.gcd_greatest; [apply Z.gcd_divide_l|].
    apply Z.divide_mul_r, Z.gcd_divide_r.
Qed.

Lemma even_half a : a mod 2 = 0 -> a = 2 * (a / 2).
Proof. intros H. pose proof (Z.div_mod a 2). lia. Qed.

Lemma gcd_odd_loop_spec fuel : forall a,
  0 < a -> Z.log2 a < Z.of_nat fuel ->
  exists a', gcd_odd_loop fuel a = Ret a' /\
    a' mod 2 = 1 /\ 0 < a' <= a /\
    (a mod 2 = 1 -> a' = a) /\ (a mod 2 = 0 -> 2 * a' <= a) /\
    (forall c, c mod 2 = 1 -> Z.gcd c a' = Z.gcd c a).
Proof.
  induction fuel as [|fuel IH]; intros a Ha Hfuel.
  - pose proof (Z.log2_nonneg a). lia.
  - cbn [gcd_odd_loop]. rewrite land_1, shiftr_1.
    destruct (Z.eqb_spec (a mod 2) 0) as [Heven|Hodd].
    + pose proof (even_half a Heven) as E.
      assert (Hh : 0 < a / 2) by lia.
      pose proof (log2_half_lt (a / 2) a Hh ltac:(lia)).
      destruct (IH (a / 2) Hh ltac:(lia)) as (a' & He & Ho & Hb & _ & _ & Hg).
      exists a'. repeat split; try assumption; try lia.
      intros c Hc. rewrite (Hg c Hc). rewrite E at 2.
      symmetry. now apply gcd_odd_double.
    + destruct (mod2_cases a); [lia|].
      exists a. repeat split; try assumption; try lia.
Qed.

Lemma gcd_shift_loop_spec fuel : forall a b shift,
  0 < a -> 0 < b -> 0 <= shift -> Z.log2 a < Z.of_nat fuel ->
  exists a' b' shift', gcd_shift_loop fuel a b shift = Ret (a', b', shift') /\
    0 < a' <= a /\ 0 < b' <= b /\ 0 <= shift' /\
    (a' mod 2 = 1 \/ b' mod 2 = 1) /\
    Z.gcd a b * 2 ^ shift = Z.gcd a' b' * 2 ^ shift'.
Proof.
  induction fuel as [|fuel IH]; intros a b shift Ha Hb Hs Hfuel.
  - pose proof (Z.log2_nonneg a). lia.
  - cbn [gcd_shift_loop]. rewrite !shiftr_1.
    destruct (Z.eqb_spec (Z.land (Z.lor a b) 1) 0) as [Heven|Hodd].
    + apply lor_land_1 in Heven. destruct Heven as [Ea Eb].
      pose proof (even_half a Ea) as Ea'. pose proof (even_half b Eb) as Eb'.
      assert (Hha : 0 < a / 2) by lia. assert (Hhb : 0 < b / 2) by lia.
      pose proof (log2_half_lt (a / 2) a Hha ltac:(lia)).
      destruct (IH (a / 2) (b / 2) (shift + 1) Hha Hhb ltac:(lia) ltac:(lia))
        as (a' & b' & s' & He & Ba & Bb & Bs & Ho & Hg).
      exists a', b', s'. repeat split; try assumption; try lia.
      rewrite <- Hg. rewrite Ea' at 1. rewrite Eb' at 1.
      rewrite Z.gcd_mul_mono_l_nonneg, Z.pow_add_r, Z.pow_1_r by lia. ring.
    + exists a, b, shift. repeat split; try assumption; try lia.
      destruct (mod2_cases a) as [Ea|Ea]; [|now left].
      destruct (mod2_cases b) as [Eb|Eb]; [|now right].
      exfalso. apply Hodd. apply lor_land_1. auto.
Qed.

Lemma gcd_main_loop_spec inner fuel : forall a b,
  0 < a -> 0 < b -> a mod 2 = 1 ->
  Z.log2 a < Z.of_nat inner -> Z.log2 b < Z.of_nat inner ->
  Z.log2 a + Z.log2 b + (if b mod 2 =? 1 then 1 else 0) < Z.of_nat fuel ->
  gcd_main_loop fuel inner a b = Ret (Z.gcd a b).
Proof.
  induction fuel as [|fuel IH]; intros a b Ha Hb Hodd Hia Hib Hfuel.
  - pose proof (Z.log2_nonneg a). pose proof (Z.log2_nonneg b).
    destruct (b mod 2 =? 1); lia.
  - cbn [gcd_main_loop].
    destruct (gcd_odd_loop_spec inner b Hb Hib) as (b' & He & Ho & Bb & Hsame & Hhalf & Hg).
    rewrite He. cbn [bind].
    rewrite <- (Hg a Hodd).
    assert (Hlog : Z.log2 b' + (if b mod 2 =? 1 then 0 else 1) <= Z.log2 b).
    { destruct (Z.eqb_spec (b mod 2) 1) as [E|E].
      - rewrite (Hsame E). lia.
      - destruct (mod2_cases b); [|lia].
        pose proof (log2_half_lt b' b ltac:(lia) ltac:(auto)). lia. }
    assert (Hstep : forall lo hi, 0 < lo -> lo <= hi -> lo mod 2 = 1 -> hi mod 2 = 1 ->
              Z.log2 lo + Z.log2 hi < Z.of_nat fuel ->
              Z.log2 lo < Z.of_nat inner -> Z.log2 hi < Z.of_nat inner ->
              (if negb (hi - lo =? 0) then gcd_main_loop fuel inner lo (hi - lo)
               else Ret lo) = Ret (Z.gcd lo hi)).
    { intros lo hi Hlo Hle Olo Ohi Hf Hil Hih.
      destruct (Z.eqb_spec (hi - lo) 0) as [E|E]; cbn [negb].
      - replace hi with lo by lia. now rewrite Z.gcd_diag, Z.abs_eq by lia.
      - rewrite <- (Z.gcd_sub_diag_r lo hi).
        assert (Hev : (hi - lo) mod 2 = 0).
        { rewrite Zminus_mod, Olo, Ohi. reflexivity. }
        pose proof (Z.log2_le_mono (hi - lo) hi ltac:(lia)).
        apply IH; try lia. rewrite Hev. cbn. lia. }
    destruct (Z.gtb_spec a b') as [Hgt|Hle].
    + rewrite Hstep; try lia.
      * now rewrite Z.gcd_comm.
      * destruct (b mod 2 =? 1); lia.
      * pose proof (Z.log2_le_mono b' b ltac:(lia)). lia.
    + rewrite Hstep; try lia.
      * reflexivity.
      * destruct (b mod 2 =? 1); lia.
      * pose proof (Z.log2_le_mono b' b ltac:(lia)). lia.
Qed.

(** [gcd] ends normally on all integers and computes the greatest common
    divisor. *)
Lemma gcd_spec a b : gcd a b = Ret (Z.gcd a b).
Proof.
  unfold gcd. rewrite !abs_spec.
  rewrite <- (Z.gcd_abs_l a), <- (Z.gcd_abs_r (Z.abs a) b).
  pose proof (Z.abs_nonneg a) as Ha. pose proof (Z.abs_nonneg b) as Hb.
  generalize dependent (Z.abs b). generalize dependent (Z.abs a).
  clear a b. intros a Ha b Hb.
  destruct (Z.eqb_spec a 0) as [->|Hna]; [now rewrite Z.gcd_0_l, Z.abs_eq|].
  destruct (Z.eqb_spec b 0) as [->|Hnb]; [now rewrite Z.gcd_0_r, Z.abs_eq|].
  pose proof (Z.log2_nonneg a). pose proof (Z.log2_nonneg b).
  destruct (gcd_shift_loop_spec (gcd_fuel a b) a b 0)
    as (a1 & b1 & s & He & Ba & Bb & Bs & Ho & Hg); try lia.
  { unfold gcd_fuel. lia. }
  rewrite He. cbn [bind].
  pose proof (Z.log2_le_mono a1 a ltac:(lia)).
  pose proof (Z.log2_le_mono b1 b ltac:(lia)).
  destruct (gcd_odd_loop_spec (gcd_fuel a b) a1) as (a2 & He2 & Ho2 & Ba2 & Hsame & _ & Hg2);
    try lia.
  { unfold gcd_fuel. lia. }
  rewrite He2. cbn [bind].
  pose proof (Z.log2_le_mono a2 a1 ltac:(lia)).
  rewrite gcd_main_loop_spec; try lia; try (unfold gcd_fuel; lia).
  - cbn [bind]. rewrite Z.shiftl_mul_pow2 by lia. f_equal.
    rewrite Z.pow_0_r, Z.mul_1_r in Hg. rewrite Hg. f_equal.
    destruct Ho as [Oa|Ob].
    + now rewrite (Hsame Oa).
    + rewrite (Z.gcd_comm a2), (Z.gcd_comm a1). now apply Hg2.
  - unfold gcd_fuel. destruct (b1 mod 2 =? 1); lia.
Qed.

(** [lcm] ends normally and computes the least common multiple. *)
Lemma lcm_spec a b : lcm a b = Ret (Z.lcm a b).
Proof.
  unfold lcm.
  destruct ((a =? 0) && (b =? 0)) eqn:E.
  - apply andb_true_iff in E. destruct E as [Ea Eb].
    apply Z.eqb_eq in Ea, Eb. subst. reflexivity.
  - assert (Hg : Z.gcd a b <> 0).
    { intros G. apply Z.gcd_eq_0 in G. destruct G as [-> ->]. discriminate. }
    clear E. rewrite gcd_spec. cbn [bind].
    destruct (Z.eqb_spec (Z.gcd a b) 0); [lia|].
    pose proof (Z.gcd_nonneg a b).
    rewrite abs_spec, Z.quot_div_nonneg by lia.
    unfold Z.lcm. do 2 f_equal.
    destruct (Z.gcd_divide_r a b) as [k Hk].
    remember (Z.gcd a b) as d eqn:Ed. clear Ed.
    subst b. rewrite Z.div_mul by assumption.
    rewrite Z.mul_assoc, Z.abs_mul, (Z.abs_eq d) by lia.
    now rewrite Z.div_mul.
Qed.

(** [bitLength] ends normally: a positive [a] has [log2 a + 1] bits, and
    the answer for [a <= 0] is [2]. *)
Lemma bitLength_loop_spec fuel : forall a bits,
  1 < a -> Z.log2 a <= Z.of_nat fuel ->
  bitLength_loop fuel a bits = Ret (bits + Z.log2 a).
Proof.
  induction fuel as [|fuel IH]; intros a bits Ha Hfuel.
  - pose proof (Z.log2_pos a Ha). lia.
  - cbn [bitLength_loop]. rewrite shiftr_1.
    assert (Hh : 0 < a / 2) by (apply Z.div_str_pos; lia).
    pose proof (half_log2 a ltac:(lia) Hh) as Hlog.
    assert (Hup : Z.log2 a <= Z.log2 (a / 2) + 1).
    { pose proof (Z.log2_succ_double (a / 2) Hh) as D.
      pose proof (Z.div_mod a 2 ltac:(lia)).
      pose proof (Z.mod_pos_bound a 2 ltac:(lia)).
      pose proof (Z.log2_le_mono a (2 * (a / 2) + 1) ltac:(lia)). lia. }
    destruct (Z.gtb_spec (a / 2) 1) as [Hgt|Hle].
    + rewrite IH by lia. f_equal. lia.
    + assert (E : a / 2 = 1) by lia. rewrite E in *. cbn in Hlog, Hup. f_equal. lia.
Qed.

Lemma bitLength_spec a :
  bitLength a = Ret (if 0 <? a then Z.log2 a + 1 else 2).
Proof.
  unfold bitLength. destruct (Z.eqb_spec a 1) as [->|Hne]; [reflexivity|].
  destruct (Z.ltb_spec 0 a) as [Hpos|Hneg].
  - rewrite bitLength_loop_spec by lia. f_equal. lia.
  - cbn [bitLength_loop]. rewrite shiftr_1.
    assert (a / 2 <= 0) by (apply Z.div_le_upper_bound; lia).
    destruct (Z.gtb_spec (a / 2) 1); [lia|reflexivity].
Qed.

(** ** The unrolling bounds are never reached *)

Lemma js_mul_finishes x y : js_mul x y <> Unfinished.
Proof. destruct x, y; discriminate. Qed.

Lemma js_rem_finishes x y : js_rem x y <> Unfinished.
Proof. destruct x as [a|], y as [b|]; cbn; try discriminate. destruct (b =? 0); discriminate. Qed.

Lemma modPow_loop_finishes fuel : forall b result x n,
  (0 < b -> Z.log2 b + 1 < Z.of_nat fuel) -> (0 < fuel)%nat ->
  modPow_loop fuel result x b n <> Unfinished.
Proof.
  induction fuel as [|fuel IH]; intros b result x n Hfuel Hf; [lia|].
  cbn [modPow_loop].
  destruct (Z.gtb_spec b 0) as [Hpos|_]; [|discriminate].
  specialize (Hfuel Hpos).
  rewrite (Z.quot_div_nonneg b 2) by lia.
  assert (Hnext : forall r y, modPow_loop fuel r y (b / 2) n <> Unfinished).
  { intros r y. apply IH.
    - intros Hh. pose proof (half_log2 b Hpos Hh). lia.
    - pose proof (Z.log2_nonneg b). lia. }
  assert (Htail : forall r,
            (x0 <- js_mul x x ;; x1 <- js_rem x0 (BigInt n) ;;
             modPow_loop fuel r x1 (b / 2) n) <> Unfinished).
  { intros r. pose proof (js_mul_finishes x x) as M.
    destruct (js_mul x x) as [x0| |]; cbn [bind]; try discriminate; [|contradiction].
    pose proof (js_rem_finishes x0 (BigInt n)) as R.
    destruct (js_rem x0 (BigInt n)) as [x1| |]; cbn [bind]; try discriminate;
      [apply Hnext|contradiction]. }
  destruct (Z.rem b 2 =? 1); cbn [bind]; [|apply Htail].
  pose proof (js_mul_finishes result x) as M.
  destruct (js_mul result x) as [r0| |]; cbn [bind]; try discriminate; [|contradiction].
  pose proof (js_rem_finishes r0 (BigInt n)) as R.
  destruct (js_rem r0 (BigInt n)) as [r1| |]; cbn [bind]; try discriminate;
    [apply Htail|contradiction].
Qed.

Lemma toZn_finishes a n : toZn a n <> Unfinished.
Proof.
  unfold toZn. destruct (n <=? 0); [discriminate|].
  destruct a; discriminate.
Qed.

Lemma eGcd_finishes a b : eGcd a b <> Unfinished.
Proof.
  destruct a as [a|]; [|discriminate]. destruct b as [b|]; [|discriminate].
  destruct (Z.le_gt_cases a 0) as [Ha|Ha]; [rewrite eGcd_nonpos by auto; discriminate|].
  destruct (Z.le_gt_cases b 0) as [Hb|Hb]; [rewrite eGcd_nonpos by auto; discriminate|].
  destruct (eGcd_spec a b Ha Hb) as (e & -> & _). discriminate.
Qed.

Lemma modInv_finishes a n : modInv a n <> Unfinished.
Proof.
  unfold modInv. destruct (value_eqb a (BigInt 0) || (n <=? 0)) eqn:E; [discriminate|].
  apply orb_false_iff in E. destruct E as [_ E]. apply Z.leb_gt in E.
  destruct a as [a|]; [|unfold toZn; destruct (n <=? 0); discriminate].
  rewrite toZn_spec by assumption. cbn [bind].
  pose proof (eGcd_finishes (BigInt (a mod n)) (BigInt n)) as G.
  destruct (eGcd (BigInt (a mod n)) (BigInt n)) as [[e|]| |]; cbn [bind];
    try discriminate; [|contradiction].
  destruct (negb (eg_b e =? 1)); [discriminate|apply toZn_finishes].
Qed.

(** [modPow] ends, normally or by throwing, on all its inputs. *)
Lemma modPow_finishes a b n : modPow a b n <> Unfinished.
Proof.
  unfold modPow. destruct (n =? 0) eqn:En; [discriminate|].
  pose proof (toZn_finishes a n) as T.
  destruct (toZn a n) as [a'| |]; cbn [bind]; try discriminate; [|contradiction].
  destruct b as [b|]; cbn [to_BigInt bind]; [|discriminate].
  destruct (Z.ltb_spec b 0) as [Hneg|Hpos].
  - unfold modPow_nonneg. rewrite En.
    pose proof (toZn_finishes a' n) as T'.
    destruct (toZn a' n) as [a''| |]; cbn [bind]; try discriminate; [|contradiction].
    pose proof (modPow_loop_finishes (modPow_fuel (abs b)) (abs b) (BigInt 1) a'' n
                  (fun _ => modPow_fuel_enough _) (modPow_fuel_pos _)) as P.
    destruct (modPow_loop (modPow_fuel (abs b)) (BigInt 1) a'' (abs b) n);
      cbn [bind]; try discriminate; [apply modInv_finishes|contradiction].
  - apply modPow_loop_finishes; [intros _; apply modPow_fuel_enough|apply modPow_fuel_pos].
Qed.

(** ** Number theory behind the scheme *)

(** The binomial expansion of [(1 + n k)^m] cut modulo [n^2]. *)
Lemma one_plus_pow n k m : 0 <= m ->
  (1 + n * k) ^ m mod n ^ 2 = (1 + n * (k * m)) mod n ^ 2.
Proof.
  intros Hm. pattern m. apply natlike_ind; [| |assumption].
  - now rewrite Z.mul_0_r, Z.mul_0_r, Z.add_0_r.
  - intros x Hx IH.
    rewrite Z.pow_succ_r by assumption.
    rewrite <- Zmult_mod_idemp_r, IH, Zmult_mod_idemp_r.
    replace ((1 + n * k) * (1 + n * (k * x)))
      with (1 + n * (k * Z.succ x) + (k * k * x) * n ^ 2) by ring.
    apply Z_mod_plus_full.
Qed.

Lemma mod_one_plus n t : 1 < n -> (1 + n * t) mod n ^ 2 = 1 + n * (t mod n).
Proof.
  intros Hn. symmetry.
  pose proof (Z.mod_pos_bound t n ltac:(lia)).
  apply (Z.mod_unique_pos _ _ (t / n)).
  - nia.
  - pose proof (Z.div_mod t n ltac:(lia)). nia.
Qed.

Lemma fermat_coprime p x : Z.prime p -> Z.gcd x p = 1 -> x ^ (p - 1) mod p = 1.
Proof.
  intros Hp Hx.
  apply Z.fermat_nz; [assumption|].
  intros E. pose proof (Z.prime_ge_2 p Hp).
  apply Z.mod_divide in E; [|lia].
  assert (Hd : (p | Z.gcd x p)) by (apply Z.gcd_greatest; [assumption|reflexivity]).
  rewrite Hx in Hd. apply Z.divide_1_r in Hd. lia.
Qed.

Lemma pow_multiple_prime p x lam :
  Z.prime p -> Z.gcd x p = 1 -> 0 <= lam -> (p - 1 | lam) ->
  x ^ lam mod p = 1.
Proof.
  intros Hp Hx Hlam [k Hk].
  pose proof (Z.prime_ge_2 p Hp).
  assert (0 <= k) by nia.
  rewrite Hk, Z.mul_comm, Z.pow_mul_r by lia.
  rewrite <- Z.mod_pow_l, fermat_coprime by assumption.
  rewrite Z.pow_1_l by assumption. apply Z.mod_1_l. lia.
Qed.

Lemma coprime_factor_l x p q : Z.gcd x (p * q) = 1 -> Z.gcd x p = 1.
Proof.
  intros H.
  assert (Hd : (Z.gcd x p | 1)).
  { rewrite <- H. apply Z.gcd_greatest; [apply Z.gcd_divide_l|].
    apply Z.divide_mul_l, Z.gcd_divide_r. }
  pose proof (Z.gcd_nonneg x p). apply Z.divide_1_r in Hd. lia.
Qed.

Lemma coprime_factor_r x p q : Z.gcd x (p * q) = 1 -> Z.gcd x q = 1.
Proof. rewrite Z.mul_comm. apply coprime_factor_l. Qed.

Lemma distinct_primes_coprime p q : Z.prime p -> Z.prime q -> p <> q -> Z.gcd p q = 1.
Proof.
  intros Hp Hq Hne. apply Z.coprime_prime_l; [assumption|].
  intros Hd. apply Hne. apply Z.divide_prime_prime; assumption.
Qed.

(** For [n = p q] with distinct primes, every exponent that [p - 1] and
    [q - 1] divide sends the units modulo [n] to [1]. *)
Lemma carmichael_pq p q x lam :
  Z.prime p -> Z.prime q -> p <> q -> Z.gcd x (p * q) = 1 ->
  0 <= lam -> (p - 1 | lam) -> (q - 1 | lam) ->
  x ^ lam mod (p * q) = 1.
Proof.
  intros Hp Hq Hne Hx Hlam Dp Dq.
  pose proof (Z.prime_ge_2 p Hp). pose proof (Z.prime_ge_2 q Hq).
  pose proof (pow_multiple_prime p x lam Hp (coprime_factor_l _ _ _ Hx) Hlam Dp) as Ep.
  pose proof (pow_multiple_prime q x lam Hq (coprime_factor_r _ _ _ Hx) Hlam Dq) as Eq.
  assert (Hdp : (p | x ^ lam - 1)).
  { apply Z.mod_divide; [lia|]. rewrite Zminus_mod, Ep, Z.mod_1_l by lia. reflexivity. }
  assert (Hdq : (q | x ^ lam - 1)).
  { apply Z.mod_divide; [lia|]. rewrite Zminus_mod, Eq, Z.mod_1_l by lia. reflexivity. }
  destruct Hdp as [k Hk].
  assert (Hqk : (q | k)).
  { apply (Z.gauss q p k).
    - rewrite Z.mul_comm, <- Hk. assumption.
    - rewrite Z.gcd_comm. now apply distinct_primes_coprime. }
  destruct Hqk as [j Hj].
  replace (x ^ lam) with (1 + j * (p * q)) by (rewrite Hj in Hk; lia).
  rewrite Z.mod_add by nia. apply Z.mod_1_l. nia.
Qed.

Lemma pow_lambda_n n x lam : 1 < n -> 0 <= lam ->
  x ^ lam mod n = 1 -> x ^ (lam * n) mod n ^ 2 = 1.
Proof.
  intros Hn Hlam Hx.
  pose proof (Z.div_mod (x ^ lam) n ltac:(lia)) as E. rewrite Hx in E.
  rewrite Z.pow_mul_r by lia.
  replace (x ^ lam) with (1 + n * (x ^ lam / n)) by lia.
  rewrite one_plus_pow by lia.
  replace (1 + n * (x ^ lam / n * n)) with (1 + (x ^ lam / n) * n ^ 2) by ring.
  rewrite Z.mod_add by nia. apply Z.mod_1_l. nia.
Qed.

(** The remainder of JavaScript agrees with the canonical residue modulo
    any divisor of the modulus. *)
Lemma rem_mod_divide x N n : N <> 0 -> (n | N) -> Z.rem x N mod n = x mod n.
Proof.
  intros HN [k Hk].
  pose proof (Z.quot_rem' x N) as E.
  replace (Z.rem x N) with (x + (- (Z.quot x N) * k) * n) by lia.
  destruct (Z.eq_dec n 0) as [->|Hn]; [lia|].
  now rewrite Z.mod_add.
Qed.

Lemma prime_check_sound p : prime_check p = true -> Z.prime p.
Proof.
  unfold prime_check. intros H. apply andb_true_iff in H. destruct H as [H1 H2].
  apply Z.ltb_lt in H1. split; [assumption|].
  intros d Hd Hdiv. rewrite forallb_forall in H2.
  specialize (H2 (Z.to_nat d)).
  rewrite Z2Nat.id in H2 by lia.
  assert (Hin : In (Z.to_nat d) (seq 2 (Z.to_nat p - 2))) by (apply in_seq; lia).
  apply H2 in Hin. apply negb_true_iff, Z.eqb_neq in Hin.
  apply Hin. apply Z.mod_divide; [lia|assumption].
Qed.

(** Tactics for the concrete keys of the scenarios. *)
Ltac prove_prime := apply prime_check_sound; vm_compute; reflexivity.

Ltac prove_simple_keypair :=
  unfold simple_keypair;
  split; [prove_prime|]; split; [prove_prime|]; split; [lia|];
  split; [vm_compute; reflexivity|discriminate].

Ltac prove_valid_keypair p q := exists p, q; left; prove_simple_keypair.

(** The two kinds of key pairs exist: the keys of the scenarios are
    simple-variant key pairs, and [kp_11_13_g2] is a general-variant one,
    on which decryption inverts encryption as well. *)
Example simple_keypair_11_13 : simple_keypair 11 13 kp_11_13.
Proof. prove_simple_keypair. Qed.

Example simple_keypair_17_19 : simple_keypair 17 19 kp_17_19.
Proof. prove_simple_keypair. Qed.

Example general_keypair_11_13 : general_keypair 11 13 kp_11_13_g2.
Proof.
  unfold general_keypair.
  split; [prove_prime|]. split; [prove_prime|]. split; [lia|].
  split; [exists (Some 2), [], []; reflexivity|].
  split; [exists 2; split; reflexivity|discriminate].
Qed.

Example general_keypair_run :
  PublicKey.encrypt (publicKey kp_11_13_g2) 100 (Some 7) [] = Ret (BigInt 4842, []) /\
  PrivateKey.decrypt (privateKey kp_11_13_g2) 4842 = Ret (BigInt 100).
Proof. split; reflexivity. Qed.

(** ** Decryption *)

Section Decryption.

Variables (sk : PrivateKey.t) (gz muz : Z).
Hypothesis Hok : key_ok sk gz muz.

Local Abbreviation pk := (PrivateKey.publicKey sk).
Local Abbreviation n := (PrivateKey.n sk).
Local Abbreviation lam := (PrivateKey.lambda sk).

Local Abbreviation Lg := (Lg sk gz).
Local Abbreviation class := (class sk gz).

Lemma n_gt_1 : 1 < n.
Proof. exact (ok_n _ _ _ Hok). Qed.

Lemma n2_gt_1 : 1 < n ^ 2.
Proof. pose proof n_gt_1. nia. Qed.

Lemma lam_nonneg : 0 <= lam.
Proof. exact (ok_lambda _ _ _ Hok). Qed.

Lemma n_divides_n2 : (n | n ^ 2).
Proof. exists n. ring. Qed.

Lemma g_lambda : gz ^ lam mod n ^ 2 = 1 + n * Lg.
Proof.
  pose proof n_gt_1 as Hn. unfold Lg.
  pose proof (Z.mod_mod_divide (gz ^ lam) (n ^ 2) n n_divides_n2) as E.
  rewrite (ok_units _ _ _ Hok gz (ok_g_unit _ _ _ Hok)) in E.
  pose proof (Z.div_mod (gz ^ lam mod n ^ 2 - 1) n ltac:(lia)) as D.
  rewrite Zminus_mod, E, (Z.mod_small 1 n), Z.sub_diag, Z.mod_0_l in D by lia.
  lia.
Qed.

Lemma class_one : class 1 0.
Proof.
  unfold class.
  now rewrite Z.pow_1_l, Z.mul_0_l, Z.mul_0_r, Z.add_0_r by apply lam_nonneg.
Qed.

Lemma class_mod c M : class (c mod n ^ 2) M <-> class c M.
Proof. unfold class. now rewrite Z.mod_pow_l. Qed.

Lemma class_mul c1 c2 M1 M2 :
  class c1 M1 -> class c2 M2 -> class (c1 * c2) (M1 + M2).
Proof.
  unfold class. intros H1 H2.
  rewrite Z.pow_mul_l, Zmult_mod, H1, H2, <- Zmult_mod.
  replace ((1 + n * (M1 * Lg)) * (1 + n * (M2 * Lg)))
    with (1 + n * ((M1 + M2) * Lg) + (M1 * Lg * M2 * Lg) * n ^ 2) by ring.
  apply Z_mod_plus_full.
Qed.

Lemma class_pow c M k : 0 <= k -> class c M -> class (c ^ k) (k * M).
Proof.
  intros Hk Hc. pattern k. apply natlike_ind; [| |assumption].
  - rewrite Z.pow_0_r, Z.mul_0_l. apply class_one.
  - intros x Hx IH. rewrite Z.pow_succ_r by assumption.
    replace (Z.succ x * M) with (M + x * M) by ring.
    now apply class_mul.
Qed.

Lemma class_inv c v M : class c M -> (v * c) mod n ^ 2 = 1 -> class v (- M).
Proof.
  unfold class. intros Hc Hv.
  assert (E : (v ^ lam * c ^ lam) mod n ^ 2 = 1).
  { rewrite <- Z.pow_mul_l, <- Z.mod_pow_l, Hv, Z.pow_1_l by apply lam_nonneg.
    apply Z.mod_1_l, n2_gt_1. }
  rewrite <- Zmult_mod_idemp_r, Hc, Zmult_mod_idemp_r in E.
  rewrite <- (Z.mul_1_r (v ^ lam)).
  rewrite <- Zmult_mod_idemp_r.
  replace (1 mod n ^ 2)
    with (((1 + n * (M * Lg)) * (1 + n * (- M * Lg))) mod n ^ 2).
  - rewrite Zmult_mod_idemp_r, Z.mul_assoc, <- Zmult_mod_idemp_l, E.
    now rewrite Z.mul_1_l.
  - replace ((1 + n * (M * Lg)) * (1 + n * (- M * Lg)))
      with (1 + (- (M * Lg * M * Lg)) * n ^ 2) by ring.
    apply Z_mod_plus_full.
Qed.

(** Units modulo [n] raised to [n] are in the class of [0]. *)
Lemma class_nth_power r : Z.gcd r n = 1 -> class (r ^ n) 0.
Proof.
  intros Hr. unfold class. pose proof n_gt_1. pose proof lam_nonneg.
  rewrite <- Z.pow_mul_r, (Z.mul_comm n lam) by lia.
  rewrite pow_lambda_n; try lia.
  - rewrite Z.mul_0_l, Z.mul_0_r, Z.add_0_r. symmetry. apply Z.mod_1_l, n2_gt_1.
  - now apply (ok_units _ _ _ Hok).
Qed.

Lemma class_g : class gz 1.
Proof. unfold class. rewrite g_lambda, Z.mul_1_l. symmetry. apply Z.mod_small.
  rewrite <- g_lambda. apply Z.mod_pos_bound. pose proof n2_gt_1. lia.
Qed.

(** Decryption returns the plaintext of the class. *)
Lemma decrypt_class c M : class c M ->
  PrivateKey.decrypt sk c = Ret (BigInt (M mod n)).
Proof.
  unfold class. intros Hc. unfold PrivateKey.decrypt.
  change (PublicKey.n (PrivateKey.publicKey sk)) with (PrivateKey.n sk).
  pose proof n_gt_1 as Hn. pose proof n2_gt_1 as Hn2. pose proof lam_nonneg as Hl.
  rewrite (ok_n2 _ _ _ Hok), (ok_mu _ _ _ Hok).
  rewrite modPow_pow by assumption. cbn [bind].
  rewrite Hc, mod_one_plus by assumption.
  unfold L. cbn [js_sub bind js_div].
  destruct (Z.eqb_spec n 0) as [E0|E0]; [lia|]; clear E0. cbn [bind js_mul js_rem].
  destruct (Z.eqb_spec n 0) as [E0|E0]; [lia|]; clear E0.
  pose proof (Z.mod_pos_bound (M * Lg) n ltac:(lia)) as B.
  pose proof (ok_mu_range _ _ _ Hok) as Bmu.
  replace (1 + n * ((M * Lg) mod n) - 1) with (((M * Lg) mod n) * n) by ring.
  assert (H0 : 0 <= (M * Lg) mod n * n) by (apply Z.mul_nonneg_nonneg; lia).
  rewrite Z.quot_div_nonneg by lia.
  rewrite Z.div_mul by lia.
  assert (H1 : 0 <= (M * Lg) mod n * muz) by (apply Z.mul_nonneg_nonneg; lia).
  rewrite Z.rem_mod_nonneg by lia.
  do 2 f_equal.
  rewrite Z.mul_mod_idemp_l by lia.
  rewrite <- Z.mul_assoc, <- Z.mul_mod_idemp_r by lia.
  pose proof (ok_mu_inv _ _ _ Hok) as Hinv. fold Lg in Hinv.
  rewrite Hinv. now rewrite Z.mul_1_r.
Qed.

(** With an explicit [r], [encrypt] returns [g^m r^n mod n^2] and leaves
    the tape alone. *)
Lemma encrypt_value m r tape : 0 <= m ->
  PublicKey.encrypt pk m (Some r) tape =
  Ret (BigInt ((gz ^ m * r ^ n) mod n ^ 2), tape).
Proof.
  intros Hm. unfold PublicKey.encrypt, rbind, rret, lift.
  pose proof n_gt_1 as Hn. pose proof n2_gt_1 as Hn2.
  rewrite (ok_n2 _ _ _ Hok), (ok_g _ _ _ Hok).
  change (PublicKey.n (PrivateKey.publicKey sk)) with (PrivateKey.n sk).
  rewrite !modPow_pow by lia. cbn [bind js_mul js_rem].
  destruct (Z.eqb_spec (n ^ 2) 0) as [E0|E0]; [lia|]; clear E0. cbn [bind].
  pose proof (Z.mod_pos_bound (gz ^ m) (n ^ 2) ltac:(lia)).
  pose proof (Z.mod_pos_bound (r ^ n) (n ^ 2) ltac:(lia)).
  rewrite Z.rem_mod_nonneg by nia.
  now rewrite <- Zmult_mod.
Qed.

Lemma encrypt_class m r : 0 <= m -> Z.gcd r n = 1 ->
  class ((gz ^ m * r ^ n) mod n ^ 2) m.
Proof.
  intros Hm Hr. apply class_mod.
  replace m with (m * 1 + 0) at 2 by ring.
  apply class_mul; [|now apply class_nth_power].
  apply class_pow; [assumption|apply class_g].
Qed.

End Decryption.

(** ** Key generation *)

Lemma modInv_BigInt a n x : modInv (BigInt a) n = Ret (BigInt x) ->
  0 < n /\ 0 <= x < n /\ (a * x) mod n = 1 /\ Z.gcd a n = 1.
Proof.
  intros H.
  destruct (Z.le_gt_cases n 0) as [Hn|Hn].
  { rewrite modInv_none in H by auto. discriminate. }
  destruct (Z.eq_dec (a mod n) 0) as [E|E].
  { rewrite modInv_none in H by auto. discriminate. }
  destruct (Z.eq_dec (Z.gcd a n) 1) as [G|G].
  2:{ rewrite modInv_none in H by auto. discriminate. }
  destruct (modInv_coprime a n Hn E G) as (x' & Hx & B & I).
  rewrite Hx in H. inversion H. subst x'. auto.
Qed.

Lemma or_null_prime p : Z.prime p -> PrivateKey.or_null (Some p) = Some p.
Proof.
  intros Hp. pose proof (Z.prime_ge_2 p Hp).
  destruct p; [lia|reflexivity|reflexivity].
Qed.

Lemma gcd_succ_l n : Z.gcd (n + 1) n = 1.
Proof.
  pose proof (Z.gcd_nonneg (n + 1) n) as Hn.
  assert (Hd : (Z.gcd (n + 1) n | n + 1 - n)).
  { apply Z.divide_sub_r; [apply Z.gcd_divide_l|apply Z.gcd_divide_r]. }
  replace (n + 1 - n) with 1 in Hd by ring.
  apply Z.divide_1_r in Hd. lia.
Qed.

Lemma primes_product p q : Z.prime p -> Z.prime q -> 1 < p * q.
Proof.
  intros Hp Hq. pose proof (Z.prime_ge_2 p Hp). pose proof (Z.prime_ge_2 q Hq). nia.
Qed.

(** What [keysFromPrimesSimple] returns. *)
Lemma keysFromPrimesSimple_Ret p q kp :
  keysFromPrimesSimple p q = Ret kp ->
  exists mu,
    modInv (BigInt ((p - 1) * (q - 1))) (p * q) = Ret mu /\
    kp = {| publicKey := PublicKey.new (p * q) (BigInt (p * q + 1));
            privateKey := PrivateKey.new ((p - 1) * (q - 1)) mu
                            (PublicKey.new (p * q) (BigInt (p * q + 1)))
                            (Some p) (Some q) |}.
Proof.
  unfold keysFromPrimesSimple. intros H.
  apply bind_Ret in H. destruct H as (mu & Hmu & H).
  inversion H. eauto.
Qed.

Lemma simple_keypair_ok p q kp : simple_keypair p q kp ->
  exists muz,
    key_ok (privateKey kp) (p * q + 1) muz /\
    PrivateKey.publicKey (privateKey kp) = publicKey kp /\
    PrivateKey.n (privateKey kp) = p * q /\
    PrivateKey.lambda (privateKey kp) = (p - 1) * (q - 1) /\
    PrivateKey._p (privateKey kp) = Some p /\
    PrivateKey._q (privateKey kp) = Some q /\
    Z.gcd ((p - 1) * (q - 1)) (p * q) = 1.
Proof.
  intros (Hp & Hq & Hne & Hk & Hmu).
  apply keysFromPrimesSimple_Ret in Hk. destruct Hk as (mu & Hinv & ->).
  cbn [privateKey publicKey PrivateKey.new PrivateKey.mu] in *.
  destruct mu as [muz|]; [|congruence].
  apply modInv_BigInt in Hinv. destruct Hinv as (Hn & Bmu & Inv & G).
  pose proof (Z.prime_ge_2 p Hp). pose proof (Z.prime_ge_2 q Hq).
  exists muz. unfold PrivateKey.n.
  cbn [PrivateKey._p PrivateKey._q PrivateKey.lambda PrivateKey.publicKey
       PrivateKey.new PublicKey.new PublicKey.n].
  rewrite !or_null_prime by assumption.
  split; [|repeat split; try reflexivity; assumption].
  constructor; unfold PrivateKey.n;
    cbn [PrivateKey.lambda PrivateKey.publicKey PrivateKey.mu PrivateKey.new
         PublicKey.new PublicKey.n PublicKey._n2 PublicKey.g];
    try reflexivity; try assumption.
  - apply primes_product; assumption.
  - nia.
  - intros x Hx. apply carmichael_pq; try assumption; try nia.
    + exists (q - 1). ring.
    + exists (p - 1). ring.
  - apply gcd_succ_l.
  - replace (p * q + 1) with (1 + p * q * 1) by ring.
    rewrite one_plus_pow, mod_one_plus, Z.mul_1_l by nia.
    replace (1 + p * q * (((p - 1) * (q - 1)) mod (p * q)) - 1)
      with ((((p - 1) * (q - 1)) mod (p * q)) * (p * q)) by ring.
    rewrite Z.div_mul, Z.mul_mod_idemp_l by lia. assumption.
Qed.

Lemma lift_bind_Ret {A : Type} (c : outcome A) t a t' :
  lift c t = Ret (a, t') -> c = Ret a.
Proof. intros H. now apply lift_Ret in H. Qed.

Lemma general_keypair_ok p q kp : general_keypair p q kp ->
  exists gz muz,
    key_ok (privateKey kp) gz muz /\
    PrivateKey.publicKey (privateKey kp) = publicKey kp.
Proof.
  intros (Hp & Hq & Hne & (g & tape & tape' & Hk) & (gz & Hg & Hgz) & Hmu).
  unfold keysFromPrimes in Hk.
  apply rbind_Ret in Hk. destruct Hk as (g' & t1 & _ & Hk).
  apply lift_bind_Ret in Hk.
  rewrite lcm_spec in Hk. cbn [bind] in Hk.
  apply bind_Ret in Hk. destruct Hk as (x & Hx & Hk).
  apply bind_Ret in Hk. destruct Hk as (l & Hl & Hk).
  apply bind_Ret in Hk. destruct Hk as (mu & Hinv & Hk).
  inversion Hk. subst kp. clear Hk.
  cbn [privateKey publicKey PrivateKey.new PrivateKey.mu PublicKey.new PublicKey.g] in *.
  subst g'. destruct mu as [muz|]; [|congruence].
  pose proof (primes_product p q Hp Hq) as Hn.
  pose proof (Z.prime_ge_2 p Hp). pose proof (Z.prime_ge_2 q Hq).
  pose proof (Z.lcm_nonneg (p - 1) (q - 1)) as Hlam.
  assert (Hn2 : 1 < (p * q) ^ 2) by nia.
  assert (Hunits : forall x, Z.gcd x (p * q) = 1 ->
                             x ^ Z.lcm (p - 1) (q - 1) mod (p * q) = 1).
  { intros y Hy. apply carmichael_pq; try assumption.
    - apply Z.divide_lcm_l.
    - apply Z.divide_lcm_r. }
  rewrite modPow_pow in Hx by assumption. inversion Hx. subst x. clear Hx.
  assert (Hone : (gz ^ Z.lcm (p - 1) (q - 1) mod (p * q) ^ 2) mod (p * q) = 1).
  { rewrite Z.mod_mod_divide by (exists (p * q); ring). now apply Hunits. }
  pose proof (Z.mod_pos_bound (gz ^ Z.lcm (p - 1) (q - 1)) ((p * q) ^ 2) ltac:(lia)) as B.
  assert (Hge : 1 <= gz ^ Z.lcm (p - 1) (q - 1) mod (p * q) ^ 2).
  { destruct (Z.eq_dec (gz ^ Z.lcm (p - 1) (q - 1) mod (p * q) ^ 2) 0) as [E|E]; [|lia].
    rewrite E, Z.mod_0_l in Hone by lia. discriminate. }
  unfold L in Hl. cbn [js_sub bind js_div] in Hl.
  destruct (Z.eqb_spec (p * q) 0) as [E0|E0]; [lia|]. clear E0.
  inversion Hl. subst l. clear Hl.
  rewrite Z.quot_div_nonneg in Hinv by lia.
  apply modInv_BigInt in Hinv. destruct Hinv as (_ & Bmu & Inv & _).
  exists gz, muz. split; [|reflexivity].
  constructor; unfold PrivateKey.n;
    cbn [PrivateKey.lambda PrivateKey.publicKey PrivateKey.mu PrivateKey.new
         PublicKey.new PublicKey.n PublicKey._n2 PublicKey.g];
    try reflexivity; try assumption.
Qed.

Lemma valid_keypair_ok kp : valid_keypair kp ->
  exists gz muz,
    key_ok (privateKey kp) gz muz /\
    PrivateKey.publicKey (privateKey kp) = publicKey kp.
Proof.
  intros (p & q & [Hs|Hg]).
  - destruct (simple_keypair_ok p q kp Hs) as (muz & Hok & Hpk & _).
    eauto.
  - now apply (general_keypair_ok p q).
Qed.

(** ** Random sampling *)

Lemma set_first_nonneg f buf :
  (forall x, 0 <= x -> 0 <= f x) -> nonneg_bytes buf -> nonneg_bytes (set_first f buf).
Proof.
  intros Hf Hb. destruct Hb as [|x rest Hx Hrest]; constructor; auto.
Qed.

Lemma byte_to_Z_nonneg b : 0 <= byte_to_Z b.
Proof. unfold byte_to_Z. lia. Qed.

Lemma getRandomValues_Ret k t buf t' :
  getRandomValues k t = Ret (buf, t') ->
  nonneg_bytes buf /\ length t' = (length t - Z.to_nat k)%nat /\
  (Z.to_nat k <= length t)%nat.
Proof.
  unfold getRandomValues. destruct (Nat.ltb_spec (length t) (Z.to_nat k)); [discriminate|].
  intros E. inversion E. subst. repeat split.
  - apply Forall_forall. intros x Hx. apply in_map_iff in Hx.
    destruct Hx as (b & <- & _). apply byte_to_Z_nonneg.
  - apply length_skipn.
  - assumption.
Qed.

(** A successful [randBits] delivers non-negative bytes and consumes at
    least one byte of the tape. *)
Lemma randBits_Ret bitLength force t buf t' :
  randBits bitLength force t = Ret (buf, t') ->
  nonneg_bytes buf /\ (length t' < length t)%nat.
Proof.
  unfold randBits. destruct (Z.ltb_spec bitLength 1) as [|Hb]; [discriminate|].
  intros H. apply rbind_Ret in H. destruct H as (buf0 & t1 & H0 & H).
  unfold randBytesSync in H0.
  assert (Hk : 1 <= (bitLength + 7) / 8) by (apply Z.div_le_lower_bound; lia).
  destruct (Z.ltb_spec ((bitLength + 7) / 8) 1) as [Hlt|_]; [lia|].
  apply rbind_Ret in H0. destruct H0 as (buf1 & t2 & H1 & H0).
  apply getRandomValues_Ret in H1. destruct H1 as (Hn & Hlen & Hle).
  unfold rret in H0, H. inversion H0. subst buf0 t2. clear H0.
  inversion H. subst buf t'. clear H.
  split; [|lia].
  assert (Hmask : nonneg_bytes
            (set_first (fun x => Z.land x (2 ^ Z.rem bitLength 8 - 1)) buf1)).
  { apply set_first_nonneg; [|assumption].
    intros x Hx. apply Z.land_nonneg. auto. }
  destruct force; [|assumption].
  apply set_first_nonneg; [|assumption].
  intros x Hx. apply Z.lor_nonneg. split; [assumption|].
  destruct (negb (Z.rem bitLength 8 =? 0)); [|lia].
  apply Z.pow_nonneg. lia.
Qed.

Lemma fromBuffer_fold_nonneg buf : nonneg_bytes buf -> forall acc, 0 <= acc ->
  0 <= fold_left (fun ret bi => Z.shiftl ret 8 + bi) buf acc.
Proof.
  induction 1 as [|x rest Hx Hrest IH]; intros acc Hacc; cbn [fold_left].
  - assumption.
  - apply IH. pose proof (proj2 (Z.shiftl_nonneg acc 8) Hacc). lia.
Qed.

Lemma fromBuffer_nonneg buf : nonneg_bytes buf -> 0 <= fromBuffer buf.
Proof. intros H. apply fromBuffer_fold_nonneg; [assumption|lia]. Qed.

Lemma randBetween_loop_Ret fuel : forall bitLen interval t rnd t',
  randBetween_loop fuel bitLen interval t = Ret (rnd, t') ->
  0 <= rnd <= interval /\ (length t' < length t)%nat.
Proof.
  induction fuel as [|fuel IH]; intros bitLen interval t rnd t' H; [discriminate|].
  cbn [randBetween_loop] in H.
  apply rbind_Ret in H. destruct H as (buf & t1 & Hb & H).
  apply randBits_Ret in Hb. destruct Hb as (Hn & Hlen).
  destruct (Z.gtb_spec (fromBuffer buf) interval) as [Hgt|Hle].
  - apply IH in H. lia.
  - unfold rret in H. inversion H. subst.
    pose proof (fromBuffer_nonneg buf Hn). lia.
Qed.

(** [randBetween(max, min)] returns a value in [[min, max]], both ends
    included. *)
Lemma randBetween_Ret max min t r t' :
  randBetween max min t = Ret (r, t') ->
  min <= r <= max /\ (length t' < length t)%nat.
Proof.
  unfold randBetween. destruct (Z.leb_spec max min) as [|Hlt]; [discriminate|].
  intros H. apply rbind_Ret in H. destruct H as (bitLen & t1 & Hb & H).
  apply lift_Ret in Hb. destruct Hb as (_ & ->).
  apply rbind_Ret in H. destruct H as (rnd & t2 & Hl & H).
  apply randBetween_loop_Ret in Hl.
  unfold rret in H. inversion H. subst. lia.
Qed.

(** The rounds of the rejection loop are bounded by the tape, not by the
    unrolling bound: any two bounds above the length of the tape give the
    same run. *)
Lemma randBetween_loop_fuel bitLen interval fuel1 : forall fuel2 t,
  (length t < fuel1)%nat -> (length t < fuel2)%nat ->
  randBetween_loop fuel1 bitLen interval t = randBetween_loop fuel2 bitLen interval t.
Proof.
  induction fuel1 as [|fuel1 IH]; intros fuel2 t H1 H2; [lia|].
  destruct fuel2 as [|fuel2]; [lia|].
  cbn [randBetween_loop]. unfold rbind.
  destruct (randBits bitLen false t) as [[buf t1]| |] eqn:E; try reflexivity.
  apply randBits_Ret in E. destruct E as (_ & Hlen).
  destruct (fromBuffer buf >? interval); [|reflexivity].
  apply IH; lia.
Qed.

(** The default draw of [encrypt] returns a unit modulo [n] in [[1, n]]. *)
Lemma encrypt_draw_Ret fuel : forall pk t r t',
  PublicKey.encrypt_draw fuel pk t = Ret (r, t') ->
  1 <= r <= PublicKey.n pk /\ Z.gcd r (PublicKey.n pk) = 1 /\
  (length t' < length t)%nat.
Proof.
  induction fuel as [|fuel IH]; intros pk t r t' H; [discriminate|].
  cbn [PublicKey.encrypt_draw] in H.
  apply rbind_Ret in H. destruct H as (r0 & t1 & Hr & H).
  apply randBetween_Ret in Hr. destruct Hr as (Hrange & Hlen).
  apply rbind_Ret in H. destruct H as (d & t2 & Hd & H).
  rewrite gcd_spec in Hd. apply lift_Ret in Hd. destruct Hd as (Hd & ->).
  inversion Hd. subst d. clear Hd.
  destruct (Z.eqb_spec (Z.gcd r0 (PublicKey.n pk)) 1) as [E|E]; cbn [negb] in H.
  - unfold rret in H. inversion H. subst. auto.
  - apply IH in H. destruct H as (? & ? & ?). repeat split; try assumption; lia.
Qed.

Lemma encrypt_draw_fuel pk fuel1 : forall fuel2 t,
  (length t < fuel1)%nat -> (length t < fuel2)%nat ->
  PublicKey.encrypt_draw fuel1 pk t = PublicKey.encrypt_draw fuel2 pk t.
Proof.
  induction fuel1 as [|fuel1 IH]; intros fuel2 t H1 H2; [lia|].
  destruct fuel2 as [|fuel2]; [lia|].
  cbn [PublicKey.encrypt_draw]. unfold rbind.
  destruct (randBetween (PublicKey.n pk) 1 t) as [[r t1]| |] eqn:E; try reflexivity.
  apply randBetween_Ret in E. destruct E as (_ & Hlen).
  rewrite gcd_spec. unfold lift. cbn [bind].
  destruct (negb (Z.gcd r (PublicKey.n pk) =? 1)); [|reflexivity].
  apply IH; lia.
Qed.

(** [generateDualG] returns a value of [[1, n1]] that is coprime to [n1]
    or to [n2]. *)
Lemma generateDualG_loop_Ret fuel : forall n1 n2 t r t',
  generateDualG_loop fuel n1 n2 t = Ret (r, t') ->
  1 <= r <= n1 /\ (Z.gcd r n1 = 1 \/ Z.gcd r n2 = 1) /\
  (length t' < length t)%nat.
Proof.
  induction fuel as [|fuel IH]; intros n1 n2 t r t' H; [discriminate|].
  cbn [generateDualG_loop] in H.
  apply rbind_Ret in H. destruct H as (r0 & t1 & Hr & H).
  apply randBetween_Ret in Hr. destruct Hr as (Hrange & Hlen).
  apply rbind_Ret in H. destruct H as (d1 & t2 & Hd & H).
  rewrite gcd_spec in Hd. apply lift_Ret in Hd. destruct Hd as (Hd & ->).
  inversion Hd. subst d1. clear Hd.
  apply rbind_Ret in H. destruct H as (again & t3 & Ha & H).
  destruct (Z.eqb_spec (Z.gcd r0 n1) 1) as [E1|E1]; cbn [negb] in Ha.
  - unfold rret in Ha. inversion Ha. subst again t3. clear Ha.
    unfold rret in H. inversion H. subst. auto.
  - apply rbind_Ret in Ha. destruct Ha as (d2 & t4 & Hd & Ha).
    rewrite gcd_spec in Hd. apply lift_Ret in Hd. destruct Hd as (Hd & ->).
    inversion Hd. subst d2. clear Hd.
    unfold rret in Ha. inversion Ha. subst again t3. clear Ha.
    destruct (Z.eqb_spec (Z.gcd r0 n2) 1) as [E2|E2]; cbn [negb] in H.
    + unfold rret in H. inversion H. subst. auto.
    + apply IH in H. destruct H as (? & ? & ?). repeat split; try assumption; lia.
Qed.

Lemma generateDualG_loop_fuel n1 n2 fuel1 : forall fuel2 t,
  (length t < fuel1)%nat -> (length t < fuel2)%nat ->
  generateDualG_loop fuel1 n1 n2 t = generateDualG_loop fuel2 n1 n2 t.
Proof.
  induction fuel1 as [|fuel1 IH]; intros fuel2 t H1 H2; [lia|].
  destruct fuel2 as [|fuel2]; [lia|].
  cbn [generateDualG_loop]. unfold rbind.
  destruct (randBetween n1 1 t) as [[r t1]| |] eqn:E; try reflexivity.
  apply randBetween_Ret in E. destruct E as (_ & Hlen).
  rewrite !gcd_spec. unfold lift, rret. cbn [bind].
  destruct (negb (Z.gcd r n1 =? 1)); cbn [bind]; [|reflexivity].
  destruct (negb (Z.gcd r n2 =? 1)); [|reflexivity].
  apply IH; lia.
Qed.

(** The factoring loop of the Miller-Rabin part ends on every [d <> 0]. *)
Lemma mr_factor_loop_finishes fuel : forall a d,
  d <> 0 -> Z.log2 (Z.abs d) < Z.of_nat fuel ->
  mr_factor_loop fuel a d <> Unfinished.
Proof.
  induction fuel as [|fuel IH]; intros a d Hd Hfuel.
  - pose proof (Z.log2_nonneg (Z.abs d)). lia.
  - cbn [mr_factor_loop].
    destruct (Z.eqb_spec (Z.rem d 2) 0) as [E|E]; [|discriminate].
    pose proof (Z.quot_rem' d 2) as Q. rewrite E in Q.
    assert (Hq : Z.quot d 2 <> 0) by lia.
    apply IH; [assumption|].
    assert (Habs : Z.abs d = 2 * Z.abs (Z.quot d 2)) by lia.
    pose proof (log2_half_lt (Z.abs (Z.quot d 2)) (Z.abs d) ltac:(lia) ltac:(lia)).
    lia.
Qed.

(** The squaring loop of a Miller-Rabin round ends within [a - j] rounds. *)
Lemma mr_square_loop_finishes fuel : forall j a z w,
  a - j < Z.of_nat fuel -> (0 < fuel)%nat ->
  mr_square_loop fuel j a z w <> Unfinished.
Proof.
  induction fuel as [|fuel IH]; intros j a z w Hfuel Hf; [lia|].
  - cbn [mr_square_loop]. destruct (Z.ltb_spec j a); [|discriminate].
    pose proof (modPow_finishes z (BigInt 2) w) as P.
    destruct (modPow z (BigInt 2) w) as [z'| |]; cbn [bind]; try discriminate;
      [|contradiction].
    destruct (value_eqb z' (BigInt (w - 1))); [discriminate|].
    destruct (value_eqb z' (BigInt 1)); [discriminate|].
    apply IH; lia.
Qed.

Lemma mr_loop_fuel w a m fuel1 : forall fuel2 iterations t,
  (length t < fuel1)%nat -> (length t < fuel2)%nat ->
  mr_loop fuel1 iterations w a m t = mr_loop fuel2 iterations w a m t.
Proof.
  induction fuel1 as [|fuel1 IH]; intros fuel2 iterations t H1 H2; [lia|].
  destruct fuel2 as [|fuel2]; [lia|].
  cbn [mr_loop]. unfold rbind.
  destruct (randBetween (w - 1) 2 t) as [[b t1]| |] eqn:E; try reflexivity.
  apply randBetween_Ret in E. destruct E as (_ & Hlen).
  unfold lift.
  destruct (modPow (BigInt b) (BigInt m) w) as [z| |]; cbn [bind]; try reflexivity.
  destruct (if value_eqb z (BigInt 1) || value_eqb z (BigInt (w - 1))
            then Ret true else mr_square_loop (S (Z.to_nat a)) 1 a z w)
    as [[|]| |]; cbn [bind]; try reflexivity.
  destruct (negb (iterations - 1 =? 0)); [|reflexivity].
  apply IH; lia.
Qed.

(** ** Ciphertexts *)

Lemma coprime_square r n : Z.gcd r n = 1 <-> Z.gcd r (n ^ 2) = 1.
Proof.
  split; intros H.
  - apply Z.coprime_pow_r; [lia|assumption].
  - rewrite Z.pow_2_r in H. now apply coprime_factor_l in H.
Qed.

Lemma coprime_mod_nonzero x N : 1 < N -> Z.gcd x N = 1 -> x mod N <> 0.
Proof.
  intros HN Hx E. apply Z.mod_divide in E; [|lia].
  assert (Hd : (N | Z.gcd x N)) by (apply Z.gcd_greatest; [assumption|reflexivity]).
  rewrite Hx in Hd. apply Z.divide_1_r in Hd. lia.
Qed.

(** What [encrypt] returns, for an explicit [r] and for the default draw. *)
Lemma encrypt_Ret pk m r t c t' :
  PublicKey.encrypt pk m r t = Ret (c, t') ->
  exists r0,
    PublicKey.encrypt pk m (Some r0) t' = Ret (c, t') /\
    match r with
    | Some r1 => r0 = r1 /\ t' = t
    | None => 1 <= r0 <= PublicKey.n pk /\ Z.gcd r0 (PublicKey.n pk) = 1
    end.
Proof.
  unfold PublicKey.encrypt. intros H.
  apply rbind_Ret in H. destruct H as (r0 & t1 & Hr & H).
  pose proof H as H'. apply lift_Ret in H'. destruct H' as (_ & ->).
  exists r0. split.
  - unfold rbind, rret. exact H.
  - destruct r as [r1|].
    + unfold rret in Hr. inversion Hr. auto.
    + apply encrypt_draw_Ret in Hr. tauto.
Qed.

(** When the first draw of the default loop is coprime to [n], [encrypt]
    without [r] is [encrypt] with that draw, on the rest of the tape. *)
Lemma encrypt_first_draw pk m t r t1 :
  randBetween (PublicKey.n pk) 1 t = Ret (r, t1) ->
  Z.gcd r (PublicKey.n pk) = 1 ->
  PublicKey.encrypt pk m None t = PublicKey.encrypt pk m (Some r) t1.
Proof.
  intros Hr Hg. unfold PublicKey.encrypt, rbind at 1.
  cbn [PublicKey.encrypt_draw]. unfold rbind at 1. rewrite Hr.
  unfold rbind at 1, lift at 1. rewrite gcd_spec. cbn [bind].
  rewrite Hg. cbn [Z.eqb Pos.eqb negb]. reflexivity.
Qed.

Section Ciphertexts.

Variables (sk : PrivateKey.t) (gz muz : Z).
Hypothesis Hok : key_ok sk gz muz.

Local Abbreviation pk := (PrivateKey.publicKey sk).
Local Abbreviation n := (PrivateKey.n sk).

(** An encryption of [m >= 0] is a unit modulo [n^2], reduced, in the
    class of [m]. *)
Lemma is_encryption_facts m c : 0 <= m -> is_encryption pk m c ->
  0 <= c < n ^ 2 /\ Z.gcd c (n ^ 2) = 1 /\ class sk gz c m.
Proof.
  intros Hm (r & t & t' & He & Hr).
  apply encrypt_Ret in He. destruct He as (r0 & He & Hr0).
  assert (Hg : Z.gcd r0 n = 1).
  { destruct r as [r1|]; [destruct Hr0 as (-> & _); now apply Hr|tauto]. }
  rewrite (encrypt_value sk gz muz Hok m r0 t' Hm) in He.
  assert (Ec : c = (gz ^ m * r0 ^ n) mod n ^ 2) by congruence.
  subst c. clear He.
  pose proof (n2_gt_1 sk gz muz Hok) as Hn2.
  pose proof (n_gt_1 sk gz muz Hok) as Hn.
  split; [apply Z.mod_pos_bound; lia|]. split.
  - rewrite Z.gcd_mod_l. apply (proj1 (coprime_square _ _)).
    apply Z.coprime_mul_l; apply Z.coprime_pow_l; try lia.
    + exact (ok_g_unit _ _ _ Hok).
    + assumption.
  - now apply (encrypt_class sk gz muz Hok).
Qed.

End Ciphertexts.

Lemma addition_rem pk cs : PublicKey._n2 pk <> 0 ->
  PublicKey.addition pk cs =
  Ret (BigInt (fold_left (fun sum next => Z.rem (sum * next) (PublicKey._n2 pk)) cs 1)).
Proof.
  intros Hn. unfold PublicKey.addition. generalize 1 as acc.
  induction cs as [|c rest IH]; intros acc; cbn [fold_left]; [reflexivity|].
  cbn [bind js_mul js_rem].
  destruct (Z.eqb_spec (PublicKey._n2 pk) 0); [contradiction|].
  apply IH.
Qed.

Lemma fold_rem_mod N cs : 0 < N -> Forall (fun c => 0 <= c) cs ->
  forall acc, 0 <= acc ->
  fold_left (fun sum next => Z.rem (sum * next) N) cs acc =
  match cs with
  | [] => acc
  | _ => (acc * fold_right Z.mul 1 cs) mod N
  end.
Proof.
  intros HN Hcs. induction Hcs as [|c rest Hc Hrest IH]; intros acc Hacc; [reflexivity|].
  cbn [fold_left fold_right].
  rewrite Z.rem_mod_nonneg by nia.
  rewrite IH by (apply Z.mod_pos_bound; lia).
  destruct rest as [|c' rest'].
  - cbn [fold_right]. now rewrite Z.mul_1_r.
  - rewrite Z.mul_mod_idemp_l by lia. f_equal. ring.
Qed.

Section Homomorphisms.

Variables (sk : PrivateKey.t) (gz muz : Z).
Hypothesis Hok : key_ok sk gz muz.

Local Abbreviation pk := (PrivateKey.publicKey sk).
Local Abbreviation n := (PrivateKey.n sk).

Lemma encryptions_facts ms cs :
  Forall (fun m => 0 <= m) ms -> Forall2 (is_encryption pk) ms cs ->
  Forall (fun c => 0 <= c) cs /\
  class sk gz (fold_right Z.mul 1 cs) (fold_right Z.add 0 ms).
Proof.
  intros Hms Henc. induction Henc as [|m c ms cs Hmc Hrest IH]; cbn [fold_right].
  - split; [constructor|]. apply (class_one sk gz muz Hok).
  - inversion Hms as [|? ? Hm Hms']. subst.
    destruct (IH Hms') as (Hcs & Hcl).
    destruct (is_encryption_facts sk gz muz Hok m c Hm Hmc) as (Bc & _ & Hc).
    split; [constructor; [lia|assumption]|].
    now apply (class_mul sk gz).
Qed.

(** The product of encryptions, as [addition] computes it, decrypts to
    the sum of the plaintexts. *)
Lemma addition_encryptions ms cs :
  (1 <= length ms)%nat ->
  Forall (fun m => 0 <= m) ms -> Forall2 (is_encryption pk) ms cs ->
  PublicKey.addition pk cs = Ret (BigInt (fold_right Z.mul 1 cs mod n ^ 2)) /\
  PrivateKey.decrypt sk (fold_right Z.mul 1 cs mod n ^ 2) =
  Ret (BigInt (fold_right Z.add 0 ms mod n)).
Proof.
  intros Hlen Hms Henc.
  destruct (encryptions_facts ms cs Hms Henc) as (Hcs & Hcl).
  pose proof (n2_gt_1 sk gz muz Hok) as Hn2.
  split.
  - rewrite addition_rem by (rewrite (ok_n2 _ _ _ Hok); lia).
    rewrite (ok_n2 _ _ _ Hok), fold_rem_mod by (try assumption; lia).
    destruct cs as [|c cs'].
    + apply Forall2_length in Henc. cbn in Henc. lia.
    + now rewrite Z.mul_1_l.
  - apply (decrypt_class sk gz muz Hok). now apply (class_mod sk gz).
Qed.

(** [multiply] of an encryption of [m] by any integer [k]. *)
Lemma multiply_encryption m c k : 0 <= m -> is_encryption pk m c ->
  exists v,
    PublicKey.multiply pk c k = Ret (BigInt v) /\
    (0 <= k -> v = c ^ k mod n ^ 2) /\
    (k < 0 -> 0 <= v < n ^ 2 /\ (v * c ^ (- k)) mod n ^ 2 = 1) /\
    PrivateKey.decrypt sk v = Ret (BigInt ((k * m) mod n)).
Proof.
  intros Hm Henc.
  destruct (is_encryption_facts sk gz muz Hok m c Hm Henc) as (Bc & Hu & Hc).
  pose proof (n2_gt_1 sk gz muz Hok) as Hn2.
  unfold PublicKey.multiply. rewrite (ok_n2 _ _ _ Hok).
  destruct (Z.lt_ge_cases k 0) as [Hneg|Hpos].
  - rewrite modPow_neg by lia.
    destruct (modInv_coprime (c ^ (- k) mod n ^ 2) (n ^ 2)) as (v & Hv & Bv & Iv).
    + lia.
    + rewrite Z.mod_mod by lia. apply coprime_mod_nonzero; [assumption|].
      apply Z.coprime_pow_l; [lia|assumption].
    + rewrite Z.gcd_mod_l. apply Z.coprime_pow_l; [lia|assumption].
    + rewrite Z.mul_mod_idemp_l, Z.mul_comm in Iv by lia.
      exists v. split; [assumption|]. split; [lia|]. split; [auto|].
      apply (decrypt_class sk gz muz Hok).
      replace (k * m) with (- (- k * m)) by ring.
      apply (class_inv sk gz muz Hok (c ^ (- k))); [|assumption].
      apply (class_pow sk gz muz Hok); [lia|assumption].
  - rewrite modPow_pow by lia.
    exists (c ^ k mod n ^ 2). split; [reflexivity|]. split; [reflexivity|].
    split; [lia|].
    apply (decrypt_class sk gz muz Hok). apply (class_mod sk gz).
    now apply (class_pow sk gz muz Hok).
Qed.

End Homomorphisms.

(** ** Recovery of the random factor *)

Lemma distinct_primes_phi p q : Z.prime p -> Z.prime q -> p <> q ->
  1 < (p - 1) * (q - 1).
Proof.
  intros Hp Hq Hne.
  pose proof (Z.prime_ge_2 p Hp). pose proof (Z.prime_ge_2 q Hq).
  destruct (Z.eq_dec p 2) as [->|]; [|destruct (Z.eq_dec q 2) as [->|]]; nia.
Qed.

Lemma pow_one_mod_phi r n phi e : 1 < n -> 0 < phi -> 0 <= e ->
  r ^ phi mod n = 1 -> e mod phi = 1 -> r ^ e mod n = r mod n.
Proof.
  intros Hn Hphi He Hr Hmod.
  pose proof (Z.div_mod e phi ltac:(lia)) as E. rewrite Hmod in E.
  assert (Hk : 0 <= e / phi) by (apply Z.div_pos; lia).
  rewrite E, Z.pow_add_r, Z.pow_1_r, Z.pow_mul_r by nia.
  rewrite <- Z.mul_mod_idemp_l, <- Z.mod_pow_l, Hr, Z.pow_1_l by lia.
  now rewrite Z.mul_mod_idemp_l, Z.mul_1_l by lia.
Qed.

(** On a simple-variant key that holds [p] and [q], [getRandomFactor]
    applied to [g^m r^n mod n^2] returns [r mod n]. *)
Lemma getRandomFactor_simple p q kp m r :
  simple_keypair p q kp -> 0 <= m < p * q -> Z.gcd r (p * q) = 1 ->
  PrivateKey.getRandomFactor (privateKey kp)
    (((p * q + 1) ^ m * r ^ (p * q)) mod (p * q) ^ 2) =
  Ret (BigInt (r mod (p * q))).
Proof.
  intros Hs Hm Hr.
  pose proof Hs as (Hp & Hq & Hne & _ & _).
  destruct (simple_keypair_ok p q kp Hs)
    as (muz & Hok & Hpk & Hn & Hlam & Hsp & Hsq & Hco).
  pose proof (primes_product p q Hp Hq) as Hn1.
  pose proof (distinct_primes_phi p q Hp Hq Hne) as Hphi.
  assert (Hn2 : 1 < (p * q) ^ 2) by nia.
  set (c := ((p * q + 1) ^ m * r ^ (p * q)) mod (p * q) ^ 2).
  unfold PrivateKey.getRandomFactor.
  rewrite (ok_g _ _ _ Hok), Hn. cbn [value_eqb].
  rewrite Z.eqb_refl. cbn [negb].
  assert (Hdec : PrivateKey.decrypt (privateKey kp) c = Ret (BigInt m)).
  { pose proof (encrypt_class _ _ _ Hok m r) as Hcl.
    rewrite Hn in Hcl. specialize (Hcl ltac:(lia) Hr).
    unfold c. rewrite (decrypt_class _ _ _ Hok _ m Hcl).
    rewrite Hn. now rewrite Z.mod_small. }
  rewrite Hdec, Hsp, Hsq. cbn [bind PrivateKey.prime_minus_1].
  destruct (modInv_coprime (p * q) ((p - 1) * (q - 1))) as (e & He & Be & Ie).
  { lia. }
  { apply coprime_mod_nonzero; [assumption|]. now rewrite Z.gcd_comm. }
  { now rewrite Z.gcd_comm. }
  rewrite He. cbn [bind js_mul js_sub js_rem].
  rewrite (ok_n2 _ _ _ Hok), Hn.
  destruct (Z.eqb_spec ((p * q) ^ 2) 0) as [E0|E0]; [lia|]. clear E0.
  cbn [bind]. rewrite modPow_pow by lia.
  do 2 f_equal.
  rewrite <- Z.mod_pow_l.
  rewrite rem_mod_divide by (try lia; exists (p * q); ring).
  replace (c * (1 - m * (p * q))) with (c + (- (c * m)) * (p * q)) by ring.
  rewrite Z.mod_add by lia.
  assert (Hc : c mod (p * q) = r ^ (p * q) mod (p * q)).
  { unfold c. rewrite Z.mod_mod_divide by (exists (p * q); ring).
    rewrite <- Z.mul_mod_idemp_l, <- Z.mod_pow_l by lia.
    replace ((p * q + 1) mod (p * q)) with 1
      by (rewrite Z.add_comm, Z.add_mod, Z.mod_same, Z.add_0_r, Z.mod_mod, Z.mod_1_l; lia).
    now rewrite Z.pow_1_l, Z.mod_1_l, Z.mul_1_l by lia. }
  rewrite Hc, Z.mod_pow_l, <- Z.pow_mul_r by lia.
  apply (pow_one_mod_phi r (p * q) ((p - 1) * (q - 1))); try lia.
  pose proof (ok_units _ _ _ Hok r) as U. rewrite Hn, Hlam in U. now apply U.
Qed.

(** ** The dual generator and the errors of [getRandomFactor] *)

(** What [generateDualG] does guarantee: the value is in [[1, n1]] and
    coprime to one of the two moduli. *)
Lemma generateDualG_Ret n1 n2 t r t' :
  generateDualG n1 n2 t = Ret (r, t') ->
  1 <= r <= n1 /\ (Z.gcd r n1 = 1 \/ Z.gcd r n2 = 1).
Proof.
  unfold generateDualG. intros H.
  apply generateDualG_loop_Ret in H. tauto.
Qed.

Lemma value_eqb_false x z : x <> BigInt z -> value_eqb x (BigInt z) = false.
Proof.
  intros H. destruct x as [y|]; [|reflexivity]. cbn.
  apply Z.eqb_neq. congruence.
Qed.

Lemma value_eqb_true z : value_eqb (BigInt z) (BigInt z) = true.
Proof. apply Z.eqb_refl. Qed.

(** ** Summary of [modPow] *)

(** Where the claim C7 holds: the modulus [0] gives [NaN]; for [n > 0] and
    [b >= 0], the modulus [1] with the exponent [0] apart, the result is
    [a^b mod n], in [[0, n)]; for [b < 0] the result is what [modInv]
    returns on the power with the exponent negated, the inverse modulo [n]
    when there is one. *)
Lemma modPow_summary a b n :
  modPow (BigInt a) (BigInt b) 0 = Ret NaN /\
  (0 < n -> 0 <= b -> (n <> 1 \/ b <> 0) ->
   modPow (BigInt a) (BigInt b) n = Ret (BigInt (a ^ b mod n)) /\
   0 <= a ^ b mod n < n) /\
  (0 < n -> b < 0 ->
   modPow (BigInt a) (BigInt b) n = modInv (BigInt (a ^ (- b) mod n)) n /\
   forall x, modPow (BigInt a) (BigInt b) n = Ret (BigInt x) ->
             0 <= x < n /\ (a ^ (- b) * x) mod n = 1).
Proof.
  split; [reflexivity|]. split.
  - intros Hn Hb Hne. split; [|apply Z.mod_pos_bound; lia].
    rewrite modPow_spec by assumption.
    destruct (Z.eqb_spec b 0) as [->|]; [|reflexivity].
    rewrite Z.pow_0_r, Z.mod_1_l by lia. reflexivity.
  - intros Hn Hb. split; [now apply modPow_neg|].
    intros x Hx. rewrite modPow_neg in Hx by assumption.
    apply modInv_BigInt in Hx. destruct Hx as (_ & Bx & Ix & _).
    split; [assumption|]. now rewrite Z.mul_mod_idemp_l in Ix by lia.
Qed.

(** ** The prefilter of the primality test *)

Lemma firstPrimes_checked :
  forallb (fun x => prime_check x && (3 <=? x) && (x <=? 1597)) firstPrimes = true.
Proof. vm_compute. reflexivity. Qed.

(** Every number of [[3, 1597]] is in [firstPrimes] or has a proper
    divisor among the primes up to 37. *)
Lemma composites_checked :
  forallb (fun k =>
             existsb (Z.eqb (Z.of_nat k)) firstPrimes ||
             existsb (fun d => (d <? Z.of_nat k) && (Z.of_nat k mod d =? 0))
               [2; 3; 5; 7; 11; 13; 17; 19; 23; 29; 31; 37])
    (seq 3 1595) = true.
Proof. vm_compute. reflexivity. Qed.

(** [firstPrimes] holds the 250 odd primes up to 1597. *)
Lemma firstPrimes_are_the_odd_primes :
  length firstPrimes = 250%nat /\
  forall p, In p firstPrimes <-> Z.prime p /\ 3 <= p <= 1597.
Proof.
  split; [reflexivity|]. intros p. split.
  - intros Hin.
    pose proof firstPrimes_checked as Hall.
    rewrite forallb_forall in Hall. apply Hall in Hin.
    apply andb_true_iff in Hin. destruct Hin as [Hin H3].
    apply andb_true_iff in Hin. destruct Hin as [H1 H2].
    apply prime_check_sound in H1. apply Z.leb_le in H2, H3. auto.
  - intros [Hp Hr].
    pose proof composites_checked as Hall.
    rewrite forallb_forall in Hall.
    specialize (Hall (Z.to_nat p)). rewrite Z2Nat.id in Hall by lia.
    assert (Hin : In (Z.to_nat p) (seq 3 1595)) by (apply in_seq; lia).
    apply Hall in Hin. apply orb_true_iff in Hin. destruct Hin as [Hin|Hdiv].
    + apply existsb_exists in Hin.
      destruct Hin as (x & Hx & E). apply Z.eqb_eq in E. now subst x.
    + exfalso. apply existsb_exists in Hdiv. destruct Hdiv as (d & Hd & E).
      apply andb_true_iff in E. destruct E as [Hlt Hmod].
      apply Z.ltb_lt in Hlt. apply Z.eqb_eq in Hmod.
      assert (Hd1 : 1 < d) by (cbn in Hd; intuition lia).
      destruct Hp as [_ Hp]. apply (Hp d); [lia|].
      apply Z.mod_divide; [lia|assumption].
Qed.

Lemma increasing_split ps : forall lo, increasing lo ps = true ->
  forall ps1 p ps2, ps = ps1 ++ p :: ps2 ->
  lo < p /\ Forall (fun x => lo < x < p) ps1.
Proof.
  induction ps as [|x rest IH]; intros lo Hinc ps1 p ps2 E.
  - destruct ps1; discriminate.
  - cbn [increasing] in Hinc. apply andb_true_iff in Hinc.
    destruct Hinc as [Hx Hrest]. apply Z.ltb_lt in Hx.
    destruct ps1 as [|y ps1]; cbn [app] in E; injection E as Ex Erest.
    + subst. split; [assumption|constructor].
    + subst y. destruct (IH x Hrest ps1 p ps2 Erest) as (Hp & Hall).
      split; [lia|]. constructor; [lia|].
      eapply Forall_impl; [|exact Hall]. cbn. intros; lia.
Qed.

Lemma firstPrimes_sorted ps1 p ps2 :
  firstPrimes = ps1 ++ p :: ps2 -> Forall (fun x => 0 < x < p) ps1.
Proof.
  intros E. apply (increasing_split firstPrimes 0) in E; [tauto|].
  vm_compute. reflexivity.
Qed.

(** Trial division answers [false] as soon as a listed number divides
    [w], provided that the numbers before it are smaller. *)
Lemma trial_division_divisor w : 0 < w -> forall ps1 p ps2,
  Forall (fun x => 0 < x < p) ps1 -> 0 < p -> (p | w) -> w <> p ->
  trial_division (ps1 ++ p :: ps2) w = Some false.
Proof.
  intros Hw ps1 p ps2 Hsmall Hp Hdiv Hne.
  assert (Hle : p <= w) by (apply Z.divide_pos_le; assumption).
  induction Hsmall as [|x rest Hx Hrest IH]; cbn [app trial_division].
  - destruct (Z.leb_spec p w); [|lia].
    destruct (Z.eqb_spec w p); [contradiction|].
    apply Z.rem_divide in Hdiv; [|lia]. now rewrite Hdiv.
  - destruct (Z.leb_spec x w); [|lia].
    destruct (Z.eqb_spec w x); [lia|].
    destruct (Z.rem w x =? 0); [reflexivity|exact IH].
Qed.

(** Trial division leaves the decision open when no listed number
    divides [w]. *)
Lemma trial_division_none w ps :
  Forall (fun x => x <> 0 /\ ~ (x | w)) ps -> trial_division ps w = None.
Proof.
  induction 1 as [|x rest [Hnz Hnd] Hrest IH]; cbn [trial_division]; [reflexivity|].
  destruct (x <=? w); [|reflexivity].
  destruct (Z.eqb_spec w x) as [->|]; [exfalso; apply Hnd; reflexivity|].
  destruct (Z.eqb_spec (Z.rem w x) 0) as [E|E]; [|exact IH].
  exfalso. apply Hnd. apply Z.rem_divide; assumption.
Qed.

Lemma firstPrimes_positive p : In p firstPrimes -> 0 < p.
Proof. intros H. apply firstPrimes_are_the_odd_primes in H. lia. Qed.

(** * The claims *)

(** C1. Correctness: for every valid key pair (simple or general variant)
    and every message [m] with [0 <= m < n], decrypting an encryption of
    [m] returns [m].  With an explicit [r] coprime to [n], [encrypt]
    returns a ciphertext that decrypts to [m]; whenever [encrypt] returns
    with the default draw, it drew some [r] of [[1, n]] coprime to [n],
    returned the ciphertext of that [r], and the ciphertext decrypts to
    [m]; and it does return, with such a ciphertext, when the first draw
    of [randBetween(n)] is coprime to [n]. *)
Theorem decrypt_encrypt kp m :
  valid_keypair kp -> 0 <= m < PublicKey.n (publicKey kp) ->
  (forall r tape, Z.gcd r (PublicKey.n (publicKey kp)) = 1 ->
     exists c,
       PublicKey.encrypt (publicKey kp) m (Some r) tape = Ret (BigInt c, tape) /\
       PrivateKey.decrypt (privateKey kp) c = Ret (BigInt m)) /\
  (forall tape c tape',
     PublicKey.encrypt (publicKey kp) m None tape = Ret (c, tape') ->
     exists r cz,
       1 <= r <= PublicKey.n (publicKey kp) /\
       Z.gcd r (PublicKey.n (publicKey kp)) = 1 /\
       c = BigInt cz /\
       PublicKey.encrypt (publicKey kp) m (Some r) tape' = Ret (c, tape') /\
       PrivateKey.decrypt (privateKey kp) cz = Ret (BigInt m)) /\
  (forall tape r tape',
     randBetween (PublicKey.n (publicKey kp)) 1 tape = Ret (r, tape') ->
     Z.gcd r (PublicKey.n (publicKey kp)) = 1 ->
     exists c,
       PublicKey.encrypt (publicKey kp) m None tape = Ret (BigInt c, tape') /\
       PrivateKey.decrypt (privateKey kp) c = Ret (BigInt m)).
Proof.
  intros Hv Hm.
  destruct (valid_keypair_ok kp Hv) as (gz & muz & Hok & Hpk).
  rewrite <- Hpk in *.
  change (PublicKey.n (PrivateKey.publicKey (privateKey kp)))
    with (PrivateKey.n (privateKey kp)) in *.
  assert (Hdec : forall r, Z.gcd r (PrivateKey.n (privateKey kp)) = 1 ->
            PrivateKey.decrypt (privateKey kp)
              ((gz ^ m * r ^ PrivateKey.n (privateKey kp))
               mod PrivateKey.n (privateKey kp) ^ 2) = Ret (BigInt m)).
  { intros r Hr.
    rewrite (decrypt_class _ _ _ Hok _ m)
      by (apply (encrypt_class _ _ _ Hok); [lia|assumption]).
    now rewrite Z.mod_small. }
  split; [|split].
  - intros r tape Hr. eexists. split.
    + apply (encrypt_value _ _ _ Hok). lia.
    + now apply Hdec.
  - intros tape c tape' He.
    apply encrypt_Ret in He. destruct He as (r & He & Hrange & Hr).
    change (PublicKey.n (PrivateKey.publicKey (privateKey kp)))
      with (PrivateKey.n (privateKey kp)) in *.
    exists r, ((gz ^ m * r ^ PrivateKey.n (privateKey kp))
               mod PrivateKey.n (privateKey kp) ^ 2).
    rewrite (encrypt_value _ _ _ Hok) in He by lia.
    assert (Ec : c = BigInt ((gz ^ m * r ^ PrivateKey.n (privateKey kp))
                             mod PrivateKey.n (privateKey kp) ^ 2)) by congruence.
    subst c. repeat split; try lia; try assumption.
    + apply (encrypt_value _ _ _ Hok). lia.
    + now apply Hdec.
  - intros tape r tape' Hdraw Hr. eexists. split.
    + rewrite (encrypt_first_draw _ m tape r tape' Hdraw Hr).
      apply (encrypt_value _ _ _ Hok). lia.
    + now apply Hdec.
Qed.

Lemma decrypt_encrypt_witness :
  valid_keypair kp_11_13 /\ 0 <= 7 < PublicKey.n (publicKey kp_11_13) /\
  (exists c,
     PublicKey.encrypt (publicKey kp_11_13) 7 (Some 2) [] = Ret (BigInt c, []) /\
     PrivateKey.decrypt (privateKey kp_11_13) c = Ret (BigInt 7)) /\
  (exists c,
     PublicKey.encrypt (publicKey kp_11_13) 7 None [Byte.x2a] = Ret (BigInt c, []) /\
     PrivateKey.decrypt (privateKey kp_11_13) c = Ret (BigInt 7)).
Proof.
  assert (Hv : valid_keypair kp_11_13) by prove_valid_keypair 11 13.
  assert (Hm : 0 <= 7 < PublicKey.n (publicKey kp_11_13)) by (cbn; lia).
  split; [exact Hv|]. split; [exact Hm|]. split.
  - apply (proj1 (decrypt_encrypt kp_11_13 7 Hv Hm) 2 []).
    vm_compute. reflexivity.
  - apply (proj2 (proj2 (decrypt_encrypt kp_11_13 7 Hv Hm)) [Byte.x2a] 1 []);
      vm_compute; reflexivity.
Defined.

(** C2. Additive homomorphism: for every valid key pair and every list of
    [k >= 2] messages of [[0, n)], [addition] applied to encryptions of the
    messages returns the product of the ciphertexts modulo [n^2], and the
    result decrypts to the sum of the messages modulo [n]. *)
Theorem addition_homomorphic kp ms cs :
  valid_keypair kp -> (2 <= length ms)%nat ->
  Forall (fun m => 0 <= m < PublicKey.n (publicKey kp)) ms ->
  Forall2 (is_encryption (publicKey kp)) ms cs ->
  PublicKey.addition (publicKey kp) cs =
    Ret (BigInt (fold_right Z.mul 1 cs mod PublicKey.n (publicKey kp) ^ 2)) /\
  PrivateKey.decrypt (privateKey kp)
    (fold_right Z.mul 1 cs mod PublicKey.n (publicKey kp) ^ 2) =
    Ret (BigInt (fold_right Z.add 0 ms mod PublicKey.n (publicKey kp))).
Proof.
  intros Hv Hlen Hms Henc.
  destruct (valid_keypair_ok kp Hv) as (gz & muz & Hok & Hpk).
  rewrite <- Hpk in *.
  apply (addition_encryptions _ gz muz Hok); [lia| |assumption].
  eapply Forall_impl; [|exact Hms]. cbn. intros; lia.
Qed.

Lemma addition_homomorphic_witness :
  valid_keypair kp_17_19 /\ (2 <= length [5; 9])%nat /\
  Forall (fun m => 0 <= m < PublicKey.n (publicKey kp_17_19)) [5; 9] /\
  Forall2 (is_encryption (publicKey kp_17_19)) [5; 9] [99152; 90263] /\
  PublicKey.addition (publicKey kp_17_19) [99152; 90263] =
    Ret (BigInt (fold_right Z.mul 1 [99152; 90263]
                 mod PublicKey.n (publicKey kp_17_19) ^ 2)) /\
  PrivateKey.decrypt (privateKey kp_17_19)
    (fold_right Z.mul 1 [99152; 90263] mod PublicKey.n (publicKey kp_17_19) ^ 2) =
    Ret (BigInt (fold_right Z.add 0 [5; 9] mod PublicKey.n (publicKey kp_17_19))).
Proof.
  assert (Hv : valid_keypair kp_17_19) by prove_valid_keypair 17 19.
  assert (Hlen : (2 <= length [5; 9])%nat) by (cbn; lia).
  assert (Hms : Forall (fun m => 0 <= m < PublicKey.n (publicKey kp_17_19)) [5; 9])
    by (repeat constructor; cbn; lia).
  assert (Henc : Forall2 (is_encryption (publicKey kp_17_19)) [5; 9] [99152; 90263]).
  { repeat constructor.
    - exists (Some 2), [], []. split; [vm_compute; reflexivity|].
      intros r0 E. injection E as <-. vm_compute. reflexivity.
    - exists (Some 3), [], []. split; [vm_compute; reflexivity|].
      intros r0 E. injection E as <-. vm_compute. reflexivity. }
  split; [exact Hv|]. split; [exact Hlen|].
  split; [exact Hms|]. split; [exact Henc|].
  exact (addition_homomorphic kp_17_19 [5; 9] [99152; 90263]
           Hv Hlen Hms Henc).
Defined.

(** C3. Scalar multiplication: for every valid key pair, every message
    [m] of [[0, n)], every encryption [c] of [m] and every integer [k],
    [multiply(c, k)] returns [c^k mod n^2] (for negative [k], the inverse
    of [c^|k|] modulo [n^2]), and the result decrypts to [k m mod n]. *)
Theorem multiply_homomorphic kp m c k :
  valid_keypair kp -> 0 <= m < PublicKey.n (publicKey kp) ->
  is_encryption (publicKey kp) m c ->
  exists v,
    PublicKey.multiply (publicKey kp) c k = Ret (BigInt v) /\
    (0 <= k -> v = c ^ k mod PublicKey.n (publicKey kp) ^ 2) /\
    (k < 0 -> 0 <= v < PublicKey.n (publicKey kp) ^ 2 /\
              (v * c ^ (- k)) mod PublicKey.n (publicKey kp) ^ 2 = 1) /\
    PrivateKey.decrypt (privateKey kp) v =
      Ret (BigInt ((k * m) mod PublicKey.n (publicKey kp))).
Proof.
  intros Hv Hm Henc.
  destruct (valid_keypair_ok kp Hv) as (gz & muz & Hok & Hpk).
  rewrite <- Hpk in *.
  apply (multiply_encryption _ gz muz Hok); [lia|assumption].
Qed.

Lemma multiply_homomorphic_witness :
  valid_keypair kp_17_19 /\ 0 <= 5 < PublicKey.n (publicKey kp_17_19) /\
  is_encryption (publicKey kp_17_19) 5 99152 /\
  exists v,
    PublicKey.multiply (publicKey kp_17_19) 99152 4 = Ret (BigInt v) /\
    (0 <= 4 -> v = 99152 ^ 4 mod PublicKey.n (publicKey kp_17_19) ^ 2) /\
    (4 < 0 -> 0 <= v < PublicKey.n (publicKey kp_17_19) ^ 2 /\
              (v * 99152 ^ (- (4))) mod PublicKey.n (publicKey kp_17_19) ^ 2 = 1) /\
    PrivateKey.decrypt (privateKey kp_17_19) v =
      Ret (BigInt ((4 * 5) mod PublicKey.n (publicKey kp_17_19))).
Proof.
  assert (Hv : valid_keypair kp_17_19) by prove_valid_keypair 17 19.
  assert (Hm : 0 <= 5 < PublicKey.n (publicKey kp_17_19)) by (cbn; lia).
  assert (Henc : is_encryption (publicKey kp_17_19) 5 99152).
  { exists (Some 2), [], []. split; [vm_compute; reflexivity|].
    intros r0 E. injection E as <-. vm_compute. reflexivity. }
  split; [exact Hv|]. split; [exact Hm|]. split; [exact Henc|].
  exact (multiply_homomorphic kp_17_19 5 99152 4 Hv Hm Henc).
Defined.

(** C4 (amended: [mu] is 87). Randomness recovery: for every
    simple-variant key pair ([g = n + 1]) whose private key holds [p] and
    [q], every [m] of [[0, n)] and every [r] coprime to [n],
    [getRandomFactor(encrypt(m, r))] is [r mod n].  With [p = 11] and
    [q = 13], [keysFromPrimesSimple] returns the key with [n = 143],
    [g = 144], [lambda = 120] and [mu = 87]; [encrypt(7, 2)] is
    [144^7 * 2^143 mod 20449], it decrypts to [7] and its random factor
    is [2]. *)
Theorem getRandomFactor_encrypt p q kp m r tape :
  simple_keypair p q kp ->
  0 <= m < PublicKey.n (publicKey kp) ->
  Z.gcd r (PublicKey.n (publicKey kp)) = 1 ->
  (PublicKey.g (publicKey kp) = BigInt (PublicKey.n (publicKey kp) + 1) /\
   PrivateKey._p (privateKey kp) = Some p /\
   PrivateKey._q (privateKey kp) = Some q /\
   exists c,
     PublicKey.encrypt (publicKey kp) m (Some r) tape = Ret (BigInt c, tape) /\
     PrivateKey.getRandomFactor (privateKey kp) c =
       Ret (BigInt (r mod PublicKey.n (publicKey kp)))) /\
  (keysFromPrimesSimple 11 13 = Ret kp_11_13 /\
   PublicKey.n (publicKey kp_11_13) = 143 /\
   PublicKey.g (publicKey kp_11_13) = BigInt 144 /\
   PrivateKey.lambda (privateKey kp_11_13) = 120 /\
   PrivateKey.mu (privateKey kp_11_13) = BigInt 87 /\
   PublicKey.encrypt (publicKey kp_11_13) 7 (Some 2) tape =
     Ret (BigInt ((144 ^ 7 * 2 ^ 143) mod 20449), tape) /\
   PrivateKey.decrypt (privateKey kp_11_13) ((144 ^ 7 * 2 ^ 143) mod 20449) =
     Ret (BigInt 7) /\
   PrivateKey.getRandomFactor (privateKey kp_11_13) ((144 ^ 7 * 2 ^ 143) mod 20449) =
     Ret (BigInt 2)).
Proof.
  intros Hs Hm Hr. split.
  - destruct (simple_keypair_ok p q kp Hs)
      as (muz & Hok & Hpk & Hn & Hlam & Hsp & Hsq & Hco).
    rewrite <- Hpk in *.
    change (PublicKey.n (PrivateKey.publicKey (privateKey kp)))
      with (PrivateKey.n (privateKey kp)) in *.
    split; [rewrite (ok_g _ _ _ Hok), Hn; reflexivity|].
    split; [assumption|]. split; [assumption|].
    eexists. split.
    + apply (encrypt_value _ _ _ Hok). lia.
    + rewrite Hn in *. now apply getRandomFactor_simple.
  - repeat split; vm_compute; reflexivity.
Qed.

(** The value [mu = 24] does not invert [lambda = 120] modulo [143], and
    it is not the [mu] of the key that [keysFromPrimesSimple(11, 13)]
    returns. *)
Lemma mu_11_13_is_not_24 :
  ~ (exists kp, keysFromPrimesSimple 11 13 = Ret kp /\
                PublicKey.n (publicKey kp) = 143 /\
                PublicKey.g (publicKey kp) = BigInt 144 /\
                PrivateKey.lambda (privateKey kp) = 120 /\
                PrivateKey.mu (privateKey kp) = BigInt 24).
Proof.
  intros (kp & Hk & _ & _ & _ & Hmu).
  vm_compute in Hk. injection Hk as <-. discriminate Hmu.
Qed.

Lemma getRandomFactor_encrypt_witness :
  simple_keypair 11 13 kp_11_13 /\
  0 <= 7 < PublicKey.n (publicKey kp_11_13) /\
  Z.gcd 2 (PublicKey.n (publicKey kp_11_13)) = 1 /\
  exists c,
    PublicKey.encrypt (publicKey kp_11_13) 7 (Some 2) [] = Ret (BigInt c, []) /\
    PrivateKey.getRandomFactor (privateKey kp_11_13) c =
      Ret (BigInt (2 mod PublicKey.n (publicKey kp_11_13))).
Proof.
  assert (Hs : simple_keypair 11 13 kp_11_13) by prove_simple_keypair.
  assert (Hm : 0 <= 7 < PublicKey.n (publicKey kp_11_13)) by (cbn; lia).
  assert (Hr : Z.gcd 2 (PublicKey.n (publicKey kp_11_13)) = 1) by (vm_compute; reflexivity).
  split; [exact Hs|]. split; [exact Hm|]. split; [exact Hr|].
  exact (proj2 (proj2 (proj2 (proj1
           (getRandomFactor_encrypt 11 13 kp_11_13 7 2 [] Hs Hm Hr))))).
Defined.

(** C5 (the code differs). On [n1 = 15] and [n2 = 21], with the random
    bytes [0x02] and [0x04], [generateDualG] first draws [3], which shares
    a factor with both moduli and is rejected, then draws [5] and returns
    it, although [gcd(5, 15) = 5]: the loop stops as soon as one of the
    two gcds is [1]. *)
Theorem generateDualG_not_coprime_to_both :
  generateDualG 15 21 [Byte.x02; Byte.x04] = Ret (5, []) /\
  gcd 5 15 = Ret 5 /\ gcd 5 21 = Ret 1 /\ Z.gcd 5 15 <> 1.
Proof. repeat split; try (vm_compute; reflexivity). discriminate. Qed.

(** C6 (amended). [getRandomFactor(c)] throws the invalid-state error
    whenever the generator of the key is not [n + 1].  When the generator
    is [n + 1] and [p] or [q] is absent, it does not return a value; once
    [decrypt(c)] has returned, what it throws is the [TypeError] of the
    engine for arithmetic on [null] and a bigint, which is not the
    invalid-state error. *)
Theorem getRandomFactor_errors sk c :
  (PublicKey.g (PrivateKey.publicKey sk) <> BigInt (PrivateKey.n sk + 1) ->
   PrivateKey.getRandomFactor sk c = Throw PrivateKey.not_simple_variant /\
   InvalidState PrivateKey.not_simple_variant) /\
  (PublicKey.g (PrivateKey.publicKey sk) = BigInt (PrivateKey.n sk + 1) ->
   PrivateKey._p sk = None \/ PrivateKey._q sk = None ->
   (forall v, PrivateKey.getRandomFactor sk c <> Ret v) /\
   (forall m, PrivateKey.decrypt sk c = Ret m ->
              PrivateKey.getRandomFactor sk c = Throw mixed_types) /\
   ~ InvalidState mixed_types).
Proof.
  split.
  - intros Hg. unfold PrivateKey.getRandomFactor.
    rewrite value_eqb_false by assumption. split; reflexivity.
  - intros Hg Hnull.
    assert (Hthrow : forall m, PrivateKey.decrypt sk c = Ret m ->
              PrivateKey.getRandomFactor sk c = Throw mixed_types).
    { intros m Hm. unfold PrivateKey.getRandomFactor.
      rewrite Hg, value_eqb_true, Hm. cbn [negb bind].
      destruct Hnull as [-> | ->]; [reflexivity|].
      destruct (PrivateKey._p sk); reflexivity. }
    split; [|split; [exact Hthrow|discriminate]].
    intros v Hv.
    destruct (PrivateKey.decrypt sk c) as [m| |] eqn:Hd.
    + rewrite (Hthrow m eq_refl) in Hv. discriminate.
    + unfold PrivateKey.getRandomFactor in Hv.
      rewrite Hg, value_eqb_true, Hd in Hv. discriminate.
    + unfold PrivateKey.getRandomFactor in Hv.
      rewrite Hg, value_eqb_true, Hd in Hv. discriminate.
Qed.

(** On the simple-variant key of the scenario stored without its primes,
    [getRandomFactor] of the encryption of [7] throws the [TypeError] of
    the engine, which is not the invalid-state error. *)
Lemma getRandomFactor_without_primes :
  PublicKey.g (PrivateKey.publicKey sk_without_primes) =
    BigInt (PrivateKey.n sk_without_primes + 1) /\
  PrivateKey._p sk_without_primes = None /\
  PrivateKey.getRandomFactor sk_without_primes 16959 = Throw mixed_types /\
  ~ InvalidState mixed_types.
Proof. repeat split; try (vm_compute; reflexivity). discriminate. Qed.

Lemma getRandomFactor_errors_witness :
  PublicKey.g (PrivateKey.publicKey sk_generator_145) <>
    BigInt (PrivateKey.n sk_generator_145 + 1) /\
  PrivateKey.getRandomFactor sk_generator_145 16959 =
    Throw PrivateKey.not_simple_variant /\
  InvalidState PrivateKey.not_simple_variant.
Proof.
  assert (Hg : PublicKey.g (PrivateKey.publicKey sk_generator_145) <>
               BigInt (PrivateKey.n sk_generator_145 + 1))
    by (vm_compute; discriminate).
  split; [exact Hg|].
  exact (proj1 (getRandomFactor_errors sk_generator_145 16959) Hg).
Defined.

(** C7 (the code differs). With the modulus [1] and the exponent [0],
    [modPow] returns [1] for every base, not [a^0 mod 1 = 0]: the result
    is outside [[0, 1)]. *)
Theorem modPow_exponent_0_modulus_1 a :
  modPow (BigInt a) (BigInt 0) 1 = Ret (BigInt 1) /\
  a ^ 0 mod 1 = 0 /\ ~ (0 <= 1 < 1).
Proof. repeat split. lia. Qed.

(** C8 (amended: the trial division concerns positive [w]). The
    prefilter of the primality test: [w = 2] is PRIME; an even [w] or
    [w = 1] is COMPOSITE; a positive [w] that one of the first 250 odd
    primes divides, and that is not that prime, is COMPOSITE; a [w] that
    is one of those primes is PRIME; every other [w], which includes all
    negative odd [w], is passed to the Miller-Rabin part.  The list of
    the code holds the 250 odd primes from [3] to [1597]. *)
Theorem prefilter_spec w :
  (w = 2 -> prefilter w = Some true) /\
  (w <> 2 -> w mod 2 = 0 \/ w = 1 -> prefilter w = Some false) /\
  (0 < w -> forall p, In p firstPrimes -> (p | w) -> w <> p ->
   prefilter w = Some false) /\
  (In w firstPrimes -> prefilter w = Some true) /\
  (w mod 2 = 1 -> w <> 1 ->
   w < 0 \/ (forall p, In p firstPrimes -> ~ (p | w)) ->
   prefilter w = None) /\
  (forall iterations,
     match prefilter w with
     | Some verdict => _isProbablyPrime w iterations = rret verdict
     | None => _isProbablyPrime w iterations = millerRabin w iterations
     end) /\
  (length firstPrimes = 250%nat /\
   forall p, In p firstPrimes <-> Z.prime p /\ 3 <= p <= 1597).
Proof.
  assert (Hodd : w mod 2 = 1 -> w <> 1 -> prefilter w = trial_division firstPrimes w).
  { intros H1 H2. unfold prefilter.
    destruct (Z.eqb_spec w 2) as [->|]; [discriminate|].
    rewrite land_1. destruct (Z.eqb_spec (w mod 2) 0); [lia|].
    destruct (Z.eqb_spec w 1); [lia|]. reflexivity. }
  assert (Heven : w <> 2 -> w mod 2 = 0 \/ w = 1 -> prefilter w = Some false).
  { intros H2 H. unfold prefilter.
    destruct (Z.eqb_spec w 2); [contradiction|].
    rewrite land_1.
    destruct (Z.eqb_spec (w mod 2) 0); [reflexivity|].
    destruct (Z.eqb_spec w 1); [reflexivity|]. lia. }
  split; [intros ->; reflexivity|]. split; [exact Heven|].
  split; [|split; [|split; [|split]]].
  - intros Hw p Hin Hdiv Hne.
    pose proof (firstPrimes_positive p Hin) as Hp.
    apply firstPrimes_are_the_odd_primes in Hin as Hprime.
    destruct (mod2_cases w) as [E|E].
    + apply Heven; [|now left]. intros ->.
      apply Z.divide_pos_le in Hdiv; lia.
    + assert (w <> 1) by (intros ->; apply Z.divide_1_r in Hdiv; lia).
      rewrite Hodd by assumption.
      apply in_split in Hin. destruct Hin as (ps1 & ps2 & E12).
      rewrite E12. apply trial_division_divisor; try assumption.
      now apply (firstPrimes_sorted ps1 p ps2).
  - intros Hin.
    assert (Hall : forallb (fun p => match prefilter p with
                                     | Some true => true
                                     | _ => false
                                     end) firstPrimes = true) by (vm_compute; reflexivity).
    rewrite forallb_forall in Hall. apply Hall in Hin.
    destruct (prefilter w) as [[|]|]; try discriminate. reflexivity.
  - intros H1 H2 [Hneg|Hnone]; rewrite Hodd by assumption.
    + cbn [firstPrimes trial_division]. destruct (Z.leb_spec 3 w); [lia|reflexivity].
    + apply trial_division_none. apply Forall_forall. intros p Hin.
      split; [pose proof (firstPrimes_positive p Hin); lia|now apply Hnone].
  - intros iterations. unfold _isProbablyPrime.
    destruct (prefilter w); reflexivity.
  - exact firstPrimes_are_the_odd_primes.
Qed.

(** On [w = -3] the prefilter reaches no verdict, although [3] divides
    [w] and [w] is not [3]: the trial division stops at the first prime
    above [w].  The Miller-Rabin part then throws. *)
Lemma prefilter_negative_multiple :
  In 3 firstPrimes /\ (3 | -3) /\ -3 <> 3 /\
  prefilter (-3) = None /\ prefilter (-3) <> Some false /\
  _isProbablyPrime (-3) 16 [] = Throw (Error "max must be > min").
Proof.
  split; [now left|]. split; [exists (-1); reflexivity|].
  split; [discriminate|]. split; [reflexivity|]. split; [discriminate|].
  vm_compute. reflexivity.
Qed.

Lemma prefilter_spec_witness :
  0 < 9 /\ In 3 firstPrimes /\ (3 | 9) /\ 9 <> 3 /\ prefilter 9 = Some false.
Proof.
  assert (Hin : In 3 firstPrimes) by (now left).
  assert (Hdiv : (3 | 9)) by (exists 3; reflexivity).
  assert (Hw : 0 < 9) by lia.
  assert (Hne : 9 <> 3) by discriminate.
  split; [exact Hw|]. split; [exact Hin|]. split; [exact Hdiv|]. split; [exact Hne|].
  exact (proj1 (proj2 (proj2 (prefilter_spec 9))) Hw 3 Hin Hdiv Hne).
Defined.

(** C9. For every integer [r] and every modulus [n], positive or not,
    [gcd(r, n)] is [1] exactly when [gcd(r, n^2)] is [1]; so the default
    draw of [encrypt], which tests [gcd(r, n)] only, returns an [r] that is
    coprime to [n^2], the cached [_n2] of the key. *)
Theorem gcd_n_iff_gcd_n2 r n :
  (gcd r n = Ret 1 <-> gcd r (n ^ 2) = Ret 1) /\
  (forall g fuel tape r' tape',
     PublicKey.encrypt_draw fuel (PublicKey.new n g) tape = Ret (r', tape') ->
     gcd r' n = Ret 1 /\ gcd r' (PublicKey._n2 (PublicKey.new n g)) = Ret 1).
Proof.
  split.
  - rewrite !gcd_spec. split; intros H; injection H as H; f_equal.
    + now apply (proj1 (coprime_square r n)).
    + now apply (proj2 (coprime_square r n)).
  - intros g fuel tape r' tape' H.
    apply encrypt_draw_Ret in H. destruct H as (_ & H & _).
    cbn [PublicKey.new PublicKey.n PublicKey._n2] in *.
    rewrite !gcd_spec. split; f_equal; [assumption|].
    now apply (proj1 (coprime_square r' n)).
Qed.

Lemma gcd_n_iff_gcd_n2_witness :
  PublicKey.encrypt_draw 2 (PublicKey.new 15 (BigInt 16)) [Byte.x02; Byte.x01]
    = Ret (2, []) /\
  gcd 2 15 = Ret 1 /\ gcd 2 (PublicKey._n2 (PublicKey.new 15 (BigInt 16))) = Ret 1.
Proof.
  assert (Hd : PublicKey.encrypt_draw 2 (PublicKey.new 15 (BigInt 16))
                 [Byte.x02; Byte.x01] = Ret (2, [])) by (vm_compute; reflexivity).
  split; [exact Hd|].
  exact (proj2 (gcd_n_iff_gcd_n2 2 15) (BigInt 16) 2%nat _ 2 [] Hd).
Defined.

(** C10. [addition] accepts any number of ciphertexts without raising an
    error: it returns the left fold of the multiplication modulo [n^2]
    from [1]; with no argument that is [1], which is an encryption of [0]
    under every valid key pair; with one argument [c] it is [c % n^2],
    which is [c mod n^2] for a ciphertext, and the product modulo [n^2]
    for any ciphertexts. *)
Theorem addition_any_arity pk cs :
  PublicKey._n2 pk <> 0 ->
  PublicKey.addition pk cs =
    Ret (BigInt (fold_left
                   (fun sum next => Z.rem (sum * next) (PublicKey._n2 pk)) cs 1)) /\
  PublicKey.addition pk [] = Ret (BigInt 1) /\
  (forall c, PublicKey.addition pk [c] = Ret (BigInt (Z.rem c (PublicKey._n2 pk)))) /\
  (0 < PublicKey._n2 pk ->
   (forall c, 0 <= c ->
      PublicKey.addition pk [c] = Ret (BigInt (c mod PublicKey._n2 pk))) /\
   (Forall (fun c => 0 <= c) cs -> cs <> [] ->
    PublicKey.addition pk cs =
      Ret (BigInt (fold_right Z.mul 1 cs mod PublicKey._n2 pk)))) /\
  (forall kp, valid_keypair kp -> publicKey kp = pk ->
     is_encryption pk 0 1 /\
     PrivateKey.decrypt (privateKey kp) 1 = Ret (BigInt 0)).
Proof.
  intros Hn2.
  split; [now apply addition_rem|]. split; [reflexivity|].
  split; [|split].
  - intros c. rewrite addition_rem by assumption. cbn [fold_left].
    now rewrite Z.mul_1_l.
  - intros Hpos. split.
    + intros c Hc. rewrite addition_rem by assumption. cbn [fold_left].
      now rewrite Z.mul_1_l, Z.rem_mod_nonneg by lia.
    + intros Hcs Hne. rewrite addition_rem, fold_rem_mod by (try assumption; lia).
      destruct cs; [contradiction|]. now rewrite Z.mul_1_l.
  - intros kp Hv <-.
    destruct (valid_keypair_ok kp Hv) as (gz & muz & Hok & Hpk).
    rewrite <- Hpk in *.
    pose proof (n2_gt_1 _ _ _ Hok) as H2. pose proof (n_gt_1 _ _ _ Hok) as H1.
    split.
    + exists (Some 1), [], []. split.
      * rewrite (encrypt_value _ _ _ Hok) by lia.
        now rewrite Z.pow_0_r, Z.pow_1_l, Z.mul_1_l, Z.mod_1_l by lia.
      * intros r0 E. injection E as <-. apply Z.gcd_1_l.
    + rewrite (decrypt_class _ _ _ Hok 1 0) by apply (class_one _ _ _ Hok).
      now rewrite Z.mod_0_l by lia.
Qed.

Lemma addition_any_arity_witness :
  PublicKey._n2 (publicKey kp_17_19) <> 0 /\
  PublicKey.addition (publicKey kp_17_19) [] = Ret (BigInt 1) /\
  PublicKey.addition (publicKey kp_17_19) [99152] = Ret (BigInt 99152) /\
  PublicKey.addition (publicKey kp_17_19) [99152; 90263; 99152] = Ret (BigInt 27007).
Proof.
  assert (Hn2 : PublicKey._n2 (publicKey kp_17_19) <> 0) by (vm_compute; discriminate).
  split; [exact Hn2|].
  split; [exact (proj1 (proj2 (addition_any_arity (publicKey kp_17_19) [] Hn2)))|].
  split.
  - exact (proj1 (addition_any_arity (publicKey kp_17_19) [99152] Hn2)).
  - exact (proj1 (addition_any_arity (publicKey kp_17_19) [99152; 90263; 99152] Hn2)).
Defined.

(** * Further properties of the code

    Properties of the functions around the ones above: the other
    helpers of bigint-crypto-utils, the rest of the two key classes and
    the key-generation functions. *)

(** ** Shared facts *)

Lemma modInv_returns a n : exists v, modInv (BigInt a) n = Ret v.
Proof.
  destruct (Z_le_gt_dec n 0) as [Hn|Hn];
    [eexists; apply modInv_none; now left|].
  destruct (Z.eq_dec (a mod n) 0) as [Ha|Ha];
    [eexists; apply modInv_none; now right; left|].
  destruct (Z.eq_dec (Z.gcd a n) 1) as [Hg|Hg];
    [|eexists; apply modInv_none; now right; right].
  destruct (modInv_coprime a n ltac:(lia) Ha Hg) as (x & Hx & _).
  now exists (BigInt x).
Qed.

Lemma coprime_pow_iff a k n : 0 < k -> Z.gcd (a ^ k) n = 1 <-> Z.gcd a n = 1.
Proof.
  intros Hk. split.
  - intros H. apply Z.bezout_1_gcd.
    destruct (Z.gcd_bezout (a ^ k) n 1 H) as (u & v & Huv).
    exists (u * a ^ (k - 1)), v.
    assert (E : a ^ k = a ^ (k - 1) * a).
    { rewrite Z.mul_comm, <- Z.pow_succ_r by lia. f_equal. lia. }
    rewrite E in Huv. lia.
  - intros H. apply Z.coprime_pow_l; [lia|exact H].
Qed.

Lemma multiple_gt_1 N n2 : 1 < N -> 0 < n2 -> (N | n2) -> 1 < n2.
Proof.
  intros HN Hn2 (k & ->). destruct (Z_le_gt_dec k 0); nia.
Qed.

(** ** The arithmetic helpers *)

(** X1: [gcd(a, b)] returns, for all integers [a] and [b], zero and
    negative ones included, the non-negative greatest common divisor: it
    divides both, and every common divisor divides it. *)
Theorem gcd_greatest_common_divisor a b :
  exists d, gcd a b = Ret d /\ 0 <= d /\ (d | a) /\ (d | b) /\
            forall c, (c | a) -> (c | b) -> (c | d).
Proof.
  exists (Z.gcd a b). rewrite gcd_spec. split; [reflexivity|].
  split; [apply Z.gcd_nonneg|].
  split; [apply Z.gcd_divide_l|].
  split; [apply Z.gcd_divide_r|].
  intros c Ha Hb. now apply Z.gcd_greatest.
Qed.

(** X2: for positive [a] and [b], [eGcd(a, b)] returns an object
    [{b, x, y}] whose [b] is the greatest common divisor of the arguments
    and whose [x] and [y] are Bezout coefficients of it; when one of the
    arguments is not positive it returns [NaN]. *)
Theorem eGcd_bezout a b :
  (0 < a -> 0 < b ->
   exists e, eGcd (BigInt a) (BigInt b) = Ret (Some e) /\
             0 < eg_b e /\ (eg_b e | a) /\ (eg_b e | b) /\
             (forall c, (c | a) -> (c | b) -> (c | eg_b e)) /\
             eg_x e * a + eg_y e * b = eg_b e) /\
  (a <= 0 \/ b <= 0 -> eGcd (BigInt a) (BigInt b) = Ret None).
Proof.
  split.
  - intros Ha Hb. destruct (eGcd_spec a b Ha Hb) as (e & He & Hg & Hbz).
    exists e. split; [exact He|]. rewrite Hg.
    assert (Hpos : 0 < Z.gcd a b).
    { pose proof (Z.gcd_nonneg a b).
      assert (Z.gcd a b <> 0) by (intros E; apply Z.gcd_eq_0_l in E; lia).
      lia. }
    split; [exact Hpos|].
    split; [apply Z.gcd_divide_l|].
    split; [apply Z.gcd_divide_r|].
    split; [intros c Hca Hcb; now apply Z.gcd_greatest|].
    rewrite <- Hg. now symmetry.
  - apply eGcd_nonpos.
Qed.

Lemma eGcd_bezout_witness :
  exists e, eGcd (BigInt 120) (BigInt 143) = Ret (Some e) /\
            0 < eg_b e /\ (eg_b e | 120) /\ (eg_b e | 143) /\
            (forall c, (c | 120) -> (c | 143) -> (c | eg_b e)) /\
            eg_x e * 120 + eg_y e * 143 = eg_b e.
Proof. apply (proj1 (eGcd_bezout 120 143)); lia. Defined.

(** X3: [modInv(a, n)] returns the inverse of [a] modulo [n], in [[0, n)],
    exactly when [n > 1] and [a] is coprime to [n]; in every other case,
    the modulus [1] included, it returns [NaN]. *)
Theorem modInv_inverse_or_NaN a n :
  (1 < n /\ Z.gcd a n = 1 /\
   exists x, modInv (BigInt a) n = Ret (BigInt x) /\
             0 <= x < n /\ (a * x) mod n = 1) \/
  ((n <= 1 \/ Z.gcd a n <> 1) /\ modInv (BigInt a) n = Ret NaN).
Proof.
  destruct (Z_le_gt_dec n 1) as [Hn|Hn].
  - right. split; [now left|]. apply modInv_none.
    destruct (Z_le_gt_dec n 0) as [H0|H0]; [now left|].
    right; left. replace n with 1 by lia. apply Z.mod_1_r.
  - destruct (Z.eq_dec (Z.gcd a n) 1) as [Hg|Hg].
    + left. split; [lia|]. split; [exact Hg|].
      apply modInv_coprime; [lia| |exact Hg].
      apply coprime_mod_nonzero; [lia|exact Hg].
    + right. split; [now right|]. apply modInv_none. now right; right.
Qed.

(** X4: [lcm(a, b)] returns, for all integers, the non-negative least
    common multiple (so [lcm(0, b) = 0]); the division by [gcd(a, b)]
    never fails. *)
Theorem lcm_least_common_multiple a b :
  exists l, lcm a b = Ret l /\ 0 <= l /\ (a | l) /\ (b | l) /\
            forall c, (a | c) -> (b | c) -> (l | c).
Proof.
  exists (Z.lcm a b). rewrite lcm_spec. split; [reflexivity|].
  split; [apply Z.lcm_nonneg|].
  split; [apply Z.divide_lcm_l|].
  split; [apply Z.divide_lcm_r|].
  intros c Ha Hb. now apply Z.lcm_least.
Qed.

(** X5: for [a >= 1], [bitLength(a)] is the number of bits of [a]:
    [2^(bits-1) <= a < 2^bits]; for [a <= 0] the loop runs once and the
    result is [2]. *)
Theorem bitLength_bounds a :
  exists bits, bitLength a = Ret bits /\
    (0 < a -> 2 ^ (bits - 1) <= a < 2 ^ bits) /\
    (a <= 0 -> bits = 2).
Proof.
  rewrite bitLength_spec. destruct (Z.ltb_spec 0 a) as [Ha|Ha].
  - exists (Z.log2 a + 1). split; [reflexivity|]. split; [|lia].
    intros _. replace (Z.log2 a + 1 - 1) with (Z.log2 a) by lia.
    apply (Z.log2_spec a Ha).
  - exists 2. split; [reflexivity|]. split; [lia|reflexivity].
Qed.

(** The loop of [modPow] on a base that is [NaN]: the first round
    multiplies or reduces a number and a bigint. *)
Lemma modPow_loop_NaN fuel result b n : 0 < b ->
  modPow_loop (S fuel) (BigInt result) NaN b n = Throw mixed_types.
Proof.
  intros Hb. cbn [modPow_loop].
  destruct (Z.gtb_spec b 0) as [_|H]; [|lia].
  destruct (Z.rem b 2 =? 1); reflexivity.
Qed.

(** X6: with a negative modulus [toZn] turns the base into [NaN], and
    [modPow(a, b, n)] throws the [TypeError] of mixing a bigint and a
    number for every exponent but [0], for which it returns [1]. *)
Theorem modPow_negative_modulus_throws a b n : n < 0 ->
  modPow (BigInt a) (BigInt b) n =
  if b =? 0 then Ret (BigInt 1) else Throw mixed_types.
Proof.
  intros Hn. unfold modPow.
  destruct (Z.eqb_spec n 0) as [E|_]; [lia|].
  rewrite toZn_nonpos by lia. cbn [bind to_BigInt].
  destruct (Z.ltb_spec b 0) as [Hb|Hb].
  - destruct (Z.eqb_spec b 0) as [E|_]; [lia|].
    unfold modPow_nonneg.
    destruct (Z.eqb_spec n 0) as [E|_]; [lia|].
    rewrite toZn_nonpos by lia. cbn [bind]. unfold modPow_fuel.
    rewrite modPow_loop_NaN; [reflexivity|].
    rewrite abs_spec. lia.
  - destruct (Z.eqb_spec b 0) as [E|E].
    + subst b. reflexivity.
    + unfold modPow_fuel. apply modPow_loop_NaN. lia.
Qed.

Lemma modPow_negative_modulus_throws_witness :
  modPow (BigInt 3) (BigInt 4) (-7) = Throw mixed_types.
Proof. apply (modPow_negative_modulus_throws 3 4 (-7)). lia. Defined.

(** X7: with a negative exponent and a modulus [n > 1], [modPow(a, b, n)]
    returns the inverse of [a^|b|] modulo [n] when [a] is coprime to [n],
    and [NaN] when it is not. *)
Theorem modPow_inverse_of_power a b n : 1 < n -> b < 0 ->
  (Z.gcd a n = 1 ->
   exists x, modPow (BigInt a) (BigInt b) n = Ret (BigInt x) /\
             0 <= x < n /\ (a ^ (- b) * x) mod n = 1) /\
  (Z.gcd a n <> 1 -> modPow (BigInt a) (BigInt b) n = Ret NaN).
Proof.
  intros Hn Hb. rewrite modPow_neg by lia.
  assert (Hg : Z.gcd (a ^ (- b) mod n) n = 1 <-> Z.gcd a n = 1).
  { rewrite Z.gcd_mod_l. apply coprime_pow_iff. lia. }
  split.
  - intros Ha.
    destruct (modInv_coprime (a ^ (- b) mod n) n) as (x & Hx & Hr & Hi).
    + lia.
    + rewrite Z.mod_mod by lia. apply coprime_mod_nonzero; [lia|].
      rewrite <- (Z.gcd_mod_l (a ^ (- b)) n). now apply Hg.
    + now apply Hg.
    + exists x. split; [exact Hx|]. split; [exact Hr|].
      now rewrite Zmult_mod_idemp_l in Hi.
  - intros Ha. apply modInv_none. right; right. now rewrite Hg.
Qed.

Lemma modPow_inverse_of_power_witness :
  (Z.gcd 3 7 = 1 ->
   exists x, modPow (BigInt 3) (BigInt (-2)) 7 = Ret (BigInt x) /\
             0 <= x < 7 /\ (3 ^ (- (-2)) * x) mod 7 = 1) /\
  (Z.gcd 3 7 <> 1 -> modPow (BigInt 3) (BigInt (-2)) 7 = Ret NaN).
Proof. apply (modPow_inverse_of_power 3 (-2) 7); lia. Defined.

(** ** Random bytes, bits and integers *)

Lemma byte_to_Z_range b : 0 <= byte_to_Z b < 256.
Proof.
  unfold byte_to_Z. pose proof (Byte.to_N_bounded b). lia.
Qed.

Lemma getRandomValues_bytes k t buf t' :
  getRandomValues k t = Ret (buf, t') ->
  buf = map byte_to_Z (firstn (Z.to_nat k) t) /\ t' = skipn (Z.to_nat k) t /\
  length buf = Z.to_nat k /\ Forall (fun x => 0 <= x < 256) buf.
Proof.
  unfold getRandomValues.
  destruct (Nat.ltb_spec (length t) (Z.to_nat k)) as [|Hle]; [discriminate|].
  intros E. inversion E. subst. clear E.
  split; [reflexivity|]. split; [reflexivity|]. split.
  - rewrite length_map, length_firstn. lia.
  - apply Forall_forall. intros x Hx. apply in_map_iff in Hx.
    destruct Hx as (b & <- & _). apply byte_to_Z_range.
Qed.

(** [fromBuffer] reads its bytes most significant first. *)
Lemma fromBuffer_fold buf : forall acc,
  fold_left (fun ret bi => Z.shiftl ret 8 + bi) buf acc =
  acc * 256 ^ Z.of_nat (length buf) + fromBuffer buf.
Proof.
  unfold fromBuffer.
  induction buf as [|x rest IH]; intros acc.
  - cbn. lia.
  - cbn [fold_left length]. rewrite IH, (IH (Z.shiftl 0 8 + x)).
    rewrite Z.shiftl_mul_pow2, Z.shiftl_0_l by lia.
    rewrite Nat2Z.inj_succ, Z.pow_succ_r by lia.
    change (2 ^ 8) with 256. ring.
Qed.

Lemma fromBuffer_cons x rest :
  fromBuffer (x :: rest) = x * 256 ^ Z.of_nat (length rest) + fromBuffer rest.
Proof.
  unfold fromBuffer at 1. cbn [fold_left]. rewrite fromBuffer_fold.
  rewrite Z.shiftl_0_l. reflexivity.
Qed.

Lemma fromBuffer_bound buf : Forall (fun x => 0 <= x < 256) buf ->
  0 <= fromBuffer buf < 256 ^ Z.of_nat (length buf).
Proof.
  induction 1 as [|x rest Hx Hrest IH].
  - cbn. lia.
  - rewrite fromBuffer_cons. cbn [length].
    rewrite Nat2Z.inj_succ, Z.pow_succ_r by lia.
    assert (0 < 256 ^ Z.of_nat (length rest)) by (apply Z.pow_pos_nonneg; lia).
    nia.
Qed.

(** Setting the bit [k - 1] of a number of at most [k] bits gives a
    number of exactly [k] bits. *)
Lemma lor_top_bit x k : 1 <= k -> 0 <= x < 2 ^ k ->
  2 ^ (k - 1) <= Z.lor x (2 ^ (k - 1)) < 2 ^ k.
Proof.
  intros Hk Hx.
  assert (Hm : 0 < 2 ^ (k - 1)) by (apply Z.pow_pos_nonneg; lia).
  split.
  - pose proof (Z.add_lor_land x (2 ^ (k - 1))) as E.
    assert (Z.land x (2 ^ (k - 1)) <= x).
    { destruct (Z.eq_dec x 0) as [->|Hx0]; [now rewrite Z.land_0_l|].
      pose proof (proj2 (Z.land_nonneg x (2 ^ (k - 1))) (or_introl (proj1 Hx))).
      apply Z.ldiff_le; [lia|].
      apply Z.bits_inj'. intros i Hi.
      rewrite Z.ldiff_spec, Z.land_spec, Z.bits_0.
      destruct (Z.testbit x i), (Z.testbit (2 ^ (k - 1)) i); reflexivity. }
    lia.
  - assert (Hl : 0 < Z.lor x (2 ^ (k - 1))).
    { pose proof (proj2 (Z.lor_nonneg x (2 ^ (k - 1)))
                    (conj (proj1 Hx) (Z.lt_le_incl _ _ Hm))).
      assert (Z.lor x (2 ^ (k - 1)) <> 0).
      { intros E. apply Z.lor_eq_0_iff in E. lia. }
      lia. }
    apply Z.log2_lt_pow2; [exact Hl|].
    rewrite Z.log2_lor by lia. rewrite Z.log2_pow2 by lia.
    destruct (Z.eq_dec x 0) as [->|Hx0].
    + cbn. lia.
    + assert (Z.log2 x < k) by (apply Z.log2_lt_pow2; lia). lia.
Qed.

(** What a successful [randBits] returns: the bytes of the tape, the
    first one masked and, with [forceLength], with its top bit set. *)
Lemma randBits_shape bitLength force t buf t' :
  randBits bitLength force t = Ret (buf, t') ->
  1 <= bitLength /\
  exists x rest,
    0 <= x < 256 /\ Forall (fun x => 0 <= x < 256) rest /\
    Z.of_nat (length rest) = (bitLength + 7) / 8 - 1 /\
    t' = skipn (Z.to_nat ((bitLength + 7) / 8)) t /\
    buf = (if force
           then Z.lor (Z.land x (2 ^ Z.rem bitLength 8 - 1))
                  (if negb (Z.rem bitLength 8 =? 0)
                   then 2 ^ (Z.rem bitLength 8 - 1) else 128)
           else Z.land x (2 ^ Z.rem bitLength 8 - 1)) :: rest.
Proof.
  unfold randBits. destruct (Z.ltb_spec bitLength 1) as [|Hb]; [discriminate|].
  intros H. split; [exact Hb|].
  apply rbind_Ret in H. destruct H as (buf0 & t1 & H0 & H).
  unfold randBytesSync in H0.
  assert (Hk : 1 <= (bitLength + 7) / 8) by (apply Z.div_le_lower_bound; lia).
  destruct (Z.ltb_spec ((bitLength + 7) / 8) 1) as [Hlt|_]; [lia|].
  apply rbind_Ret in H0. destruct H0 as (buf1 & t2 & H1 & H0).
  apply getRandomValues_bytes in H1. destruct H1 as (_ & Ht & Hlen & Hbytes).
  unfold rret in H0, H. inversion H0. subst buf0 t2. clear H0.
  inversion H. subst buf t'. clear H.
  destruct buf1 as [|x rest]; [cbn [length] in Hlen; lia|].
  inversion Hbytes as [|? ? Hx Hrest]. subst.
  exists x, rest. split; [exact Hx|]. split; [exact Hrest|].
  split; [cbn [length] in Hlen; lia|]. split; [reflexivity|].
  destruct force; reflexivity.
Qed.

Lemma pow_256 k : 0 <= k -> 256 ^ k = 2 ^ (8 * k).
Proof. intros Hk. rewrite Z.pow_mul_r by lia. reflexivity. Qed.

(** The number in a buffer of [randBits(bitLength)]. *)
Lemma randBits_value bitLength t buf t' :
  randBits bitLength false t = Ret (buf, t') ->
  0 <= fromBuffer buf < 2 ^ bitLength /\
  (bitLength mod 8 = 0 -> fromBuffer buf < 2 ^ (bitLength - 8)).
Proof.
  intros H. apply randBits_shape in H.
  destruct H as (Hb & x & rest & Hx & Hrest & Hlen & _ & ->).
  pose proof (fromBuffer_bound rest Hrest) as Hr.
  rewrite fromBuffer_cons, Hlen. rewrite Hlen in Hr.
  rewrite Z.rem_mod_nonneg by lia.
  pose proof (Z.div_mod bitLength 8 ltac:(lia)) as D.
  pose proof (Z.mod_pos_bound bitLength 8 ltac:(lia)) as Hk.
  set (k := bitLength mod 8) in *. set (q := bitLength / 8) in *.
  assert (Hq : (bitLength + 7) / 8 = if k =? 0 then q else q + 1).
  { destruct (Z.eqb_spec k 0).
    - symmetry. apply (Z.div_unique _ 8 q 7); lia.
    - symmetry. apply (Z.div_unique _ 8 (q + 1) (k - 1)); lia. }
  rewrite Hq in *. clear Hq.
  change (2 ^ k - 1) with (Z.pred (2 ^ k)).
  rewrite <- Z.ones_equiv, Z.land_ones by lia.
  pose proof (Z.mod_pos_bound x (2 ^ k) ltac:(apply Z.pow_pos_nonneg; lia)) as Hm.
  destruct (Z.eqb_spec k 0) as [E|E].
  - rewrite E in *. change (2 ^ 0) with 1 in *. rewrite Z.mod_1_r.
    rewrite pow_256 in * by lia.
    replace (bitLength - 8) with (8 * (q - 1)) by lia.
    split; [|lia].
    split; [lia|]. apply Z.lt_le_trans with (2 ^ (8 * (q - 1))); [lia|].
    apply Z.pow_le_mono_r; lia.
  - replace (q + 1 - 1) with q in * by lia.
    rewrite pow_256 in * by lia.
    split; [|lia].
    assert (E2 : 2 ^ bitLength = 2 ^ k * 2 ^ (8 * q)).
    { rewrite <- Z.pow_add_r by lia. f_equal. lia. }
    rewrite E2. nia.
Qed.

(** X8: [randBits(bitLength)] returns [ceil(bitLength / 8)] bytes which,
    read by [fromBuffer], are a number below [2^bitLength].  When
    [bitLength] is a multiple of [8] the mask [2 ** (bitLength % 8) - 1] is
    [0]: the first byte is cleared and the number is even below
    [2^(bitLength - 8)]. *)
Theorem randBits_below_pow2 bitLength t buf t' :
  randBits bitLength false t = Ret (buf, t') ->
  Z.of_nat (length buf) = (bitLength + 7) / 8 /\
  0 <= fromBuffer buf < 2 ^ bitLength /\
  (bitLength mod 8 = 0 -> hd 0 buf = 0 /\ fromBuffer buf < 2 ^ (bitLength - 8)).
Proof.
  intros H. destruct (randBits_value _ _ _ _ H) as (Hb & Hc).
  apply randBits_shape in H.
  destruct H as (Hpos & x & rest & _ & _ & Hlen & _ & ->).
  split; [cbn [length]; lia|]. split; [exact Hb|].
  intros Hmod. split; [|now apply Hc].
  cbn [hd]. rewrite Z.rem_mod_nonneg, Hmod by lia. apply Z.land_0_r.
Qed.

(** X9: with [forceLength], the buffer of [randBits(bitLength, true)]
    holds a number of exactly [bitLength] bits. *)
Theorem randBits_forceLength bitLength t buf t' :
  randBits bitLength true t = Ret (buf, t') ->
  2 ^ (bitLength - 1) <= fromBuffer buf < 2 ^ bitLength.
Proof.
  intros H. apply randBits_shape in H.
  destruct H as (Hb & x & rest & Hx & Hrest & Hlen & _ & ->).
  pose proof (fromBuffer_bound rest Hrest) as Hr.
  rewrite fromBuffer_cons, Hlen. rewrite Hlen in Hr.
  rewrite Z.rem_mod_nonneg by lia.
  pose proof (Z.div_mod bitLength 8 ltac:(lia)) as D.
  pose proof (Z.mod_pos_bound bitLength 8 ltac:(lia)) as Hk.
  set (k := bitLength mod 8) in *. set (q := bitLength / 8) in *.
  assert (Hq : (bitLength + 7) / 8 = if k =? 0 then q else q + 1).
  { destruct (Z.eqb_spec k 0).
    - symmetry. apply (Z.div_unique _ 8 q 7); lia.
    - symmetry. apply (Z.div_unique _ 8 (q + 1) (k - 1)); lia. }
  rewrite Hq in *. clear Hq.
  change (2 ^ k - 1) with (Z.pred (2 ^ k)).
  rewrite <- Z.ones_equiv, Z.land_ones by lia.
  pose proof (Z.mod_pos_bound x (2 ^ k) ltac:(apply Z.pow_pos_nonneg; lia)) as Hm.
  destruct (Z.eqb_spec k 0) as [E|E]; cbn [negb].
  - rewrite E in *. change (2 ^ 0) with 1 in *. rewrite Z.mod_1_r.
    change (Z.lor 0 128) with 128.
    rewrite pow_256 in * by lia.
    assert (E2 : 2 ^ bitLength = 256 * 2 ^ (8 * (q - 1))).
    { change 256 with (2 ^ 8). rewrite <- Z.pow_add_r by lia. f_equal. lia. }
    assert (E3 : 2 ^ (bitLength - 1) = 128 * 2 ^ (8 * (q - 1))).
    { change 128 with (2 ^ 7). rewrite <- Z.pow_add_r by lia. f_equal. lia. }
    rewrite E2, E3. lia.
  - replace (q + 1 - 1) with q in * by lia.
    rewrite pow_256 in * by lia.
    pose proof (lor_top_bit (x mod 2 ^ k) k ltac:(lia) Hm) as Hl.
    assert (E2 : 2 ^ bitLength = 2 ^ k * 2 ^ (8 * q)).
    { rewrite <- Z.pow_add_r by lia. f_equal. lia. }
    assert (E3 : 2 ^ (bitLength - 1) = 2 ^ (k - 1) * 2 ^ (8 * q)).
    { rewrite <- Z.pow_add_r by lia. f_equal. lia. }
    rewrite E2, E3.
    assert (0 < 2 ^ (8 * q)) by (apply Z.pow_pos_nonneg; lia).
    nia.
Qed.

Lemma randBits_below_pow2_witness :
  Z.of_nat (length [0; 171]) = (16 + 7) / 8 /\
  0 <= fromBuffer [0; 171] < 2 ^ 16 /\
  (16 mod 8 = 0 -> hd 0 [0; 171] = 0 /\ fromBuffer [0; 171] < 2 ^ (16 - 8)).
Proof.
  apply (randBits_below_pow2 16 [Byte.xff; Byte.xab] [0; 171] []). reflexivity.
Defined.

Lemma randBits_forceLength_witness :
  2 ^ (11 - 1) <= fromBuffer [5; 171] < 2 ^ 11.
Proof.
  apply (randBits_forceLength 11 [Byte.xf1; Byte.xab] [5; 171] []). reflexivity.
Defined.

(** X10: [randBytesSync(byteLength, forceLength)] throws a [RangeError]
    when [byteLength < 1]; otherwise it returns exactly [byteLength] bytes,
    the next ones of the generator in their order, and with [forceLength]
    the top bit of the first byte is set and nothing else is changed. *)
Theorem randBytesSync_bytes byteLength force t :
  (byteLength < 1 ->
   exists msg, randBytesSync byteLength force t = Throw (RangeError msg)) /\
  (1 <= byteLength <= Z.of_nat (length t) ->
   exists x rest,
     map byte_to_Z (firstn (Z.to_nat byteLength) t) = x :: rest /\
     randBytesSync byteLength force t =
       Ret ((if force then Z.lor x 128 else x) :: rest,
            skipn (Z.to_nat byteLength) t) /\
     Z.of_nat (length (x :: rest)) = byteLength /\
     Forall (fun b => 0 <= b < 256) rest /\
     0 <= x < 256 /\ 128 <= Z.lor x 128 < 256).
Proof.
  unfold randBytesSync. split.
  - intros H. destruct (Z.ltb_spec byteLength 1) as [_|]; [|lia].
    eexists. reflexivity.
  - intros H. destruct (Z.ltb_spec byteLength 1) as [|_]; [lia|].
    destruct (getRandomValues byteLength t) as [[buf t']| |] eqn:E.
    + pose proof (getRandomValues_bytes _ _ _ _ E) as (Hbuf & Ht & Hlen & Hb).
      destruct buf as [|x rest]; [cbn [length] in Hlen; lia|].
      inversion Hb as [|? ? Hx Hrest]. subst x0 l.
      exists x, rest. split; [now symmetry|].
      unfold rbind. rewrite E. unfold rret. subst t'.
      split; [destruct force; reflexivity|].
      split; [rewrite Hlen; lia|]. split; [exact Hrest|]. split; [exact Hx|].
      apply (lor_top_bit x 8); lia.
    + unfold getRandomValues in E.
      destruct (Nat.ltb_spec (length t) (Z.to_nat byteLength)); discriminate.
    + unfold getRandomValues in E.
      destruct (Nat.ltb_spec (length t) (Z.to_nat byteLength)); [lia|discriminate].
Qed.

Lemma randBytesSync_bytes_witness :
  exists x rest,
    map byte_to_Z (firstn (Z.to_nat 2) [Byte.x05; Byte.xab; Byte.x01]) = x :: rest /\
    randBytesSync 2 true [Byte.x05; Byte.xab; Byte.x01] =
      Ret ((if true then Z.lor x 128 else x) :: rest,
           skipn (Z.to_nat 2) [Byte.x05; Byte.xab; Byte.x01]) /\
    Z.of_nat (length (x :: rest)) = 2 /\
    Forall (fun b => 0 <= b < 256) rest /\
    0 <= x < 256 /\ 128 <= Z.lor x 128 < 256.
Proof.
  apply (proj2 (randBytesSync_bytes 2 true [Byte.x05; Byte.xab; Byte.x01])).
  cbn. lia.
Defined.

(** The number that the rejection loop of [randBetween] returns was read
    from a buffer of [randBits(bitLen)]. *)
Lemma randBetween_loop_buffer fuel : forall bitLen interval t rnd t',
  randBetween_loop fuel bitLen interval t = Ret (rnd, t') ->
  exists buf t0, randBits bitLen false t0 = Ret (buf, t') /\ rnd = fromBuffer buf.
Proof.
  induction fuel as [|fuel IH]; intros bitLen interval t rnd t' H.
  - discriminate.
  - cbn [randBetween_loop] in H. apply rbind_Ret in H.
    destruct H as (buf & t1 & Hbits & H).
    destruct (fromBuffer buf >? interval).
    + now apply IH in H.
    + unfold rret in H. inversion H. subst. now exists buf, t.
Qed.

(** X11: [randBetween(max, min)] throws [Error('max must be > min')] when
    [max <= min]; a value that it returns lies in [[min, max]], both ends
    included, and at least one random byte was read for it. *)
Theorem randBetween_range max min t :
  (max <= min -> randBetween max min t = Throw (Error "max must be > min")) /\
  (forall r t', randBetween max min t = Ret (r, t') ->
                min < max /\ min <= r <= max /\ (length t' < length t)%nat).
Proof.
  split.
  - intros H. unfold randBetween.
    destruct (Z.leb_spec max min) as [_|]; [reflexivity|lia].
  - intros r t' H. pose proof (randBetween_Ret _ _ _ _ _ H) as (Hr & Hl).
    split; [|now split].
    unfold randBetween in H.
    destruct (Z.leb_spec max min) as [|Hlt]; [discriminate|exact Hlt].
Qed.

Lemma randBetween_range_witness :
  1 < 15 /\ 1 <= 5 <= 15 /\ (length (@nil Byte.byte) < length [Byte.xf4])%nat.
Proof. apply (proj2 (randBetween_range 15 1 [Byte.xf4]) 5 []). reflexivity. Defined.

(** X12: when the bit length of the interval [max - min] is a multiple of
    [8], [randBits] clears the whole first byte, and [randBetween] only
    returns values below [min + 2^(bits - 8)]; for an interval of [128] to
    [255] it always returns [min]. *)
Theorem randBetween_first_byte_cleared max min t r t' :
  randBetween max min t = Ret (r, t') ->
  (forall bits, bitLength (max - min) = Ret bits -> bits mod 8 = 0 ->
                min <= r < min + 2 ^ (bits - 8)) /\
  (128 <= max - min <= 255 -> r = min).
Proof.
  intros H.
  assert (G : forall bits, bitLength (max - min) = Ret bits -> bits mod 8 = 0 ->
                           min <= r < min + 2 ^ (bits - 8)).
  { intros bits Hbits Hmod.
    pose proof (randBetween_Ret _ _ _ _ _ H) as (Hr & _).
    split; [lia|]. unfold randBetween in H.
    destruct (Z.leb_spec max min) as [|Hlt]; [discriminate|].
    apply rbind_Ret in H. destruct H as (bitLen & t1 & Hlen & H).
    apply lift_Ret in Hlen. destruct Hlen as (Hlen & ->).
    rewrite Hbits in Hlen. inversion Hlen. subst bitLen. clear Hlen.
    apply rbind_Ret in H. destruct H as (rnd & t2 & Hloop & H).
    unfold rret in H. inversion H. subst. clear H.
    apply randBetween_loop_buffer in Hloop.
    destruct Hloop as (buf & t0 & Hbuf & ->).
    apply randBits_value in Hbuf. destruct Hbuf as (_ & Hbuf).
    specialize (Hbuf Hmod). lia. }
  split; [exact G|].
  intros Hint. specialize (G 8).
  rewrite bitLength_spec in G.
  destruct (Z.ltb_spec 0 (max - min)) as [_|]; [|lia].
  assert (E : Z.log2 (max - min) = 7) by (apply Z.log2_unique; cbn; lia).
  rewrite E in G. specialize (G eq_refl eq_refl). cbn in G. lia.
Qed.

Lemma randBetween_first_byte_cleared_witness :
  (forall bits, bitLength (200 - 1) = Ret bits -> bits mod 8 = 0 ->
                1 <= 1 < 1 + 2 ^ (bits - 8)) /\
  (128 <= 200 - 1 <= 255 -> 1 = 1).
Proof.
  apply (randBetween_first_byte_cleared 200 1 [Byte.xff] 1 []). reflexivity.
Defined.

(** X13: on buffers of bytes of the same length [fromBuffer] is
    injective, and the number it returns is below [256^length]. *)
Theorem fromBuffer_injective buf1 : forall buf2,
  Forall (fun x => 0 <= x < 256) buf1 -> Forall (fun x => 0 <= x < 256) buf2 ->
  length buf1 = length buf2 ->
  0 <= fromBuffer buf1 < 256 ^ Z.of_nat (length buf1) /\
  (fromBuffer buf1 = fromBuffer buf2 -> buf1 = buf2).
Proof.
  induction buf1 as [|x1 rest1 IH]; intros buf2 H1 H2 Hlen.
  - destruct buf2; [|discriminate]. split; [cbn; lia|reflexivity].
  - destruct buf2 as [|x2 rest2]; [discriminate|].
    split; [now apply fromBuffer_bound|].
    inversion H1 as [|? ? Hx1 Hr1]. inversion H2 as [|? ? Hx2 Hr2]. subst.
    injection Hlen as Hlen.
    rewrite !fromBuffer_cons. intros E.
    pose proof (fromBuffer_bound rest1 Hr1) as B1.
    pose proof (fromBuffer_bound rest2 Hr2) as B2.
    rewrite <- Hlen in *.
    assert (Hx : x1 = x2) by nia. subst x2.
    f_equal. apply (IH rest2 Hr1 Hr2 Hlen). lia.
Qed.

Lemma fromBuffer_injective_witness :
  0 <= fromBuffer [1; 2] < 256 ^ Z.of_nat (length [1; 2]) /\
  (fromBuffer [1; 2] = fromBuffer [1; 2] -> [1; 2] = [1; 2]).
Proof.
  apply (fromBuffer_injective [1; 2] [1; 2]).
  - repeat constructor; lia.
  - repeat constructor; lia.
  - reflexivity.
Defined.

(** ** The primality test *)

Lemma trial_division_true ps w : trial_division ps w = Some true -> In w ps.
Proof.
  induction ps as [|p rest IH]; cbn [trial_division]; [discriminate|].
  destruct (p <=? w); [|discriminate].
  destruct (Z.eqb_spec w p) as [->|_]; [intros _; now left|].
  destruct (Z.rem w p =? 0); [discriminate|].
  intros H. right. now apply IH.
Qed.

Lemma trial_division_false ps w : trial_division ps w = Some false ->
  exists p, In p ps /\ p <= w /\ w <> p /\ Z.rem w p = 0.
Proof.
  induction ps as [|p rest IH]; cbn [trial_division]; [discriminate|].
  destruct (Z.leb_spec p w) as [Hle|]; [|discriminate].
  destruct (Z.eqb_spec w p) as [|Hne]; [discriminate|].
  destruct (Z.eqb_spec (Z.rem w p) 0) as [Hr|_].
  - intros _. exists p. repeat split; try assumption. now left.
  - intros H. destruct (IH H) as (p' & Hin & Hp'). exists p'. split; [now right|exact Hp'].
Qed.

Lemma prefilter_true_prime w : prefilter w = Some true -> Z.prime w.
Proof.
  unfold prefilter. destruct (Z.eqb_spec w 2) as [->|_]; [intros _; apply Z.prime_2|].
  destruct ((Z.land w 1 =? 0) || (w =? 1)); [discriminate|].
  intros H. apply trial_division_true in H.
  now apply (proj2 firstPrimes_are_the_odd_primes).
Qed.

Lemma prefilter_false_composite w : prefilter w = Some false -> ~ Z.prime w.
Proof.
  unfold prefilter. destruct (Z.eqb_spec w 2) as [|Hw2]; [discriminate|].
  intros H Hp. pose proof (Z.prime_ge_2 w Hp) as Hge. destruct Hp as (_ & Hp).
  destruct (Z.eqb_spec (Z.land w 1) 0) as [He|_]; cbn [orb] in H.
  - rewrite land_1 in He. apply (Hp 2); [lia|].
    apply Z.mod_divide; [lia|exact He].
  - destruct (Z.eqb_spec w 1) as [|_]; [lia|].
    apply trial_division_false in H. destruct H as (p & Hin & Hle & Hne & Hr).
    apply (proj2 firstPrimes_are_the_odd_primes) in Hin.
    apply (Hp p); [lia|]. apply Z.rem_divide; [lia|exact Hr].
Qed.

(** X14: the verdicts of the prefilter of [_isProbablyPrime] are right
    for every integer: when it answers [true] the number is prime, when it
    answers [false] the number is not. *)
Theorem prefilter_sound w :
  (prefilter w = Some true -> Z.prime w) /\
  (prefilter w = Some false -> ~ Z.prime w).
Proof.
  split; [apply prefilter_true_prime|apply prefilter_false_composite].
Qed.

Lemma prefilter_sound_witness :
  (prefilter 1597 = Some true -> Z.prime 1597) /\
  (prefilter 1597 = Some false -> ~ Z.prime 1597).
Proof. apply (prefilter_sound 1597). Defined.

(** The square roots of [1] modulo a prime. *)
Lemma sqrt_1_prime w z : Z.prime w -> 0 <= z < w -> z ^ 2 mod w = 1 ->
  z = 1 \/ z = w - 1.
Proof.
  intros Hp Hz H. pose proof (Z.prime_ge_2 w Hp) as Hge.
  assert (Hd : (w | (z - 1) * (z + 1))).
  { replace ((z - 1) * (z + 1)) with (z ^ 2 - 1) by ring.
    apply Z.mod_divide; [lia|].
    rewrite Zminus_mod, H, Z.mod_1_l, Z.sub_diag, Z.mod_0_l by lia. reflexivity. }
  apply Z.divide_prime_mul in Hd; [|exact Hp].
  destruct Hd as [(k & Hk)|(k & Hk)]; [left|right].
  - assert (k = 0); [|lia].
    destruct (Z_le_gt_dec k (-1)); [nia|]. destruct (Z_le_gt_dec 1 k); [nia|lia].
  - assert (k = 1); [|lia].
    destruct (Z_le_gt_dec k 0); [nia|]. destruct (Z_le_gt_dec 2 k); [nia|lia].
Qed.

(** What the first loop of the Miller-Rabin part returns: the power of
    two in [d] and the odd part. *)
Lemma mr_factor_loop_Ret fuel : forall a d a' d',
  0 < d -> mr_factor_loop fuel a d = Ret (a', d') ->
  exists k, 0 <= k /\ a' = a + k /\ d = 2 ^ k * d' /\ 0 < d' /\ Z.rem d' 2 <> 0.
Proof.
  induction fuel as [|fuel IH]; intros a d a' d' Hd H; [discriminate|].
  cbn [mr_factor_loop] in H.
  destruct (Z.eqb_spec (Z.rem d 2) 0) as [Hr|Hr].
  - pose proof (Z.quot_rem' d 2) as E. rewrite Hr in E.
    apply IH in H; [|lia].
    destruct H as (k & Hk & -> & Hdk & Hd' & Hodd).
    exists (k + 1). split; [lia|]. split; [lia|]. split; [|now split].
    rewrite Z.pow_add_r by lia. change (2 ^ 1) with 2. lia.
  - inversion H. subst. exists 0. split; [lia|]. split; [lia|].
    split; [rewrite Z.pow_0_r; lia|]. now split.
Qed.

(** On a prime, the squaring loop never ends in [return false]. *)
Lemma mr_square_loop_prime w : Z.prime w -> forall fuel j a z,
  1 <= j <= a -> 0 <= z < w -> z <> 1 -> z <> w - 1 ->
  z ^ (2 ^ (a - j + 1)) mod w = 1 ->
  mr_square_loop fuel j a (BigInt z) w <> Ret false.
Proof.
  intros Hp. pose proof (Z.prime_ge_2 w Hp) as Hge.
  induction fuel as [|fuel IH]; intros j a z Hj Hz H1 Hw Hpow; [discriminate|].
  cbn [mr_square_loop].
  destruct (Z.ltb_spec j a) as [Hlt|Hnlt].
  - rewrite modPow_pow by lia. cbn [bind value_eqb].
    destruct (Z.eqb_spec (z ^ 2 mod w) (w - 1)) as [|Hn1]; [discriminate|].
    destruct (Z.eqb_spec (z ^ 2 mod w) 1) as [E1|Hn2].
    + destruct (sqrt_1_prime w z Hp Hz E1); contradiction.
    + apply IH; try assumption; try lia.
      * apply Z.mod_pos_bound. lia.
      * rewrite <- Z.mod_pow_l, Z.mod_mod, Z.mod_pow_l by lia.
        rewrite <- Z.pow_mul_r by (try apply Z.pow_nonneg; lia).
        etransitivity; [|exact Hpow]. f_equal. f_equal.
        replace (a - j + 1) with (Z.succ (a - (j + 1) + 1)) by lia.
        rewrite Z.pow_succ_r by lia. reflexivity.
  - assert (j = a) by lia. subst j.
    replace (a - a + 1) with 1 in Hpow by lia. change (2 ^ 1) with 2 in Hpow.
    destruct (sqrt_1_prime w z Hp Hz Hpow); contradiction.
Qed.

(** On a prime, the rounds of Miller-Rabin never answer [false]. *)
Lemma mr_loop_prime w a m : Z.prime w -> 1 <= a -> 0 <= m -> w - 1 = 2 ^ a * m ->
  forall fuel iterations t r t',
  mr_loop fuel iterations w a m t = Ret (r, t') -> r = true.
Proof.
  intros Hp Ha Hm Hw. pose proof (Z.prime_ge_2 w Hp) as Hge.
  induction fuel as [|fuel IH]; intros iterations t r t' H; [discriminate|].
  cbn [mr_loop] in H. apply rbind_Ret in H. destruct H as (b & t1 & Hb & H).
  apply randBetween_Ret in Hb. destruct Hb as (Hb & _).
  apply rbind_Ret in H. destruct H as (z & t2 & Hz & H).
  apply lift_Ret in Hz. destruct Hz as (Hz & ->).
  rewrite modPow_pow in Hz by lia. inversion Hz. subst z. clear Hz.
  apply rbind_Ret in H. destruct H as (again & t3 & Hagain & H).
  apply lift_Ret in Hagain. destruct Hagain as (Hagain & ->).
  destruct again.
  - destruct (negb (iterations - 1 =? 0)).
    + now apply IH in H.
    + unfold rret in H. now inversion H.
  - exfalso. cbn [value_eqb] in Hagain.
    destruct (Z.eqb_spec (b ^ m mod w) 1) as [|H1]; [discriminate|].
    destruct (Z.eqb_spec (b ^ m mod w) (w - 1)) as [|H2]; [discriminate|].
    cbn [orb] in Hagain. revert Hagain.
    apply (mr_square_loop_prime w Hp); try assumption; try lia.
    + apply Z.mod_pos_bound. lia.
    + replace (a - 1 + 1) with a by lia.
      rewrite Z.mod_pow_l, <- Z.pow_mul_r by (try apply Z.pow_nonneg; lia).
      rewrite (Z.mul_comm m), <- Hw.
      apply fermat_coprime; [exact Hp|].
      rewrite Z.gcd_comm.
      apply Z.coprime_prime_l; [exact Hp|].
      intros (k & Hk). destruct (Z_le_gt_dec k 0); nia.
Qed.

(** The Miller-Rabin part on a prime that the prefilter lets through. *)
Lemma millerRabin_prime w iterations t r t' :
  Z.prime w -> prefilter w = None ->
  millerRabin w iterations t = Ret (r, t') -> r = true.
Proof.
  intros Hp Hpre H. pose proof (Z.prime_ge_2 w Hp) as Hge.
  assert (Hodd : w mod 2 = 1).
  { unfold prefilter in Hpre. destruct (w =? 2); [discriminate|].
    destruct (Z.eqb_spec (Z.land w 1) 0) as [|Hl]; [discriminate|].
    rewrite land_1 in Hl. destruct (mod2_cases w); [contradiction|assumption]. }
  unfold millerRabin in H. apply rbind_Ret in H.
  destruct H as ((a & d) & t1 & Hf & H).
  apply lift_Ret in Hf. destruct Hf as (Hf & ->).
  apply mr_factor_loop_Ret in Hf; [|lia].
  destruct Hf as (k & Hk & Ha & Hd & Hd' & Hdodd). cbn [Z.add] in Ha. subst k.
  assert (Ha : 1 <= a).
  { destruct (Z.eq_dec a 0) as [->|]; [|lia]. exfalso.
    rewrite Z.pow_0_r, Z.mul_1_l in Hd. subst d.
    apply Hdodd. rewrite Z.rem_mod_nonneg by lia.
    rewrite Zminus_mod, Hodd. reflexivity. }
  assert (Hm : Z.quot (w - 1) (2 ^ a) = d).
  { rewrite Hd, Z.mul_comm. apply Z.quot_mul.
    apply Z.pow_nonzero; lia. }
  rewrite Hm in H.
  apply (mr_loop_prime w a d Hp Ha ltac:(lia) Hd) in H. exact H.
Qed.

(** X15: [_isProbablyPrime] never rejects a prime: whatever the random
    bytes and the number of iterations, if it returns for a prime [w], it
    returns [true]. *)
Theorem isProbablyPrime_accepts_primes w iterations t r t' :
  Z.prime w -> _isProbablyPrime w iterations t = Ret (r, t') -> r = true.
Proof.
  intros Hp H. unfold _isProbablyPrime in H.
  destruct (prefilter w) as [[|]|] eqn:Hpre.
  - unfold rret in H. now inversion H.
  - now apply prefilter_false_composite in Hpre.
  - now apply (millerRabin_prime w iterations t r t').
Qed.

Lemma isProbablyPrime_accepts_primes_witness :
  Z.prime 1601 /\
  _isProbablyPrime 1601 16 (repeat Byte.x05 32) = Ret (true, []) /\
  true = true.
Proof.
  assert (Hp : Z.prime 1601) by prove_prime.
  assert (Hr : _isProbablyPrime 1601 16 (repeat Byte.x05 32) = Ret (true, []))
    by (vm_compute; reflexivity).
  split; [exact Hp|]. split; [exact Hr|].
  exact (isProbablyPrime_accepts_primes 1601 16 _ true [] Hp Hr).
Defined.

(** With a counter that starts at [0] or below, [--iterations] never
    reaches [0]: the rounds can only end by [return false]. *)
Lemma mr_loop_nonpositive w a m : forall fuel iterations t r t',
  iterations <= 0 -> mr_loop fuel iterations w a m t = Ret (r, t') -> r = false.
Proof.
  induction fuel as [|fuel IH]; intros iterations t r t' Hi H; [discriminate|].
  cbn [mr_loop] in H. apply rbind_Ret in H. destruct H as (b & t1 & _ & H).
  apply rbind_Ret in H. destruct H as (z & t2 & _ & H).
  apply rbind_Ret in H. destruct H as (again & t3 & _ & H).
  destruct again.
  - destruct (Z.eqb_spec (iterations - 1) 0) as [|_]; [lia|]. cbn [negb] in H.
    apply IH in H; [exact H|lia].
  - unfold rret in H. now inversion H.
Qed.

(** X16: [_isProbablyPrime(w, 0)] does not mean "no Miller-Rabin round":
    the loop is a [do ... while (--iterations)], so with [iterations <= 0]
    the rounds go on until one answers [false].  If the call returns at
    all on a number beyond the prefilter, it returns [false] and the
    number is composite; on a prime it never returns. *)
Theorem isProbablyPrime_iterations_nonpositive w iterations t r t' :
  iterations <= 0 -> prefilter w = None ->
  _isProbablyPrime w iterations t = Ret (r, t') ->
  r = false /\ ~ Z.prime w.
Proof.
  intros Hi Hpre H. unfold _isProbablyPrime in H. rewrite Hpre in H.
  assert (Hr : r = false).
  { unfold millerRabin in H. apply rbind_Ret in H.
    destruct H as ((a & d) & t1 & _ & H).
    now apply mr_loop_nonpositive in H. }
  split; [exact Hr|]. intros Hp.
  apply (millerRabin_prime w iterations t r t' Hp Hpre) in H. congruence.
Qed.

Lemma isProbablyPrime_iterations_nonpositive_witness :
  false = false /\ ~ Z.prime (1601 * 1607).
Proof.
  apply (isProbablyPrime_iterations_nonpositive
           (1601 * 1607) 0 (repeat Byte.x05 32) false (repeat Byte.x05 29)).
  - lia.
  - vm_compute. reflexivity.
  - vm_compute. reflexivity.
Defined.

(** ** Decryption and encryption on all integers *)

Section AllIntegers.

Variables (sk : PrivateKey.t) (gz muz : Z).
Hypothesis Hok : key_ok sk gz muz.

Local Abbreviation pk := (PrivateKey.publicKey sk).
Local Abbreviation n := (PrivateKey.n sk).
Local Abbreviation lam := (PrivateKey.lambda sk).

(** The value of [decrypt] on any integer: the result of [L] is not
    negative, so that [%] returns a residue in [[0, n)]. *)
Lemma decrypt_value c :
  exists v, PrivateKey.decrypt sk c = Ret (BigInt v) /\ 0 <= v < n /\
            v = Z.rem (Z.quot (c ^ lam mod n ^ 2 - 1) n * muz) n.
Proof.
  unfold PrivateKey.decrypt.
  change (PublicKey.n (PrivateKey.publicKey sk)) with (PrivateKey.n sk).
  pose proof (n_gt_1 sk gz muz Hok) as Hn.
  pose proof (n2_gt_1 sk gz muz Hok) as Hn2.
  pose proof (lam_nonneg sk gz muz Hok) as Hl.
  rewrite (ok_n2 _ _ _ Hok), (ok_mu _ _ _ Hok).
  rewrite modPow_pow by assumption. cbn [bind].
  unfold L. cbn [js_sub bind js_div].
  destruct (Z.eqb_spec n 0) as [E0|E0]; [lia|]; clear E0. cbn [bind js_mul js_rem].
  destruct (Z.eqb_spec n 0) as [E0|E0]; [lia|]; clear E0.
  eexists. split; [reflexivity|]. split; [|reflexivity].
  pose proof (Z.mod_pos_bound (c ^ lam) (n ^ 2) ltac:(lia)) as B.
  pose proof (ok_mu_range _ _ _ Hok) as Bmu.
  assert (Hq : 0 <= Z.quot (c ^ lam mod n ^ 2 - 1) n).
  { destruct (Z.eq_dec (c ^ lam mod n ^ 2) 0) as [E|E].
    - rewrite E. change (0 - 1) with (- (1)).
      rewrite Z.quot_opp_l, Z.quot_small by lia. lia.
    - apply Z.quot_pos; lia. }
  apply Z.rem_bound_pos; [|lia]. apply Z.mul_nonneg_nonneg; lia.
Qed.

(** [encrypt] of a negative plaintext: the power of [g] is an inverse
    modulo [n^2]. *)
Lemma encrypt_negative m r tape : m < 0 -> Z.gcd r n = 1 ->
  exists c, PublicKey.encrypt pk m (Some r) tape = Ret (BigInt c, tape) /\
            0 <= c < n ^ 2 /\ class sk gz c m.
Proof.
  intros Hm Hr. unfold PublicKey.encrypt, rbind, rret, lift.
  pose proof (n_gt_1 sk gz muz Hok) as Hn.
  pose proof (n2_gt_1 sk gz muz Hok) as Hn2.
  rewrite (ok_n2 _ _ _ Hok), (ok_g _ _ _ Hok).
  change (PublicKey.n (PrivateKey.publicKey sk)) with (PrivateKey.n sk).
  rewrite modPow_neg by lia.
  assert (Hu : Z.gcd (gz ^ (- m)) (n ^ 2) = 1).
  { apply Z.coprime_pow_l; [lia|].
    apply (proj1 (coprime_square _ _)). exact (ok_g_unit _ _ _ Hok). }
  destruct (modInv_coprime (gz ^ (- m) mod n ^ 2) (n ^ 2)) as (v & Hv & Bv & Iv).
  - lia.
  - rewrite Z.mod_mod by lia. apply coprime_mod_nonzero; assumption.
  - now rewrite Z.gcd_mod_l.
  - rewrite Hv. cbn [bind]. rewrite modPow_pow by lia. cbn [bind js_mul js_rem].
    destruct (Z.eqb_spec (n ^ 2) 0) as [E0|E0]; [lia|]; clear E0. cbn [bind].
    pose proof (Z.mod_pos_bound (r ^ n) (n ^ 2) ltac:(lia)).
    rewrite Z.rem_mod_nonneg by nia.
    eexists. split; [reflexivity|].
    split; [apply Z.mod_pos_bound; lia|].
    apply (class_mod sk gz).
    assert (Gv : class sk gz v (- (- m * 1))).
    { rewrite Z.mul_mod_idemp_l, Z.mul_comm in Iv by lia.
      apply (class_inv sk gz muz Hok (gz ^ (- m))); [|assumption].
      apply (class_pow sk gz muz Hok); [lia|].
      apply (class_g sk gz muz Hok). }
    assert (Gr : class sk gz (r ^ n mod n ^ 2) 0).
    { apply (class_mod sk gz). now apply (class_nth_power sk gz muz Hok). }
    pose proof (class_mul sk gz _ _ _ _ Gv Gr) as G.
    replace (- (- m * 1) + 0) with m in G by ring. exact G.
Qed.

Lemma encrypt_any_integer m r tape : Z.gcd r n = 1 ->
  exists c, PublicKey.encrypt pk m (Some r) tape = Ret (BigInt c, tape) /\
            0 <= c < n ^ 2 /\
            PrivateKey.decrypt sk c = Ret (BigInt (m mod n)).
Proof.
  intros Hr. pose proof (n2_gt_1 sk gz muz Hok) as Hn2.
  destruct (Z.lt_ge_cases m 0) as [Hm|Hm].
  - destruct (encrypt_negative m r tape Hm Hr) as (c & Hc & Bc & Hcl).
    exists c. split; [exact Hc|]. split; [exact Bc|].
    now apply (decrypt_class sk gz muz Hok).
  - exists ((gz ^ m * r ^ n) mod n ^ 2).
    split; [now apply (encrypt_value sk gz muz Hok)|].
    split; [apply Z.mod_pos_bound; lia|].
    apply (decrypt_class sk gz muz Hok). now apply (encrypt_class sk gz muz Hok).
Qed.

(** The value of the body shared by the [encryptOtherN*] methods. *)
Lemma encrypt_moduli_value m r ng nr nout :
  0 <= m -> 1 < ng -> 1 < nr -> 0 < nout ->
  PublicKey.encrypt_moduli pk m r ng nr nout =
  Ret (BigInt ((gz ^ m mod ng * (r ^ n mod nr)) mod nout)).
Proof.
  intros Hm Hg Hr Ho. unfold PublicKey.encrypt_moduli.
  pose proof (n_gt_1 sk gz muz Hok) as Hn.
  rewrite (ok_g _ _ _ Hok).
  change (PublicKey.n (PrivateKey.publicKey sk)) with (PrivateKey.n sk).
  rewrite !modPow_pow by lia. cbn [bind js_mul js_rem].
  destruct (Z.eqb_spec nout 0) as [E0|E0]; [lia|]; clear E0.
  pose proof (Z.mod_pos_bound (gz ^ m) ng ltac:(lia)).
  pose proof (Z.mod_pos_bound (r ^ n) nr ltac:(lia)).
  rewrite Z.rem_mod_nonneg by nia. reflexivity.
Qed.

(** Reducing modulo a multiple of [n^2] first does not change the
    residue modulo [n^2]. *)
Lemma encrypt_moduli_residue m r ng nr : 1 < ng -> 1 < nr ->
  (n ^ 2 | ng) -> (n ^ 2 | nr) ->
  (gz ^ m mod ng * (r ^ n mod nr)) mod n ^ 2 = (gz ^ m * r ^ n) mod n ^ 2.
Proof.
  intros Hg Hr Dg Dr. pose proof (n2_gt_1 sk gz muz Hok) as Hn2.
  rewrite Zmult_mod, !Z.mod_mod_divide by assumption.
  now rewrite <- Zmult_mod.
Qed.

End AllIntegers.

(** X17: for a valid key pair [decrypt] accepts every integer, also one
    that is no ciphertext, a negative one or one beyond [n^2]: it returns
    a bigint in [[0, n)], which depends on [c] through [c mod n^2] only. *)
Theorem decrypt_any_integer kp c : valid_keypair kp ->
  exists v, PrivateKey.decrypt (privateKey kp) c = Ret (BigInt v) /\
            0 <= v < PublicKey.n (publicKey kp) /\
            PrivateKey.decrypt (privateKey kp)
              (c mod PublicKey.n (publicKey kp) ^ 2) = Ret (BigInt v).
Proof.
  intros Hkp. destruct (valid_keypair_ok kp Hkp) as (gz & muz & Hok & Hpk).
  rewrite <- Hpk.
  change (PublicKey.n (PrivateKey.publicKey (privateKey kp)))
    with (PrivateKey.n (privateKey kp)).
  destruct (decrypt_value _ gz muz Hok c) as (v & Hv & Bv & Ev).
  destruct (decrypt_value _ gz muz Hok (c mod PrivateKey.n (privateKey kp) ^ 2))
    as (v' & Hv' & _ & Ev').
  exists v. split; [exact Hv|]. split; [exact Bv|].
  rewrite Hv'. do 2 f_equal. rewrite Ev, Ev'.
  now rewrite Z.mod_pow_l.
Qed.

Lemma decrypt_any_integer_witness :
  exists v, PrivateKey.decrypt (privateKey kp_11_13) (-5) = Ret (BigInt v) /\
            0 <= v < PublicKey.n (publicKey kp_11_13) /\
            PrivateKey.decrypt (privateKey kp_11_13)
              (-5 mod PublicKey.n (publicKey kp_11_13) ^ 2) = Ret (BigInt v).
Proof. apply (decrypt_any_integer kp_11_13 (-5)). prove_valid_keypair 11 13. Defined.

(** X18: the constructors do not check [mu].  With a private key whose
    [mu] is the [NaN] that [modInv] returned, [decrypt] throws the
    [TypeError] of mixing a bigint and a number, for every [c]. *)
Theorem decrypt_mu_NaN sk c :
  PublicKey._n2 (PrivateKey.publicKey sk) = PrivateKey.n sk ^ 2 ->
  PrivateKey.mu sk = NaN ->
  PrivateKey.decrypt sk c = Throw mixed_types.
Proof.
  intros Hn2 Hmu. unfold PrivateKey.decrypt. rewrite Hn2, Hmu.
  change (PublicKey.n (PrivateKey.publicKey sk)) with (PrivateKey.n sk).
  set (n := PrivateKey.n sk).
  assert (Hx : modPow (BigInt c) (BigInt (PrivateKey.lambda sk)) (n ^ 2) = Ret NaN \/
               n <> 0 /\ exists x, modPow (BigInt c) (BigInt (PrivateKey.lambda sk)) (n ^ 2)
                                   = Ret (BigInt x)).
  { destruct (Z.eq_dec n 0) as [E|E].
    - left. rewrite E. apply modPow_zero_modulus.
    - assert (0 < n ^ 2) by nia.
      destruct (Z.lt_ge_cases (PrivateKey.lambda sk) 0) as [Hl|Hl].
      + rewrite modPow_neg by lia.
        destruct (modInv_returns (c ^ (- PrivateKey.lambda sk) mod n ^ 2) (n ^ 2))
          as ([x|] & Hv); [right|left]; rewrite Hv; [|reflexivity].
        split; [exact E|]. now exists x.
      + right. split; [exact E|]. rewrite modPow_spec by lia. eexists. reflexivity. }
  destruct Hx as [Hx|(Hn & x & Hx)]; rewrite Hx; cbn [bind]; [reflexivity|].
  unfold L. cbn [js_sub bind js_div].
  destruct (Z.eqb_spec n 0) as [E0|_]; [contradiction|]. reflexivity.
Qed.

Lemma decrypt_mu_NaN_witness :
  PrivateKey.decrypt
    (PrivateKey.new 12 NaN (PublicKey.new 21 (BigInt 22)) (Some 3) (Some 7)) 5 =
  Throw mixed_types.
Proof.
  apply (decrypt_mu_NaN
           (PrivateKey.new 12 NaN (PublicKey.new 21 (BigInt 22)) (Some 3) (Some 7)) 5);
    reflexivity.
Defined.

(** X19: plaintexts are taken modulo [n]: for a valid key pair, every
    integer [m], negative or beyond [n], and every [r] coprime to [n],
    [encrypt(m, r)] returns a ciphertext in [[0, n^2)] and [decrypt]
    returns [m mod n] for it. *)
Theorem decrypt_encrypt_any_integer kp m r tape :
  valid_keypair kp -> Z.gcd r (PublicKey.n (publicKey kp)) = 1 ->
  exists c,
    PublicKey.encrypt (publicKey kp) m (Some r) tape = Ret (BigInt c, tape) /\
    0 <= c < PublicKey.n (publicKey kp) ^ 2 /\
    PrivateKey.decrypt (privateKey kp) c =
      Ret (BigInt (m mod PublicKey.n (publicKey kp))).
Proof.
  intros Hkp. destruct (valid_keypair_ok kp Hkp) as (gz & muz & Hok & Hpk).
  rewrite <- Hpk.
  change (PublicKey.n (PrivateKey.publicKey (privateKey kp)))
    with (PrivateKey.n (privateKey kp)).
  intros Hr. now apply (encrypt_any_integer _ gz muz Hok).
Qed.

Lemma decrypt_encrypt_any_integer_witness :
  exists c,
    PublicKey.encrypt (publicKey kp_11_13) (-3) (Some 2) [] = Ret (BigInt c, []) /\
    0 <= c < PublicKey.n (publicKey kp_11_13) ^ 2 /\
    PrivateKey.decrypt (privateKey kp_11_13) c =
      Ret (BigInt (-3 mod PublicKey.n (publicKey kp_11_13))).
Proof.
  apply (decrypt_encrypt_any_integer kp_11_13 (-3) 2 []);
    [prove_valid_keypair 11 13|reflexivity].
Defined.

(** ** Generators and key pairs *)

(** X20: [keysFromPrimesSimple(p, q)] checks nothing about its arguments
    and never throws: it returns the key pair with [n = p q],
    [g = n + 1] and [lambda = (p - 1)(q - 1)].  Its [mu] is the inverse of
    [lambda] modulo [n] when [n > 1] and [gcd(lambda, n) = 1], and [NaN]
    otherwise. *)
Theorem keysFromPrimesSimple_returns p q :
  exists mu,
    keysFromPrimesSimple p q =
      Ret {| publicKey := PublicKey.new (p * q) (BigInt (p * q + 1));
             privateKey := PrivateKey.new ((p - 1) * (q - 1)) mu
                             (PublicKey.new (p * q) (BigInt (p * q + 1)))
                             (Some p) (Some q) |} /\
    ((1 < p * q /\ Z.gcd ((p - 1) * (q - 1)) (p * q) = 1 /\
      exists x, mu = BigInt x /\ 0 <= x < p * q /\
                ((p - 1) * (q - 1) * x) mod (p * q) = 1) \/
     ((p * q <= 1 \/ Z.gcd ((p - 1) * (q - 1)) (p * q) <> 1) /\ mu = NaN)).
Proof.
  unfold keysFromPrimesSimple.
  destruct (Z_le_gt_dec (p * q) 1) as [Hn|Hn].
  - exists NaN. rewrite modInv_none; [split; [reflexivity|right; split; [now left|reflexivity]]|].
    destruct (Z_le_gt_dec (p * q) 0) as [H0|H0]; [now left|].
    right; left. replace (p * q) with 1 by lia. apply Z.mod_1_r.
  - destruct (Z.eq_dec (Z.gcd ((p - 1) * (q - 1)) (p * q)) 1) as [Hg|Hg].
    + destruct (modInv_coprime ((p - 1) * (q - 1)) (p * q)) as (x & Hx & Bx & Ix);
        [lia|apply coprime_mod_nonzero; [lia|exact Hg]|exact Hg|].
      exists (BigInt x). rewrite Hx. split; [reflexivity|].
      left. split; [lia|]. split; [exact Hg|]. now exists x.
    + exists NaN. rewrite modInv_none by (now right; right).
      split; [reflexivity|]. right. split; [now right|reflexivity].
Qed.

(** X21: [keysFromPrimes(p, q, g)] with a generator [g] checks nothing
    either.  When [p q = 0] it throws the [TypeError] of [NaN - 1n] in
    [L]; otherwise it returns, without a random draw, the key pair with
    [n = p q], the given [g] and [lambda = lcm(p - 1, q - 1)], whatever
    [mu] turns out to be. *)
Theorem keysFromPrimes_returns p q g t : g <> 0 ->
  (p * q = 0 -> keysFromPrimes p q (Some g) t = Throw mixed_types) /\
  (p * q <> 0 ->
   exists mu,
     keysFromPrimes p q (Some g) t =
       Ret ({| publicKey := PublicKey.new (p * q) (BigInt g);
               privateKey := PrivateKey.new (Z.lcm (p - 1) (q - 1)) mu
                               (PublicKey.new (p * q) (BigInt g))
                               (Some p) (Some q) |}, t)).
Proof.
  intros Hg. unfold keysFromPrimes.
  destruct g as [|g'|g']; [contradiction| |];
    unfold rbind, rret, lift; rewrite lcm_spec; cbn [bind].
  all: split; intros Hn.
  all: try (rewrite Hn; reflexivity).
  all: assert (HN : 0 < (p * q) ^ 2) by nia.
  all: rewrite modPow_spec by (try apply Z.lcm_nonneg; lia).
  all: cbn [bind]; unfold L; cbn [js_sub bind js_div].
  all: destruct (Z.eqb_spec (p * q) 0) as [|_]; [contradiction|]; cbn [bind].
  all: match goal with
       | |- context [modInv (BigInt ?a) ?n] =>
           destruct (modInv_returns a n) as (mu & Hmu); rewrite Hmu
       end.
  all: now exists mu.
Qed.

Lemma keysFromPrimes_returns_witness :
  (11 * 13 = 0 -> keysFromPrimes 11 13 (Some 2) [] = Throw mixed_types) /\
  (11 * 13 <> 0 ->
   exists mu,
     keysFromPrimes 11 13 (Some 2) [] =
       Ret ({| publicKey := PublicKey.new (11 * 13) (BigInt 2);
               privateKey := PrivateKey.new (Z.lcm (11 - 1) (13 - 1)) mu
                               (PublicKey.new (11 * 13) (BigInt 2))
                               (Some 11) (Some 13) |}, [])).
Proof. apply (keysFromPrimes_returns 11 13 2 []). lia. Defined.

(** X22: the two [bitLength] getters of a key pair of
    [keysFromPrimesSimple(p, q)] agree, and the bit length of the modulus
    is the sum of the bit lengths of [p] and [q], or one less. *)
Theorem bitLength_of_keys p q kp : 0 < p -> 0 < q ->
  keysFromPrimesSimple p q = Ret kp ->
  exists bits bp bq,
    PublicKey.bitLength (publicKey kp) = Ret bits /\
    PrivateKey.bitLength (privateKey kp) = Ret bits /\
    bitLength p = Ret bp /\ bitLength q = Ret bq /\
    bp + bq - 1 <= bits <= bp + bq /\
    2 ^ (bits - 1) <= PublicKey.n (publicKey kp) < 2 ^ bits.
Proof.
  intros Hp Hq H. apply keysFromPrimesSimple_Ret in H.
  destruct H as (mu & _ & ->).
  unfold PublicKey.bitLength, PrivateKey.bitLength.
  cbn [publicKey privateKey PrivateKey.new PrivateKey.publicKey PublicKey.new PublicKey.n].
  rewrite !bitLength_spec.
  assert (Hpq : 0 < p * q) by nia.
  destruct (Z.ltb_spec 0 p) as [_|]; [|lia].
  destruct (Z.ltb_spec 0 q) as [_|]; [|lia].
  destruct (Z.ltb_spec 0 (p * q)) as [_|]; [|lia].
  exists (Z.log2 (p * q) + 1), (Z.log2 p + 1), (Z.log2 q + 1).
  repeat (split; [reflexivity|]).
  pose proof (Z.log2_mul_below p q Hp Hq).
  pose proof (Z.log2_mul_above p q ltac:(lia) ltac:(lia)).
  split; [lia|].
  replace (Z.log2 (p * q) + 1 - 1) with (Z.log2 (p * q)) by lia.
  apply (Z.log2_spec _ Hpq).
Qed.

Lemma bitLength_of_keys_witness :
  exists bits bp bq,
    PublicKey.bitLength (publicKey kp_11_13) = Ret bits /\
    PrivateKey.bitLength (privateKey kp_11_13) = Ret bits /\
    bitLength 11 = Ret bp /\ bitLength 13 = Ret bq /\
    bp + bq - 1 <= bits <= bp + bq /\
    2 ^ (bits - 1) <= PublicKey.n (publicKey kp_11_13) < 2 ^ bits.
Proof.
  apply (bitLength_of_keys 11 13 kp_11_13); [lia|lia|reflexivity].
Defined.

(** X23: [getGenerator(n, n^2)] returns [(alpha n + 1) beta^n mod n^2]
    for two draws [alpha] and [beta] of [[1, n]]; the result is a unit
    modulo [n] exactly when [beta] is, which the function does not
    check. *)
Theorem getGenerator_Ret n t g t' : 1 < n ->
  getGenerator n (n ^ 2) t = Ret (g, t') ->
  exists alpha beta,
    1 <= alpha <= n /\ 1 <= beta <= n /\
    g = BigInt (((alpha * n + 1) * beta ^ n) mod n ^ 2) /\
    (Z.gcd (((alpha * n + 1) * beta ^ n) mod n ^ 2) n = 1 <-> Z.gcd beta n = 1).
Proof.
  intros Hn H. unfold getGenerator in H.
  apply rbind_Ret in H. destruct H as (alpha & t1 & Ha & H).
  apply rbind_Ret in H. destruct H as (beta & t2 & Hb & H).
  apply randBetween_Ret in Ha. destruct Ha as (Ha & _).
  apply randBetween_Ret in Hb. destruct Hb as (Hb & _).
  apply lift_Ret in H. destruct H as (H & ->).
  assert (Hn2 : 1 < n ^ 2) by nia.
  rewrite modPow_pow in H by lia. cbn [bind js_mul js_rem] in H.
  destruct (Z.eqb_spec (n ^ 2) 0) as [E0|_]; [lia|].
  pose proof (Z.mod_pos_bound (beta ^ n) (n ^ 2) ltac:(lia)).
  rewrite Z.rem_mod_nonneg in H by nia.
  rewrite Zmult_mod_idemp_r in H. inversion H. subst g. clear H.
  exists alpha, beta. split; [exact Ha|]. split; [exact Hb|].
  split; [reflexivity|].
  rewrite <- Z.gcd_mod_l.
  rewrite Z.mod_mod_divide by (exists n; ring).
  rewrite Zmult_mod.
  replace ((alpha * n + 1) mod n) with 1.
  - rewrite Z.mul_1_l, Z.mod_mod, Z.gcd_mod_l by lia.
    apply coprime_pow_iff. lia.
  - rewrite Z.add_comm, Z_mod_plus_full. symmetry. apply Z.mod_1_l. lia.
Qed.

Lemma getGenerator_Ret_witness :
  exists alpha beta,
    1 <= alpha <= 15 /\ 1 <= beta <= 15 /\
    BigInt 46 = BigInt (((alpha * 15 + 1) * beta ^ 15) mod 15 ^ 2) /\
    (Z.gcd (((alpha * 15 + 1) * beta ^ 15) mod 15 ^ 2) 15 = 1 <-> Z.gcd beta 15 = 1).
Proof.
  apply (getGenerator_Ret 15 [Byte.x02; Byte.x00] (BigInt 46) []); [lia|].
  vm_compute. reflexivity.
Defined.

(** X24: what [generateDualG(n1, n2)] does guarantee.  For [n1 <= 1] it
    throws the error of [randBetween]; a value [r] that it returns lies
    in [[1, n1]] and is coprime to [n1] or to [n2], and when the two
    moduli are equal it is coprime to them. *)
Theorem generateDualG_guarantee n1 n2 t :
  (n1 <= 1 -> generateDualG n1 n2 t = Throw (Error "max must be > min")) /\
  (forall r t', generateDualG n1 n2 t = Ret (r, t') ->
     1 < n1 /\ 1 <= r <= n1 /\ (Z.gcd r n1 = 1 \/ Z.gcd r n2 = 1) /\
     (n1 = n2 -> Z.gcd r n1 = 1)).
Proof.
  split.
  - intros Hn. unfold generateDualG. cbn [generateDualG_loop].
    unfold rbind, randBetween.
    destruct (Z.leb_spec n1 1) as [_|]; [reflexivity|lia].
  - intros r t' H.
    pose proof (generateDualG_Ret _ _ _ _ _ H) as (Hr & Hg).
    split.
    + unfold generateDualG in H. cbn [generateDualG_loop] in H.
      unfold rbind, randBetween in H.
      destruct (Z.leb_spec n1 1) as [|Hlt]; [discriminate|exact Hlt].
    + split; [exact Hr|]. split; [exact Hg|].
      intros <-. now destruct Hg.
Qed.

Lemma generateDualG_guarantee_witness :
  1 < 15 /\ 1 <= 5 <= 15 /\ (Z.gcd 5 15 = 1 \/ Z.gcd 5 21 = 1) /\
  (15 = 21 -> Z.gcd 5 15 = 1).
Proof.
  apply (proj2 (generateDualG_guarantee 15 21 [Byte.x02; Byte.x04]) 5 []).
  reflexivity.
Defined.

(** ** Operations on ciphertexts *)

(** X25: the variants of [encrypt] that reduce the product modulo
    [this._n2] ([encryptOtherNB], [NC], [ND] and [NE]) return exactly what
    [encrypt(m, r)] returns when the other modulus [n2] is a positive
    multiple of [n^2], [n2 = this._n2] included. *)
Theorem encryptOther_inner_moduli kp m r n2 tape :
  valid_keypair kp -> 0 <= m ->
  0 < n2 -> (PublicKey.n (publicKey kp) ^ 2 | n2) ->
  exists c,
    PublicKey.encrypt (publicKey kp) m (Some r) tape = Ret (BigInt c, tape) /\
    PublicKey.encryptOtherNB (publicKey kp) m r n2 = Ret (BigInt c) /\
    PublicKey.encryptOtherNC (publicKey kp) m r n2 = Ret (BigInt c) /\
    PublicKey.encryptOtherND (publicKey kp) m r n2 = Ret (BigInt c) /\
    PublicKey.encryptOtherNE (publicKey kp) m r n2 = Ret (BigInt c).
Proof.
  intros Hkp. destruct (valid_keypair_ok kp Hkp) as (gz & muz & Hok & Hpk).
  rewrite <- Hpk.
  change (PublicKey.n (PrivateKey.publicKey (privateKey kp)))
    with (PrivateKey.n (privateKey kp)).
  intros Hm Hn2 Hd.
  pose proof (n2_gt_1 _ gz muz Hok) as HN.
  pose proof (multiple_gt_1 _ _ HN Hn2 Hd) as Hn2'.
  assert (Hrefl : (PrivateKey.n (privateKey kp) ^ 2 | PrivateKey.n (privateKey kp) ^ 2))
    by apply Z.divide_refl.
  exists ((gz ^ m * r ^ PrivateKey.n (privateKey kp)) mod PrivateKey.n (privateKey kp) ^ 2).
  split; [now apply (encrypt_value _ gz muz Hok)|].
  unfold PublicKey.encryptOtherNB, PublicKey.encryptOtherNC,
    PublicKey.encryptOtherND, PublicKey.encryptOtherNE.
  rewrite (ok_n2 _ _ _ Hok).
  rewrite !(encrypt_moduli_value _ gz muz Hok) by lia.
  rewrite !(encrypt_moduli_residue _ gz muz Hok) by assumption.
  repeat split.
Qed.

Lemma encryptOther_inner_moduli_witness :
  exists c,
    PublicKey.encrypt (publicKey kp_11_13) 7 (Some 2) [] = Ret (BigInt c, []) /\
    PublicKey.encryptOtherNB (publicKey kp_11_13) 7 2 40898 = Ret (BigInt c) /\
    PublicKey.encryptOtherNC (publicKey kp_11_13) 7 2 40898 = Ret (BigInt c) /\
    PublicKey.encryptOtherND (publicKey kp_11_13) 7 2 40898 = Ret (BigInt c) /\
    PublicKey.encryptOtherNE (publicKey kp_11_13) 7 2 40898 = Ret (BigInt c).
Proof.
  apply (encryptOther_inner_moduli kp_11_13 7 2 40898 []);
    [prove_valid_keypair 11 13|lia|lia|exists 2; reflexivity].
Defined.

(** X26: the variants that reduce the product modulo [n2]
    ([encryptOtherNA] and [encryptOtherNF]) return, for a positive
    multiple [n2] of [n^2] and [r] coprime to [n], a number of [[0, n2)]
    that is congruent to [encrypt(m, r)] modulo [n^2] and decrypts to
    [m mod n]. *)
Theorem encryptOther_outer_modulus kp m r n2 tape :
  valid_keypair kp -> 0 <= m -> Z.gcd r (PublicKey.n (publicKey kp)) = 1 ->
  0 < n2 -> (PublicKey.n (publicKey kp) ^ 2 | n2) ->
  exists c ca cf,
    PublicKey.encrypt (publicKey kp) m (Some r) tape = Ret (BigInt c, tape) /\
    PublicKey.encryptOtherNA (publicKey kp) m r n2 = Ret (BigInt ca) /\
    PublicKey.encryptOtherNF (publicKey kp) m r n2 = Ret (BigInt cf) /\
    0 <= ca < n2 /\ 0 <= cf < n2 /\
    ca mod PublicKey.n (publicKey kp) ^ 2 = c /\
    cf mod PublicKey.n (publicKey kp) ^ 2 = c /\
    PrivateKey.decrypt (privateKey kp) ca =
      Ret (BigInt (m mod PublicKey.n (publicKey kp))) /\
    PrivateKey.decrypt (privateKey kp) cf =
      Ret (BigInt (m mod PublicKey.n (publicKey kp))).
Proof.
  intros Hkp. destruct (valid_keypair_ok kp Hkp) as (gz & muz & Hok & Hpk).
  rewrite <- Hpk.
  change (PublicKey.n (PrivateKey.publicKey (privateKey kp)))
    with (PrivateKey.n (privateKey kp)).
  set (sk := privateKey kp) in *. set (n := PrivateKey.n sk).
  intros Hm Hr Hn2 Hd.
  pose proof (n2_gt_1 _ gz muz Hok) as HN. fold n in HN.
  pose proof (multiple_gt_1 _ _ HN Hn2 Hd) as Hn2'.
  assert (Hrefl : (n ^ 2 | n ^ 2)) by apply Z.divide_refl.
  exists ((gz ^ m * r ^ n) mod n ^ 2),
         ((gz ^ m mod n ^ 2 * (r ^ n mod n ^ 2)) mod n2),
         ((gz ^ m mod n ^ 2 * (r ^ n mod n2)) mod n2).
  split; [now apply (encrypt_value _ gz muz Hok)|].
  unfold PublicKey.encryptOtherNA, PublicKey.encryptOtherNF.
  rewrite (ok_n2 _ _ _ Hok). fold n.
  rewrite !(encrypt_moduli_value _ gz muz Hok) by lia. fold n.
  split; [reflexivity|]. split; [reflexivity|].
  split; [apply Z.mod_pos_bound; lia|]. split; [apply Z.mod_pos_bound; lia|].
  assert (Ea : ((gz ^ m mod n ^ 2 * (r ^ n mod n ^ 2)) mod n2) mod n ^ 2
               = (gz ^ m * r ^ n) mod n ^ 2).
  { rewrite Z.mod_mod_divide by assumption.
    now apply (encrypt_moduli_residue _ gz muz Hok). }
  assert (Ef : ((gz ^ m mod n ^ 2 * (r ^ n mod n2)) mod n2) mod n ^ 2
               = (gz ^ m * r ^ n) mod n ^ 2).
  { rewrite Z.mod_mod_divide by assumption.
    now apply (encrypt_moduli_residue _ gz muz Hok). }
  split; [exact Ea|]. split; [exact Ef|].
  pose proof (encrypt_class _ gz muz Hok m r Hm Hr) as Hc. fold n in Hc.
  split; apply (decrypt_class _ gz muz Hok); apply (class_mod sk gz); fold n.
  - now rewrite Ea.
  - now rewrite Ef.
Qed.

Lemma encryptOther_outer_modulus_witness :
  exists c ca cf,
    PublicKey.encrypt (publicKey kp_11_13) 7 (Some 2) [] = Ret (BigInt c, []) /\
    PublicKey.encryptOtherNA (publicKey kp_11_13) 7 2 40898 = Ret (BigInt ca) /\
    PublicKey.encryptOtherNF (publicKey kp_11_13) 7 2 40898 = Ret (BigInt cf) /\
    0 <= ca < 40898 /\ 0 <= cf < 40898 /\
    ca mod PublicKey.n (publicKey kp_11_13) ^ 2 = c /\
    cf mod PublicKey.n (publicKey kp_11_13) ^ 2 = c /\
    PrivateKey.decrypt (privateKey kp_11_13) ca =
      Ret (BigInt (7 mod PublicKey.n (publicKey kp_11_13))) /\
    PrivateKey.decrypt (privateKey kp_11_13) cf =
      Ret (BigInt (7 mod PublicKey.n (publicKey kp_11_13))).
Proof.
  apply (encryptOther_outer_modulus kp_11_13 7 2 40898 []);
    [prove_valid_keypair 11 13|lia|reflexivity|lia|exists 2; reflexivity].
Defined.

(** X27: [multiplyOtherN2(c, k, n2)] with a scalar [k >= 0] and a
    positive multiple [n2] of [n^2] returns [c^k mod n2], and for an
    encryption [c] of [m] that number decrypts to [k m mod n]. *)
Theorem multiplyOtherN2_homomorphic kp m c k n2 :
  valid_keypair kp -> 0 <= m -> is_encryption (publicKey kp) m c ->
  0 <= k -> 0 < n2 -> (PublicKey.n (publicKey kp) ^ 2 | n2) ->
  multiplyOtherN2 c k n2 = Ret (BigInt (c ^ k mod n2)) /\
  PrivateKey.decrypt (privateKey kp) (c ^ k mod n2) =
    Ret (BigInt ((k * m) mod PublicKey.n (publicKey kp))).
Proof.
  intros Hkp. destruct (valid_keypair_ok kp Hkp) as (gz & muz & Hok & Hpk).
  rewrite <- Hpk.
  change (PublicKey.n (PrivateKey.publicKey (privateKey kp)))
    with (PrivateKey.n (privateKey kp)).
  intros Hm Henc Hk Hn2 Hd.
  pose proof (n2_gt_1 _ gz muz Hok) as HN.
  pose proof (multiple_gt_1 _ _ HN Hn2 Hd) as Hn2'.
  destruct (is_encryption_facts _ gz muz Hok m c Hm Henc) as (_ & _ & Hc).
  split.
  - unfold multiplyOtherN2. now rewrite modPow_pow by lia.
  - apply (decrypt_class _ gz muz Hok). apply (class_mod _ gz).
    rewrite Z.mod_mod_divide by assumption. apply (class_mod _ gz).
    now apply (class_pow _ gz muz Hok).
Qed.

Lemma multiplyOtherN2_homomorphic_witness :
  multiplyOtherN2 99152 4 208658 = Ret (BigInt (99152 ^ 4 mod 208658)) /\
  PrivateKey.decrypt (privateKey kp_17_19) (99152 ^ 4 mod 208658) =
    Ret (BigInt ((4 * 5) mod PublicKey.n (publicKey kp_17_19))).
Proof.
  apply (multiplyOtherN2_homomorphic kp_17_19 5 99152 4 208658).
  - prove_valid_keypair 17 19.
  - lia.
  - exists (Some 2), [], []. split; [vm_compute; reflexivity|].
    intros r0 E. injection E as <-. vm_compute. reflexivity.
  - lia.
  - lia.
  - exists 2. reflexivity.
Defined.

Lemma product_repeat c k : fold_right Z.mul 1 (repeat c k) = c ^ Z.of_nat k.
Proof.
  induction k as [|k IH]; [reflexivity|].
  cbn [repeat fold_right]. rewrite IH, Nat2Z.inj_succ, Z.pow_succ_r by lia.
  reflexivity.
Qed.

(** X28: multiplying a ciphertext by a scalar is adding it to itself:
    for a non-negative [c], a count [k >= 0] and [n^2 > 1],
    [multiply(c, k)] returns what [addition(c, ..., c)] returns on [k]
    copies of [c]. *)
Theorem multiply_is_repeated_addition pk c k :
  1 < PublicKey._n2 pk -> 0 <= c ->
  PublicKey.multiply pk c (Z.of_nat k) = PublicKey.addition pk (repeat c k).
Proof.
  intros HN Hc. unfold PublicKey.multiply.
  rewrite modPow_pow by lia.
  rewrite addition_rem by lia.
  rewrite fold_rem_mod; try lia.
  - destruct k as [|k].
    + cbn [repeat]. rewrite Z.pow_0_r, Z.mod_1_l by lia. reflexivity.
    + rewrite Z.mul_1_l, product_repeat. reflexivity.
  - apply Forall_forall. intros x Hx. apply repeat_spec in Hx. lia.
Qed.

Lemma multiply_is_repeated_addition_witness :
  PublicKey.multiply (publicKey kp_11_13) 1002 (Z.of_nat 3) =
  PublicKey.addition (publicKey kp_11_13) (repeat 1002 3).
Proof.
  apply (multiply_is_repeated_addition (publicKey kp_11_13) 1002 3); cbn; lia.
Defined.

(** The fold of [addition] as one product, for all integers. *)
Lemma fold_rem_product N cs : N <> 0 -> forall acc,
  fold_left (fun sum next => Z.rem (sum * next) N) cs acc =
  match cs with
  | [] => acc
  | _ => Z.rem (acc * fold_right Z.mul 1 cs) N
  end.
Proof.
  intros HN. induction cs as [|c rest IH]; intros acc; [reflexivity|].
  cbn [fold_left fold_right]. rewrite IH.
  destruct rest as [|c' rest'].
  - cbn [fold_right]. now rewrite Z.mul_1_r.
  - rewrite Z.mul_rem_idemp_l by assumption. f_equal. ring.
Qed.

Lemma product_Permutation cs cs' : Permutation cs cs' ->
  fold_right Z.mul 1 cs = fold_right Z.mul 1 cs'.
Proof.
  induction 1 as [|x l l' _ IH|x y l|l l' l'' _ IH1 _ IH2]; cbn [fold_right].
  - reflexivity.
  - now rewrite IH.
  - ring.
  - now rewrite IH1.
Qed.

(** With [_n2 = 0] the first reduction throws, and the error goes through
    the rest of the fold. *)
Lemma addition_throws pk e cs :
  fold_left
    (fun sum next =>
       sum <- sum ;;
       prod <- js_mul sum (BigInt next) ;;
       js_rem prod (BigInt (PublicKey._n2 pk)))
    cs (Throw e) = Throw e.
Proof. induction cs as [|c rest IH]; [reflexivity|exact IH]. Qed.

(** X29: the result of [addition] does not depend on the order of its
    arguments, for every public key and all integers. *)
Theorem addition_Permutation pk cs cs' : Permutation cs cs' ->
  PublicKey.addition pk cs = PublicKey.addition pk cs'.
Proof.
  intros HP. destruct (Z.eq_dec (PublicKey._n2 pk) 0) as [E|E].
  - destruct cs as [|c rest].
    + apply Permutation_nil in HP. now subst.
    + destruct cs' as [|c' rest']; [apply Permutation_sym, Permutation_nil in HP; discriminate|].
      unfold PublicKey.addition. cbn [fold_left bind js_mul js_rem].
      destruct (Z.eqb_spec (PublicKey._n2 pk) 0) as [_|]; [|contradiction].
      now rewrite !addition_throws.
  - rewrite !addition_rem, !fold_rem_product by assumption.
    destruct cs as [|c rest].
    + apply Permutation_nil in HP. now subst.
    + destruct cs' as [|c' rest']; [apply Permutation_sym, Permutation_nil in HP; discriminate|].
      now rewrite (product_Permutation _ _ HP).
Qed.

Lemma addition_Permutation_witness :
  PublicKey.addition (publicKey kp_11_13) [5; -7; 1002] =
  PublicKey.addition (publicKey kp_11_13) [1002; 5; -7].
Proof.
  apply (addition_Permutation (publicKey kp_11_13) [5; -7; 1002] [1002; 5; -7]).
  apply Permutation_sym. apply (Permutation_cons_app [5; -7] [] 1002). reflexivity.
Defined.

(** X30: sums can be added: for [n^2 > 1], [addition] of a list in two
    parts is [addition] of the results for the two parts. *)
Theorem addition_of_additions pk cs1 cs2 : 1 < PublicKey._n2 pk ->
  exists s1 s2,
    PublicKey.addition pk cs1 = Ret (BigInt s1) /\
    PublicKey.addition pk cs2 = Ret (BigInt s2) /\
    PublicKey.addition pk (cs1 ++ cs2) = PublicKey.addition pk [s1; s2].
Proof.
  intros HN. set (N := PublicKey._n2 pk) in *.
  set (f := fun sum next => Z.rem (sum * next) N).
  exists (fold_left f cs1 1), (fold_left f cs2 1).
  rewrite !addition_rem by lia. fold N. fold f.
  split; [reflexivity|]. split; [reflexivity|].
  do 2 f_equal. rewrite fold_left_app. cbn [fold_left].
  rewrite !(fold_rem_product N) by lia.
  assert (H1 : Z.rem 1 N = 1) by (apply Z.rem_small; lia).
  destruct cs1 as [|c1 r1], cs2 as [|c2 r2]; unfold f;
    rewrite ?Z.mul_1_l, ?Z.mul_1_r, ?Z.rem_rem, ?H1, ?Z.mul_1_l, ?Z.rem_rem, ?H1
      by lia; try reflexivity.
  rewrite Z.mul_rem_idemp_r by lia. reflexivity.
Qed.

Lemma addition_of_additions_witness :
  exists s1 s2,
    PublicKey.addition (publicKey kp_11_13) [5; 7] = Ret (BigInt s1) /\
    PublicKey.addition (publicKey kp_11_13) [1002] = Ret (BigInt s2) /\
    PublicKey.addition (publicKey kp_11_13) ([5; 7] ++ [1002]) =
    PublicKey.addition (publicKey kp_11_13) [s1; s2].
Proof.
  apply (addition_of_additions (publicKey kp_11_13) [5; 7] [1002]). cbn. lia.
Defined.
